(** * Sphere visualizer (VigIA): energy state machine, canvas sizing and frame

    A shallow embedding of [cross_asistent/static/js/sphere_visualizer.js].

    - Numbers.  JavaScript numbers are IEEE-754 binary64 values, so they are
      Rocq's primitive [float]s, whose operations [SpecFloat] specifies at
      [prec = 53], [emax = 1024]: the same format, the same
      round-to-nearest-even, the same reading of decimal literals.
      [Math.max], [Math.min] and [Math.round] follow ECMA-262, NaN and signed
      zeros included.  Results about ranges and monotonicity are therefore
      results about the rounded arithmetic the script performs; Parts II to
      IV and VI develop what is needed of it from [SpecFloat]'s definitions.
    - State.  The module-level [let] variables form the record [Vars].  The
      browser objects the script talks to are explicit state too: what
      [resize] writes on the canvas ([Canvas]), and in [Host] the tables of
      live interval timers and pending animation frames, whether the
      [beforeunload] listener has been added, and the [Math] object.
    - The DOM.  [canvas.width] and [canvas.height] are [unsigned long]
      attributes: an assignment converts the number as WebIDL says (the
      fraction is dropped) and [draw] reads the converted value back.
      [createRadialGradient], [addColorStop] and [arc] throw on the arguments
      the HTML standard says they throw on; an exception leaves [draw] before
      it requests the next frame.
    - Inputs.  [sphereSetTTSActive] takes a boolean, [sphereSetTTSEnergy] a
      number.  What [Math.random()], [Math.sin(Date.now() / 200)],
      [window.devicePixelRatio] and the container's [clientWidth] and
      [clientHeight] return are arguments of the functions that read them.
    - Painting.  [paint] lists what [draw] does on the canvas in the order
      of the source, one command for each call or assignment on the 2d
      context or on a gradient, with its numeric arguments; colour strings
      are given by their four numbers.  [Math.sin], [Math.cos] and
      [Math.hypot] are parameters of [paint]; of [Math.sin] only its range on
      finite numbers is ever assumed.  Loop counters are natural numbers,
      turned into Numbers where the script computes with them.
    - Left out.  The early return when the page has no canvas element, a
      canvas without a parent element, and what the browser shows for the
      commands. *)

From stdpp Require Import base gmap.
From Stdlib Require Import ZArith Lia Bool List Floats.
Set Warnings "-inexact-float".
Import ListNotations.

(* ================================================================== *)
(** * Part I: the program                                              *)
(* ================================================================== *)

(** ** JavaScript number primitives used by the script *)

(** ToBoolean on a Number: [+0], [-0] and [NaN] are falsy. *)
Definition truthy (x : float) : bool := negb (is_zero x || is_nan x).

(** [a || b] on numbers. *)
Definition js_or (a b : float) : float := if truthy a then a else b.

Definition is_neg_zero (x : float) : bool := is_zero x && get_sign x.
Definition is_pos_zero (x : float) : bool := is_zero x && negb (get_sign x).

(** [Math.max(...args)], ECMA-262: NaN if any argument is NaN; otherwise
    start from -Infinity, and [+0] beats [-0]. *)
Definition Math_max (args : list float) : float :=
  if existsb is_nan args then nan
  else fold_left
         (fun highest number =>
            if (is_pos_zero number && is_neg_zero highest) || (highest <? number)%float
            then number else highest)
         args neg_infinity.

(** [Math.min(...args)], ECMA-262: NaN if any argument is NaN; otherwise
    start from +Infinity, and [-0] beats [+0]. *)
Definition Math_min (args : list float) : float :=
  if existsb is_nan args then nan
  else fold_left
         (fun lowest number =>
            if (is_neg_zero number && is_pos_zero lowest) || (number <? lowest)%float
            then number else lowest)
         args infinity.

(** [lo <= x <= hi] as JavaScript evaluates it; false when [x] is NaN. *)
Definition between (lo x hi : float) : bool := ((lo <=? x) && (x <=? hi))%float.

(** [Math.PI]. *)
Definition Math_PI : float := 3.141592653589793.

(** The Number of a (small) integer: loop counters, rounded results and
    the pixel counts of the canvas. *)
Definition Z2float (z : Z) : float :=
  if (z <? 0)%Z then (- of_uint63 (Uint63.of_Z (- z)))%float
  else of_uint63 (Uint63.of_Z z).

Definition js_num (i : nat) : float := Z2float (Z.of_nat i).

(** [Math.round(x)], ECMA-262: [x] itself when it is not finite or is
    integral; otherwise [floor(x + 1/2)] computed exactly, with [-0] for the
    results that round up to zero from below. *)
Definition Math_round (x : float) : float :=
  match Prim2SF x with
  | S754_finite s m e =>
      if (0 <=? e)%Z then x
      else
        let z := ((2 * cond_Zopp s (Zpos m) + 2 ^ (- e)) / 2 ^ (1 - e))%Z in
        if (z =? 0)%Z then (if s then neg_zero else 0%float) else Z2float z
  | _ => x
  end.

(** WebIDL's conversion of a Number to [unsigned long]: NaN and the
    infinities give 0; any other number loses its fraction (towards zero)
    and is reduced modulo [2^32]. *)
Definition to_unsigned_long (x : float) : Z :=
  match Prim2SF x with
  | S754_finite s m e =>
      (cond_Zopp s (if 0 <=? e then Zpos m * 2 ^ e else Zpos m / 2 ^ (- e)) mod 2 ^ 32)%Z
  | _ => 0%Z
  end.

(** ** Configuration (lines 17-29) *)

Definition NUM_PARTICLES : nat := 140.
Definition BASE_RADIUS : float := 120.
Definition CIRCLE_RADIUS : float := 100.
Definition IDLE_AMPLITUDE : float := 3.
Definition REACTIVE_MULTIPLIER : float := 2.2.
Definition PARTICLE_SIZE_MIN : float := 1.2.
Definition PARTICLE_SIZE_MAX : float := 3.5.
Definition GLOW_BLUR : float := 18.

Record Color := mkColor { col_r : float; col_g : float; col_b : float }.

Definition COLOR_PRIMARY : Color := mkColor 59 130 246.
Definition COLOR_ACCENT : Color := mkColor 147 197 253.
Definition COLOR_WHITE : Color := mkColor 255 255 255.

(** ** State *)

(** The script's module-level variables (lines 32-37 and 52). *)
Record Vars := mkVars {
  animId : option positive;
  time : float;
  dpr : float;
  ttsEnergy : float;
  ttsEnergySmooth : float;
  ttsActive : bool;
  ttsSimInterval : option positive
}.

(** What [resize] writes on the canvas element and its 2d context:
    [canvas.width] and [canvas.height] as the element holds them and [draw]
    reads them back (whole numbers), the number in front of ["px"] in the
    strings assigned to [canvas.style.width] and [canvas.style.height], and
    the six arguments given to [ctx.setTransform]. *)
Record Canvas := mkCanvas {
  canvas_width : float;
  canvas_height : float;
  style_width_px : float;
  style_height_px : float;
  ctx_transform : list float
}.

(** The host's [Math.sin], [Math.cos] and [Math.hypot]. *)
Record MathObject := mkMath {
  sin : float -> float;
  cos : float -> float;
  hypot : float -> float -> float
}.

(** The browser side: the live interval timers created by this script,
    the pending animation-frame request, the next handles to hand out,
    whether the [beforeunload] listener of line 257 has been added, and the
    [Math] object.  Handles are positive integers, hence truthy. *)
Record Host := mkHost {
  intervals : gset positive;
  next_interval : positive;
  frame_request : option positive;
  next_frame : positive;
  unload_listener : bool;
  Math : MathObject
}.

Record World := mkWorld {
  vars : Vars;
  canvas : Canvas;
  host : Host
}.

(** Assignments to single variables. *)
Definition set_animId (x : option positive) (v : Vars) : Vars :=
  mkVars x (time v) (dpr v) (ttsEnergy v) (ttsEnergySmooth v) (ttsActive v) (ttsSimInterval v).
Definition set_time (x : float) (v : Vars) : Vars :=
  mkVars (animId v) x (dpr v) (ttsEnergy v) (ttsEnergySmooth v) (ttsActive v) (ttsSimInterval v).
Definition set_dpr (x : float) (v : Vars) : Vars :=
  mkVars (animId v) (time v) x (ttsEnergy v) (ttsEnergySmooth v) (ttsActive v) (ttsSimInterval v).
Definition set_ttsEnergy (x : float) (v : Vars) : Vars :=
  mkVars (animId v) (time v) (dpr v) x (ttsEnergySmooth v) (ttsActive v) (ttsSimInterval v).
Definition set_ttsEnergySmooth (x : float) (v : Vars) : Vars :=
  mkVars (animId v) (time v) (dpr v) (ttsEnergy v) x (ttsActive v) (ttsSimInterval v).
Definition set_ttsActive (x : bool) (v : Vars) : Vars :=
  mkVars (animId v) (time v) (dpr v) (ttsEnergy v) (ttsEnergySmooth v) x (ttsSimInterval v).
Definition set_ttsSimInterval (x : option positive) (v : Vars) : Vars :=
  mkVars (animId v) (time v) (dpr v) (ttsEnergy v) (ttsEnergySmooth v) (ttsActive v) x.

(** ** Browser primitives *)

(** [setInterval(f, 80)]: a fresh handle, now live. *)
Definition setInterval (h : Host) : positive * Host :=
  (next_interval h,
   mkHost ({[ next_interval h ]} ∪ intervals h) (Pos.succ (next_interval h))
          (frame_request h) (next_frame h) (unload_listener h) (Math h)).

(** [clearInterval(id)]: the handle is no longer live; unknown handles are ignored. *)
Definition clearInterval (id : positive) (h : Host) : Host :=
  mkHost (intervals h ∖ {[ id ]}) (next_interval h) (frame_request h) (next_frame h)
         (unload_listener h) (Math h).

(** [requestAnimationFrame(draw)]. *)
Definition requestAnimationFrame (h : Host) : positive * Host :=
  (next_frame h,
   mkHost (intervals h) (next_interval h) (Some (next_frame h)) (Pos.succ (next_frame h))
          (unload_listener h) (Math h)).

(** [cancelAnimationFrame(id)]; [null] and stale handles are ignored. *)
Definition cancelAnimationFrame (id : option positive) (h : Host) : Host :=
  match id, frame_request h with
  | Some i, Some j =>
      if Pos.eqb i j
      then mkHost (intervals h) (next_interval h) None (next_frame h)
                  (unload_listener h) (Math h)
      else h
  | _, _ => h
  end.

(** A request is off the browser's list once its callback has been run. *)
Definition frame_delivered (h : Host) : Host :=
  mkHost (intervals h) (next_interval h) None (next_frame h) (unload_listener h) (Math h).

(** [window.addEventListener("beforeunload", ...)]. *)
Definition addEventListener_beforeunload (h : Host) : Host :=
  mkHost (intervals h) (next_interval h) (frame_request h) (next_frame h) true (Math h).

(** Assigning [x] to [canvas.width] (default 300) or [canvas.height]
    (default 150) and reading the attribute back.  The assignment converts
    [x] to [unsigned long]; the attribute reflects a content attribute
    that holds at most [2^31 - 1], and a larger value stores the default. *)
Definition canvas_dimension (default : Z) (x : float) : float :=
  let n := to_unsigned_long x in
  Z2float (if (n <=? 2147483647)%Z then n else default).

(** ** The global API (lines 41-69) *)

(** [window.sphereSetTTSActive = function (active) { ttsActive = active;
    if (!active) ttsEnergy = 0; }] *)
Definition sphereSetTTSActive (active : bool) (w : World) : World :=
  let v := set_ttsActive active (vars w) in
  let v := if negb active then set_ttsEnergy 0%float v else v in
  mkWorld v (canvas w) (host w).

(** [window.sphereSetTTSEnergy = function (energy) {
      ttsEnergy = Math.min(1, Math.max(0, energy)); }] *)
Definition sphereSetTTSEnergy (energy : float) (w : World) : World :=
  mkWorld (set_ttsEnergy (Math_min [1%float; Math_max [0%float; energy]]) (vars w))
          (canvas w) (host w).

(** [window.sphereStartTTSPulse]: line 54 sets the flag, line 55 clears a
    previous timer if the handle is set, line 56 stores the new handle. *)
Definition sphereStartTTSPulse (w : World) : World :=
  let v := set_ttsActive true (vars w) in
  let h := match ttsSimInterval v with
           | Some old => clearInterval old (host w)
           | None => host w
           end in
  let '(id, h) := setInterval h in
  mkWorld (set_ttsSimInterval (Some id) v) (canvas w) h.

(** The interval callback (line 58).  [random] is what [Math.random()]
    returned and [sine] what [Math.sin(Date.now() / 200)] returned. *)
Definition pulse_callback (random sine : float) (w : World) : World :=
  mkWorld (set_ttsEnergy (0.3 + random * 0.5 + sine * 0.2)%float (vars w))
          (canvas w) (host w).

(** [window.sphereStopTTSPulse] (lines 62-69). *)
Definition sphereStopTTSPulse (w : World) : World :=
  let v := set_ttsEnergy 0%float (set_ttsActive false (vars w)) in
  match ttsSimInterval v with
  | Some id => mkWorld (set_ttsSimInterval None v) (canvas w) (clearInterval id (host w))
  | None => mkWorld v (canvas w) (host w)
  end.

(** ** Resize (lines 72-81) *)

(** [devicePixelRatio] is [window.devicePixelRatio]; [clientWidth] and
    [clientHeight] are those of [canvas.parentElement]. *)
Definition resize (devicePixelRatio clientWidth clientHeight : float) (w : World) : World :=
  let dpr' := js_or devicePixelRatio 1%float in
  let size := Math_min [clientWidth; clientHeight; 420%float] in
  mkWorld (set_dpr dpr' (vars w))
          (mkCanvas (canvas_dimension 300 (size * dpr')%float)
                    (canvas_dimension 150 (size * dpr')%float)
                    size size
                    [dpr'; 0; 0; dpr'; 0; 0]%float)
          (host w).

(** ** Helpers (lines 87-95) and loops *)

Definition lerp (a b t : float) : float := (a + (b - a) * t)%float.

Definition lerpColor (c1 c2 : Color) (t : float) : Color :=
  mkColor (Math_round (lerp (col_r c1) (col_r c2) t))
          (Math_round (lerp (col_g c1) (col_g c2) t))
          (Math_round (lerp (col_b c1) (col_b c2) t)).

(** [for (let i = start; i < stop; i += step) body(i)]: what the bodies
    emit, in order.  [fuel] bounds the number of iterations; [for_loop] gives
    [stop] rounds, which is enough for any positive step. *)
Fixpoint for_from {A} (fuel i stop step : nat) (body : nat -> list A) : list A :=
  match fuel with
  | O => []
  | S fuel' =>
      if (i <? stop)%nat then body i ++ for_from fuel' (i + step) stop step body else []
  end.

Definition for_loop {A} (start stop step : nat) (body : nat -> list A) : list A :=
  for_from stop start stop step body.

(** ** What [draw] paints (lines 105-248) *)

(** The template literal [`rgba(${r}, ${g}, ${b}, ${a})`], by its numbers. *)
Record Rgba := rgba { rgba_r : float; rgba_g : float; rgba_b : float; rgba_a : float }.

(** The three gradient objects of a frame (lines 115, 124 and 233). *)
Inductive Gradient := glowGrad | innerGrad | coreGrad.

(** A fill or stroke style: a colour string or a gradient object. *)
Inductive Style :=
  | css (c : Rgba)
  | gradient (g : Gradient).

(** The calls and assignments of a frame, named as in the canvas API: one
    command for each call or assignment on the 2d context and for each
    [addColorStop] on a gradient. *)
Inductive Cmd :=
  | clearRect (x y w h : float)
  | fillRect (x y w h : float)
  | createRadialGradient (g : Gradient) (x0 y0 r0 x1 y1 r1 : float)
  | addColorStop (g : Gradient) (offset : float) (c : Rgba)
  | set_fillStyle (s : Style)
  | set_strokeStyle (s : Style)
  | set_lineWidth (x : float)
  | set_shadowColor (c : Rgba)
  | set_shadowBlur (x : float)
  | set_font (px : float)
  | set_textAlign_center
  | set_textBaseline_middle
  | beginPath
  | arc (x y radius startAngle endAngle : float)
  | moveTo (x y : float)
  | lineTo (x y : float)
  | fill
  | stroke
  | fillText_VigIA (x y : float)
  | save
  | restore.

(** The energy-driven numbers of a frame, as functions of [e = ttsEnergySmooth]. *)
Definition glowRadius (e : float) : float := (CIRCLE_RADIUS + 50 + e * 80)%float.
Definition glowAlpha (e : float) : float := (0.05 + e * 0.18)%float.
Definition borderAlpha (e : float) : float := (0.2 + e * 0.3)%float.
Definition ringRadius (e : float) : float := (CIRCLE_RADIUS + 8 + e * 6)%float.
Definition ringAlpha (e : float) : float := (0.06 + e * 0.1)%float.
Definition shadowBlur (e : float) : float := (GLOW_BLUR * (0.3 + e * 0.7))%float.
Definition reactiveBase (e : float) : float :=
  (e * BASE_RADIUS * 0.5 * REACTIVE_MULTIPLIER)%float.
Definition particleAlpha (e : float) : float := (0.4 + e * 0.5)%float.
Definition connectDist (e : float) : float := (25 + e * 35)%float.
Definition lineAlpha (e : float) : float := (e * 0.12)%float.
Definition coreAlpha (e : float) : float := (0.5 + e * 0.5)%float.
Definition fontSize (e : float) : float := (14 + e * 2)%float.
Definition labelAlpha (e : float) : float := (0.5 + e * 0.3)%float.

Section Painting.

(** [Math.sin], [Math.cos] and [Math.hypot] of the host. *)
Variables (Math_sin Math_cos : float -> float) (Math_hypot : float -> float -> float).

(** [(i / n) * Math.PI * 2] *)
Definition angle_of (i n : nat) : float := (js_num i / js_num n * Math_PI * 2)%float.

(** *** Reactive particles around the circle (lines 152-178) *)

Definition idleOffset (t angle : float) : float :=
  (Math_sin (t * 1.5 + angle * 3) * IDLE_AMPLITUDE +
   Math_sin (t * 2.5 + angle * 5) * (IDLE_AMPLITUDE * 0.4))%float.

Definition particlePhase (t : float) (i : nat) : float :=
  (Math_sin (t * 3 + js_num i * 0.7) * 0.3 + 0.7)%float.

Definition reactiveOffset (t e : float) (i : nat) : float :=
  (reactiveBase e * particlePhase t i)%float.

(** [r], the distance of particle [i] from the centre. *)
Definition particleRadius (t e : float) (i : nat) : float :=
  (BASE_RADIUS + idleOffset t (angle_of i NUM_PARTICLES) + reactiveOffset t e i)%float.

Definition particleSize (t e : float) (i : nat) : float :=
  (lerp PARTICLE_SIZE_MIN PARTICLE_SIZE_MAX (e * particlePhase t i) +
   Math_sin (t * 3 + js_num i) * 0.4)%float.

Definition particle (t e cx cy : float) (i : nat) : list Cmd :=
  let angle := angle_of i NUM_PARTICLES in
  let r := particleRadius t e i in
  let px := (cx + Math_cos angle * r)%float in
  let py := (cy + Math_sin angle * r)%float in
  let color := lerpColor COLOR_ACCENT COLOR_WHITE (e * particlePhase t i)%float in
  [ beginPath;
    arc px py (Math_max [particleSize t e i; 0.5%float]) 0 (Math_PI * 2);
    set_fillStyle (css (rgba (col_r color) (col_g color) (col_b color) (particleAlpha e)));
    fill ].

(** *** Connecting lines (lines 182-213) *)

(** [r1], [x1], [y1] (and [r2], [x2], [y2]) of the line ends. *)
Definition lineEnd (t e cx cy : float) (i : nat) : float * float :=
  let angle1 := angle_of i NUM_PARTICLES in
  let idle1 := (Math_sin (t * 1.5 + angle1 * 3) * IDLE_AMPLITUDE)%float in
  let react1 := (e * BASE_RADIUS * 0.5 * REACTIVE_MULTIPLIER *
                 (Math_sin (t * 3 + js_num i * 0.7) * 0.3 + 0.7))%float in
  let r1 := (BASE_RADIUS + idle1 + react1)%float in
  ((cx + Math_cos angle1 * r1)%float, (cy + Math_sin angle1 * r1)%float).

Definition connection (t e cx cy : float) (i j : nat) : list Cmd :=
  let '(x1, y1) := lineEnd t e cx cy i in
  let '(x2, y2) := lineEnd t e cx cy j in
  let dist := Math_hypot (x2 - x1) (y2 - y1) in
  if (dist <? connectDist e)%float
  then [ beginPath; moveTo x1 y1; lineTo x2 y2; stroke ]
  else [].

Definition connections (t e cx cy : float) : list Cmd :=
  if (0.05 <? e)%float then
    [ set_strokeStyle (css (rgba (col_r COLOR_ACCENT) (col_g COLOR_ACCENT) (col_b COLOR_ACCENT)
                                 (lineAlpha e)));
      set_lineWidth 0.4 ] ++
    for_loop 0 NUM_PARTICLES 3 (fun i =>
      for_loop (i + 3) (Nat.min (i + 15) NUM_PARTICLES) 3 (fun j =>
        connection t e cx cy i j))
  else [].

(** *** Inner orbiting particles (lines 216-229) *)

Definition numInner : nat := 30.

Definition orbitRadius (i : nat) : float :=
  (CIRCLE_RADIUS * (0.25 + js_num (i mod 4) * 0.15))%float.

Definition wobble (t : float) (i : nat) : float :=
  (Math_sin (t * 2 + js_num i * 1.5) * 5)%float.

Definition iSize (t : float) (i : nat) : float :=
  (0.8 + Math_sin (t * 1.5 + js_num i) * 0.5)%float.

Definition innerAlpha (t e : float) (i : nat) : float :=
  (0.1 + e * 0.25 + Math_sin (t + js_num i) * 0.05)%float.

Definition innerParticle (t e cx cy : float) (i : nat) : list Cmd :=
  let orbitAngle := (angle_of i numInner + t * 0.4)%float in
  let ix := (cx + Math_cos orbitAngle * (orbitRadius i + wobble t i))%float in
  let iy := (cy + Math_sin orbitAngle * (orbitRadius i + wobble t i))%float in
  [ beginPath;
    arc ix iy (Math_max [iSize t i; 0.3%float]) 0 (Math_PI * 2);
    set_fillStyle (css (rgba (col_r COLOR_ACCENT) (col_g COLOR_ACCENT) (col_b COLOR_ACCENT)
                             (Math_max [innerAlpha t e i; 0%float])));
    fill ].

(** *** The pulsing core (line 232) *)

Definition coreRadius (t e : float) : float :=
  (3 + Math_sin (t * 1.5) * 1.5 + e * 6)%float.

(** *** The whole frame, for the variables as [draw] has just updated them *)

Definition paint (c : Canvas) (v : Vars) : list Cmd :=
  let w := (canvas_width c / dpr v)%float in
  let h := (canvas_height c / dpr v)%float in
  let cx := (w / 2)%float in
  let cy := (h / 2)%float in
  let e := ttsEnergySmooth v in
  let t := time v in
  let primary a := rgba (col_r COLOR_PRIMARY) (col_g COLOR_PRIMARY) (col_b COLOR_PRIMARY) a in
  let accent a := rgba (col_r COLOR_ACCENT) (col_g COLOR_ACCENT) (col_b COLOR_ACCENT) a in
  [ clearRect 0 0 w h;
    (* outer glow *)
    createRadialGradient glowGrad cx cy (CIRCLE_RADIUS * 0.5) cx cy (glowRadius e);
    addColorStop glowGrad 0 (primary (glowAlpha e));
    addColorStop glowGrad 0.5 (accent (glowAlpha e * 0.3)%float);
    addColorStop glowGrad 1 (primary 0%float);
    set_fillStyle (gradient glowGrad);
    fillRect 0 0 w h;
    (* static inner circle *)
    createRadialGradient innerGrad (cx - CIRCLE_RADIUS * 0.3) (cy - CIRCLE_RADIUS * 0.3) 0
                         cx cy CIRCLE_RADIUS;
    addColorStop innerGrad 0 (accent 0.08%float);
    addColorStop innerGrad 0.7 (primary 0.04%float);
    addColorStop innerGrad 1 (primary 0.12%float);
    beginPath;
    arc cx cy CIRCLE_RADIUS 0 (Math_PI * 2);
    set_fillStyle (gradient innerGrad);
    fill;
    (* static circle border *)
    beginPath;
    arc cx cy CIRCLE_RADIUS 0 (Math_PI * 2);
    set_strokeStyle (css (accent (borderAlpha e)));
    set_lineWidth 1.5;
    stroke;
    (* second ring *)
    beginPath;
    arc cx cy (ringRadius e) 0 (Math_PI * 2);
    set_strokeStyle (css (accent (ringAlpha e)));
    set_lineWidth 0.8;
    stroke;
    (* reactive particles *)
    save;
    set_shadowColor (primary 0.6%float);
    set_shadowBlur (shadowBlur e) ] ++
  for_loop 0 NUM_PARTICLES 1 (particle t e cx cy) ++
  [ restore ] ++
  connections t e cx cy ++
  for_loop 0 numInner 1 (innerParticle t e cx cy) ++
  [ (* pulsing core *)
    createRadialGradient coreGrad cx cy 0 cx cy (coreRadius t e);
    addColorStop coreGrad 0 (rgba 255 255 255 (coreAlpha e));
    addColorStop coreGrad 1 (primary 0%float);
    beginPath;
    arc cx cy (coreRadius t e) 0 (Math_PI * 2);
    set_fillStyle (gradient coreGrad);
    fill;
    (* label *)
    save;
    set_font (fontSize e);
    set_textAlign_center;
    set_textBaseline_middle;
    set_fillStyle (css (rgba 255 255 255 (labelAlpha e)));
    fillText_VigIA cx cy;
    restore ].

End Painting.

(** ** Exceptions of the canvas API *)

(** A colour string [rgba(r, g, b, a)] is a CSS colour when the four numbers
    print as numbers, that is, when none is NaN or infinite. *)
Definition rgba_parses (c : Rgba) : bool :=
  forallb is_finite [rgba_r c; rgba_g c; rgba_b c; rgba_a c].

(** The calls that throw, as the HTML standard has them:
    [createRadialGradient] on an argument that is NaN or infinite
    (TypeError) and on a negative radius (IndexSizeError); [addColorStop] on
    an offset that is not a number of [[0, 1]] and on a string that is not a
    colour (SyntaxError); [arc] on a negative radius when all its arguments
    are finite (it returns silently otherwise).  Nothing else in a frame
    throws: the other calls and the assignments ignore what they cannot use. *)
Definition throws (c : Cmd) : bool :=
  match c with
  | createRadialGradient _ x0 y0 r0 x1 y1 r1 =>
      negb (forallb is_finite [x0; y0; r0; x1; y1; r1])
      || (r0 <? 0)%float || (r1 <? 0)%float
  | addColorStop _ offset c =>
      negb (is_finite offset) || (offset <? 0)%float || (1 <? offset)%float
      || negb (rgba_parses c)
  | arc x y radius startAngle endAngle =>
      forallb is_finite [x; y; radius; startAngle; endAngle] && (radius <? 0)%float
  | _ => false
  end.

(** The commands that take effect: those before the first one that throws. *)
Fixpoint issued (cmds : list Cmd) : list Cmd :=
  match cmds with
  | [] => []
  | c :: rest => if throws c then [] else c :: issued rest
  end.

(** ** The render loop (lines 98-251) *)

(** [const targetEnergy = ttsActive ? ttsEnergy : 0;] *)
Definition targetEnergy (v : Vars) : float :=
  if ttsActive v then ttsEnergy v else 0%float.

(** The state updates of lines 99-103. *)
Definition smooth (v : Vars) : Vars :=
  let v := set_time (time v + 0.006)%float v in
  set_ttsEnergySmooth
    (ttsEnergySmooth v + (targetEnergy v - ttsEnergySmooth v) * 0.12)%float v.

(** The commands of lines 105-248 for the frame that starts in [w]. *)
Definition frame (w : World) : list Cmd :=
  paint (sin (Math (host w))) (cos (Math (host w))) (hypot (Math (host w)))
        (canvas w) (smooth (vars w)).

(** Whether a call of the frame throws. *)
Definition draw_throws (w : World) : bool := existsb throws (frame w).

(** [draw]: the state updates, the painting and, on line 250, the request
    for the next frame.  An exception in the painting leaves [draw] before
    line 250: [animId] keeps its value and no frame is requested (the
    request that started this call is off the browser's list). *)
Definition draw (w : World) : World :=
  let v := smooth (vars w) in
  if draw_throws w then mkWorld v (canvas w) (frame_delivered (host w))
  else
    let '(id, h) := requestAnimationFrame (host w) in
    mkWorld (set_animId (Some id) v) (canvas w) h.

(** The [beforeunload] listener (lines 257-260). *)
Definition on_beforeunload (w : World) : World :=
  let h := cancelAnimationFrame (animId (vars w)) (host w) in
  let h := match ttsSimInterval (vars w) with
           | Some id => clearInterval id h
           | None => h
           end in
  mkWorld (vars w) (canvas w) h.

(** ** Start-up and the events of a page session *)

(** The variable initialisers (lines 32-37, 52), the canvas element as the
    page delivered it and a browser with nothing scheduled. *)
Definition initial (page_canvas : Canvas) (math : MathObject) (devicePixelRatio : float)
    : World :=
  mkWorld (mkVars None 0%float (js_or devicePixelRatio 1%float) 0%float 0%float false None)
          page_canvas
          (mkHost ∅ 1%positive None 1%positive false math).

(** Running the script body: [resize()] (line 84), then [draw()] (line 254)
    and, when that call returns, the [beforeunload] listener (line 257); an
    exception in [draw()] ends the script on line 254. *)
Definition startup (page_canvas : Canvas) (math : MathObject)
    (devicePixelRatio clientWidth clientHeight : float) : World :=
  let w := resize devicePixelRatio clientWidth clientHeight
                  (initial page_canvas math devicePixelRatio) in
  if draw_throws w then draw w
  else mkWorld (vars (draw w)) (canvas (draw w))
               (addEventListener_beforeunload (host (draw w))).

Inductive Event :=
  | CallSetTTSActive (active : bool)
  | CallSetTTSEnergy (energy : float)
  | CallStartTTSPulse
  | CallStopTTSPulse
  | IntervalFires (id : positive) (random sine : float)
  | WindowResize (devicePixelRatio clientWidth clientHeight : float)
  | FrameFires
  | BeforeUnload.

(** The browser runs an interval callback only for a live handle, [draw]
    only for a pending frame request, and the [beforeunload] listener only
    if it has been added. *)
Definition run (ev : Event) (w : World) : World :=
  match ev with
  | CallSetTTSActive active => sphereSetTTSActive active w
  | CallSetTTSEnergy energy => sphereSetTTSEnergy energy w
  | CallStartTTSPulse => sphereStartTTSPulse w
  | CallStopTTSPulse => sphereStopTTSPulse w
  | IntervalFires id random sine =>
      if decide (id ∈ intervals (host w)) then pulse_callback random sine w else w
  | WindowResize d cw ch => resize d cw ch w
  | FrameFires =>
      match frame_request (host w) with
      | Some _ => draw w
      | None => w
      end
  | BeforeUnload => if unload_listener (host w) then on_beforeunload w else w
  end.

(** The contract of the host functions feeding the interval callback:
    [Math.random()] is in [[0, 1)] and [Math.sin] of a finite number is in
    [[-1, 1]].  Other events carry no obligation. *)
Definition host_contract (ev : Event) : Prop :=
  match ev with
  | IntervalFires _ random sine =>
      (0 <=? random)%float = true /\ (random <? 1)%float = true /\
      between (-1)%float sine 1%float = true
  | _ => True
  end.

(** The worlds a page session can be in when every event satisfies [ok]. *)
Inductive reachable_by (ok : Event -> Prop) : World -> Prop :=
  | reachable_startup c m d cw ch : reachable_by ok (startup c m d cw ch)
  | reachable_run ev w :
      reachable_by ok w -> ok ev -> reachable_by ok (run ev w).

Definition reachable : World -> Prop := reachable_by host_contract.

(** Events whose energy argument, if any, is a number (not NaN). *)
Definition numeric_energy (ev : Event) : Prop :=
  host_contract ev /\
  match ev with
  | CallSetTTSEnergy energy => is_nan energy = false
  | _ => True
  end.

(** A canvas element as HTML creates it (300 by 150), for the examples. *)
Definition example_canvas : Canvas :=
  mkCanvas 300%float 150%float 300%float 150%float [1; 0; 0; 1; 0; 0]%float.

(** A [Math] object for the examples, with constant functions: no energy,
    size or handle depends on what [Math.sin], [Math.cos] and [Math.hypot]
    return. *)
Definition example_math : MathObject :=
  mkMath (fun _ => 0%float) (fun _ => 1%float) (fun _ _ => 0%float).

(** [n] calls of [draw] in a row: consecutive frames with no other event in
    between. *)
Fixpoint frames (n : nat) (w : World) : World :=
  match n with
  | O => w
  | S k => frames k (draw w)
  end.

(** The energy invariant of the data model: both energies lie in [[0, 1]]. *)
Definition energy_in_range (w : World) : Prop :=
  between 0%float (ttsEnergy (vars w)) 1%float = true /\
  between 0%float (ttsEnergySmooth (vars w)) 1%float = true.

(** The generator invariant: every live timer is the one the handle names,
    and handles in use are older than the next one to be handed out. *)
Definition generator_ok (w : World) : Prop :=
  (forall id, id ∈ intervals (host w) -> ttsSimInterval (vars w) = Some id) /\
  (forall id, id ∈ intervals (host w) -> (id < next_interval (host w))%positive) /\
  (forall id, ttsSimInterval (vars w) = Some id -> (id < next_interval (host w))%positive).

(** The frame invariant: a pending frame request is the one [animId] names. *)
Definition frame_ok (w : World) : Prop :=
  frame_request (host w) = None \/ frame_request (host w) = animId (vars w).

(** Clamping in the words of the specification: the number of [[lo, hi]]
    nearest to [x]; what is not at least [lo], NaN included, gives [lo]. *)
Definition clamp (x lo hi : float) : float :=
  if (lo <=? x)%float then (if (x <=? hi)%float then x else hi) else lo.

(** ** Example sessions *)

(** Speech at full energy right after start-up. *)
Definition speaking_world : World :=
  run (CallSetTTSEnergy 1) (run (CallSetTTSActive true)
    (startup example_canvas example_math 2 1000 1000)).

(** Five frames of speech, then silence. *)
Definition silenced_world : World :=
  run (CallSetTTSActive false) (frames 5 speaking_world).

(** Speech, then a NaN energy report. *)
Definition nan_world : World :=
  run (CallSetTTSEnergy nan) (run (CallSetTTSActive true)
    (startup example_canvas example_math 2 1000 1000)).

(** The synthetic pulse started right after start-up. *)
Definition pulsing_world : World :=
  run CallStartTTSPulse (startup example_canvas example_math 2 1000 1000).

(** ** What the canvas accepts *)

(** The contract of the host's [Math.sin]: on a finite number the result
    lies in [[-1, 1]]. *)
Definition sine_contract (sin : float -> float) : Prop :=
  forall x, is_finite x = true -> between (-1) (sin x) 1 = true.

(** A radius the canvas draws: [arc] and [createRadialGradient] throw on a
    negative radius, and the gradient also on a non-finite one. *)
Definition radius_ok (r : float) : bool := ((0 <=? r) && (r <? infinity))%float.

(** A length that must be positive and finite to take effect
    ([lineWidth], the font size). *)
Definition length_ok (x : float) : bool := ((0 <? x) && (x <? infinity))%float.

Definition rgba_ok (c : Rgba) : bool :=
  between 0 (rgba_r c) 255 && between 0 (rgba_g c) 255 && between 0 (rgba_b c) 255
  && between 0 (rgba_a c) 1.

Definition style_ok (s : Style) : bool :=
  match s with
  | css c => rgba_ok c
  | gradient _ => true
  end.

(** The numbers of a command are in the ranges the canvas uses as given. *)
Definition cmd_ok (c : Cmd) : bool :=
  match c with
  | arc _ _ radius _ _ => radius_ok radius
  | createRadialGradient _ _ _ r0 _ _ r1 => radius_ok r0 && radius_ok r1
  | addColorStop _ offset c => between 0 offset 1 && rgba_ok c
  | set_fillStyle s | set_strokeStyle s => style_ok s
  | set_shadowColor c => rgba_ok c
  | set_shadowBlur x => radius_ok x
  | set_lineWidth x | set_font x => length_ok x
  | _ => true
  end.

(** The coordinates that must be finite are: those of a gradient. *)
Definition cmd_finite (c : Cmd) : bool :=
  match c with
  | createRadialGradient _ x0 y0 _ x1 y1 _ => forallb is_finite [x0; y0; x1; y1]
  | _ => true
  end.

(** The commands that trace a connecting line. *)
Definition is_line (c : Cmd) : bool :=
  match c with
  | moveTo _ _ | lineTo _ _ => true
  | _ => false
  end.

(** ** Invariants of a session *)

(** The surface invariant: on both sides the drawing buffer holds the whole
    pixels of the CSS size times the pixel ratio, the CSS box is square,
    [setTransform] was given the pixel ratio, and the pixel ratio is a usable
    number. *)
Definition surface_ok (w : World) : Prop :=
  canvas_width (canvas w)
    = canvas_dimension 300 (style_width_px (canvas w) * dpr (vars w))%float /\
  canvas_height (canvas w)
    = canvas_dimension 150 (style_height_px (canvas w) * dpr (vars w))%float /\
  style_width_px (canvas w) = style_height_px (canvas w) /\
  ctx_transform (canvas w) = [dpr (vars w); 0; 0; dpr (vars w); 0; 0]%float /\
  truthy (dpr (vars w)) = true.

(** The phase accumulator stays a number of [[0, 2^53]]. *)
Definition time_in_range (w : World) : Prop :=
  between 0 (time (vars w)) 9007199254740992 = true.

(** The index pairs [(i, j)] the two connecting-line loops visit, in order. *)
Definition connection_pairs : list (nat * nat) :=
  for_loop 0 NUM_PARTICLES 3 (fun i =>
    for_loop (i + 3) (Nat.min (i + 15) NUM_PARTICLES) 3 (fun j => [(i, j)])).

(** Whether the pair [(i, j)] is one the connecting-line loops visit. *)
Definition pair_visited (i j : nat) : bool :=
  ((i mod 3 =? 0) && (i <? j) && (j <? NUM_PARTICLES) && ((j - i) mod 3 =? 0)
   && (j - i <=? 12))%nat.

(* ================================================================== *)
(** * Part II: the value of a binary64 number                          *)
(* ================================================================== *)

Local Open Scope Z_scope.

(** Finite floats are [m * 2 ^ e] with [e >= -1074]; exact products of two
    of them have [e >= -2148].  Values are therefore kept as integers,
    scaled by [2 ^ ebias]. *)
Definition ebias : Z := 2148.

Definition Zv (m e : Z) : Z := m * 2 ^ (e + ebias).

(** [SpecFloat.fexp] at [prec = 53], [emax = 1024]. *)
Definition fexp64 (e : Z) : Z := Z.max (e - 53) (-1074).

(** No bit was shifted out. *)
Definition shr_exact (mrs : shr_record) : bool := negb (shr_r mrs || shr_s mrs).

Ltac elia := unfold ebias in *; lia.

Definition canonical64 (m : positive) (e : Z) : Prop :=
  e = fexp64 (Zpos (digits2_pos m) + e).

(** The rounded magnitude [R] (with sign [s]) is at least [lo]. *)
Definition rounds_above (lo : Z) (R : spec_float) (s : bool) : Prop :=
  R = S754_infinity s \/
  exists m e, R = S754_finite s m e /\ lo <= Zv (Zpos m) e.

(** The rounded magnitude [R] (with sign [s]) is at most [hi]. *)
Definition rounds_below (hi : Z) (R : spec_float) (s : bool) : Prop :=
  R = S754_zero s \/
  exists m e, R = S754_finite s m e /\ Zv (Zpos m) e <= hi.

(** [R] is a rounding of the magnitude [X]: it never crosses a float that
    bounds [X] from below or (short of overflow) from above. *)
Definition mag_rounded (X : Z) (s : bool) (R : spec_float) : Prop :=
  (forall mg eg, canonical64 mg eg -> Zv (Zpos mg) eg <= X ->
     rounds_above (Zv (Zpos mg) eg) R s) /\
  (forall mg eg, canonical64 mg eg -> X <= Zv (Zpos mg) eg ->
     Zv (Zpos mg) eg < 2 ^ (972 + ebias) ->
     rounds_below (Zv (Zpos mg) eg) R s).

(** Signed value of a finite float, scaled by [2 ^ ebias]. *)
Definition Fval (f : spec_float) : option Z :=
  match f with
  | S754_zero _ => Some 0
  | S754_finite s m e => Some (cond_Zopp s (Zv (Zpos m) e))
  | _ => None
  end.

(** Far from overflow. *)
Definition small (v : Z) : Prop := Z.abs v < 2 ^ (972 + ebias).

(** Value of a number on the extended line: the infinities sit beyond every
    finite float. *)
Definition Fext (f : spec_float) : option Z :=
  match f with
  | S754_infinity s => Some (cond_Zopp s (2 ^ (1024 + ebias)))
  | S754_nan => None
  | _ => Fval f
  end.

(** Value of a primitive float. *)
Definition FV (x : float) : option Z := Fval (Prim2SF x).

(** How two primitive floats compare, [None] when one is NaN. *)
Definition float_cmp (x y : float) : option comparison :=
  SFcompare (Prim2SF x) (Prim2SF y).

(** ** Rounding to nearest *)

Definition round_to (u v : Z) : Z :=
  let q := v / u in
  let r := v mod u in
  (if 2 * r <? u then q
   else if u <? 2 * r then q + 1
   else if Z.even q then q else q + 1) * u.

Definition ulp_at (v : Z) : Z := 2 ^ (fexp64 (Z.log2 v + 1 - ebias) + ebias).

Definition rnd (v : Z) : Z :=
  match v with
  | 0 => 0
  | Zpos _ => round_to (ulp_at v) v
  | Zneg p => - round_to (ulp_at (Zpos p)) (Zpos p)
  end.

Definition moderate (v : Z) : Prop := Z.abs v < 2 ^ (971 + ebias).

(** After [k] steps of [shr_1]: the round bit is bit [k - 1] of the mantissa
    and the sticky bit tells whether anything lies below it. *)
Definition shr_tracks (mx k : Z) (mrs : shr_record) : Prop :=
  shr_m mrs = mx / 2 ^ k /\
  shr_r mrs = (0 <? k) && Z.odd (mx / 2 ^ (k - 1)) /\
  shr_s mrs = (0 <? k) && negb (mx mod 2 ^ (k - 1) =? 0).

(** finite and at most 1e100 in magnitude *)
Definition tame (x : float) : bool := between (-1e100)%float x 1e100%float.

(* ================================================================== *)
(** * Part III: rounding never crosses a representable bound           *)
(* ================================================================== *)

Lemma fexp_eq e : fexp prec emax e = fexp64 e.
Proof. reflexivity. Qed.

(** ** Binary digits and powers of two *)

(** [digits2_pos m] is the bit length of [m]. *)
Lemma digits2_bounds m :
  2 ^ (Zpos (digits2_pos m) - 1) <= Zpos m < 2 ^ Zpos (digits2_pos m).
Proof.
  induction m as [m IH|m IH|]; cbn [digits2_pos].
  - rewrite Pos2Z.inj_succ, (Pos2Z.inj_xI m).
    replace (Z.succ (Zpos (digits2_pos m)) - 1) with (Z.succ (Zpos (digits2_pos m) - 1)) by lia.
    rewrite !Z.pow_succ_r by lia. lia.
  - rewrite Pos2Z.inj_succ, (Pos2Z.inj_xO m).
    replace (Z.succ (Zpos (digits2_pos m)) - 1) with (Z.succ (Zpos (digits2_pos m) - 1)) by lia.
    rewrite !Z.pow_succ_r by lia. lia.
  - cbn. lia.
Qed.

(** ** Shifting a mantissa right *)

(** An invariant indexed by the number of steps survives [iter_pos]. *)
Lemma iter_pos_shift {A} (f : A -> A) (P : Z -> A -> Prop) :
  (forall k x, 0 <= k -> P k x -> P (k + 1) (f x)) ->
  forall p k x, 0 <= k -> P k x -> P (k + Zpos p) (iter_pos f p x).
Proof.
  intros Hstep p; induction p as [p IH|p IH|]; intros k x Hk HP; cbn [iter_pos].
  - replace (k + Zpos p~1) with (k + 1 + Zpos p + Zpos p) by lia.
    apply IH; [lia|]. apply IH; [lia|]. now apply Hstep.
  - replace (k + Zpos p~0) with (k + Zpos p + Zpos p) by lia.
    apply IH; [lia|]. now apply IH.
  - now apply Hstep.
Qed.

(** One step of [shr_1] on a non-negative mantissa: halve, remember the bit
    that fell off, accumulate the sticky bit. *)
Lemma shr_1_fields m r s :
  0 <= m ->
  shr_1 (Build_shr_record m r s) = Build_shr_record (m / 2) (Z.odd m) (r || s).
Proof.
  intros Hm. destruct m as [|[p|p|]|p]; try lia; cbn [shr_1 Z.odd]; f_equal.
  - rewrite (Pos2Z.inj_xI p). apply Z.div_unique with 1; lia.
  - rewrite (Pos2Z.inj_xO p). apply Z.div_unique with 0; lia.
Qed.

Lemma shr_1_div mx k mrs :
  0 <= mx -> 0 <= k ->
  shr_m mrs = mx / 2 ^ k ->
  (shr_exact mrs = true <-> mx mod 2 ^ k = 0) ->
  shr_m (shr_1 mrs) = mx / 2 ^ (k + 1) /\
  (shr_exact (shr_1 mrs) = true <-> mx mod 2 ^ (k + 1) = 0).
Proof.
  intros Hmx Hk Hm Hex.
  assert (Hp : 0 < 2 ^ k) by (apply Z.pow_pos_nonneg; lia).
  rewrite Z.pow_add_r, Z.pow_1_r by lia.
  rewrite <- Z.div_div by lia. rewrite Z.rem_mul_r by lia.
  rewrite <- Hm.
  assert (Hq : 0 <= shr_m mrs) by (rewrite Hm; apply Z.div_pos; lia).
  assert (Hr : 0 <= mx mod 2 ^ k) by (apply Z.mod_pos_bound; lia).
  destruct mrs as [m r s]; cbn [shr_m] in *.
  rewrite shr_1_fields by assumption.
  unfold shr_exact in *; cbn [shr_m shr_r shr_s] in *.
  split; [reflexivity|].
  rewrite (Zmod_odd m).
  destruct (Z.odd m), (r || s); cbn [negb orb] in *; split; intros H; try discriminate H; try reflexivity.
  all: try (exfalso; nia).
  all: try (destruct Hex as [Hex1 Hex2]; try (discriminate Hex2; lia)).
  lia.
Qed.

(** [p] steps divide by [2 ^ p]; the record is exact iff nothing was lost. *)
Lemma iter_shr_1_div mx p :
  0 <= mx ->
  let mrs := iter_pos shr_1 p (Build_shr_record mx false false) in
  shr_m mrs = mx / 2 ^ Zpos p /\ (shr_exact mrs = true <-> mx mod 2 ^ Zpos p = 0).
Proof.
  intros Hmx.
  pose (P := fun k mrs => shr_m mrs = mx / 2 ^ k /\ (shr_exact mrs = true <-> mx mod 2 ^ k = 0)).
  change (P (Zpos p) (iter_pos shr_1 p (Build_shr_record mx false false))).
  replace (Zpos p) with (0 + Zpos p) at 1 by lia.
  apply iter_pos_shift; [|lia|].
  - intros k x Hk [H1 H2]. now apply shr_1_div.
  - unfold P; cbn. rewrite Z.div_1_r, Z.mod_1_r. tauto.
Qed.

Lemma pow2_pos k : 0 <= k -> 0 < 2 ^ k.
Proof. intros; apply Z.pow_pos_nonneg; lia. Qed.

Lemma pow2_le a b : a <= b -> 0 <= a -> 2 ^ a <= 2 ^ b.
Proof. intros; apply Z.pow_le_mono_r; lia. Qed.

Lemma pow2_lt a b : a < b -> 0 <= a -> 2 ^ a < 2 ^ b.
Proof. intros; apply Z.pow_lt_mono_r; lia. Qed.

Lemma pow2_le_inv a b : 2 ^ a <= 2 ^ b -> 0 <= b -> a <= b.
Proof. intros H Hb. apply (Z.pow_le_mono_r_iff 2); lia. Qed.

Lemma pow2_lt_inv a b : 2 ^ a < 2 ^ b -> 0 <= b -> a < b.
Proof. intros H Hb. apply (Z.pow_lt_mono_r_iff 2); lia. Qed.

Lemma pow2_split a b : 0 <= a -> 0 <= b -> 2 ^ (a + b) = 2 ^ a * 2 ^ b.
Proof. intros; apply Z.pow_add_r; lia. Qed.

Lemma Zdigits2_bounds m :
  0 < m -> 2 ^ (Zdigits2 m - 1) <= m < 2 ^ Zdigits2 m.
Proof. destruct m as [|p|p]; try lia. intros _. apply digits2_bounds. Qed.

Lemma Zdigits2_pos m : 0 < m -> 0 < Zdigits2 m.
Proof. destruct m; cbn; lia. Qed.

(** ** The structure of [binary_round_aux] *)

(** [shr_fexp] shifts by [fexp (digits + e) - e] when that is positive. *)
Lemma shr_fexp_exact_loc mx ex :
  0 <= mx ->
  let n := Z.max 0 (fexp64 (Zdigits2 mx + ex) - ex) in
  exists mrs,
    shr_fexp prec emax mx ex loc_Exact = (mrs, ex + n) /\
    shr_m mrs = mx / 2 ^ n /\
    (shr_exact mrs = true <-> mx mod 2 ^ n = 0).
Proof.
  intros Hmx n. unfold shr_fexp, shr, shr_record_of_loc.
  rewrite fexp_eq. fold (fexp64 (Zdigits2 mx + ex)).
  subst n. destruct (fexp64 (Zdigits2 mx + ex) - ex) as [|p|p] eqn:E.
  - exists (Build_shr_record mx false false).
    rewrite Z.max_id, Z.add_0_r. cbn. rewrite Z.div_1_r, Z.mod_1_r. tauto.
  - exists (iter_pos shr_1 p (Build_shr_record mx false false)).
    rewrite Z.max_r by lia. split; [reflexivity|].
    now apply iter_shr_1_div.
  - exists (Build_shr_record mx false false).
    rewrite Z.max_l by lia. rewrite Z.add_0_r. cbn. rewrite Z.div_1_r, Z.mod_1_r. tauto.
Qed.

(** Rounding to nearest even keeps the truncated mantissa or adds one, and
    keeps it when nothing was lost. *)
Lemma round_nearest_even_range mrs :
  let m1 := round_nearest_even (shr_m mrs) (loc_of_shr_record mrs) in
  shr_m mrs <= m1 <= shr_m mrs + 1 /\ (shr_exact mrs = true -> m1 = shr_m mrs).
Proof.
  destruct mrs as [m [|] [|]]; unfold shr_exact; cbn; try (split; [lia|intros; congruence]).
  destruct (Z.even m); split; try lia; intros; congruence.
Qed.

(** The second shift of [binary_round_aux] only renormalises a carry: it
    shifts by at most one bit, and then out of an even mantissa. *)
Lemma second_shift_exact dx ex n m m1 :
  0 < dx -> n = Z.max 0 (fexp64 (dx + ex) - ex) ->
  0 <= m -> m * 2 ^ n < 2 ^ dx -> m <= m1 <= m + 1 -> 0 < m1 ->
  let n2 := Z.max 0 (fexp64 (Zdigits2 m1 + (ex + n)) - (ex + n)) in
  n2 = 0 \/ (n2 = 1 /\ m1 mod 2 = 0).
Proof.
  intros Hdx Hn Hm Hlt Hm1 Hpos n2.
  assert (Hn0 : 0 <= n) by lia.
  pose proof (Zdigits2_bounds m1 Hpos) as [Hd1 Hd2].
  pose proof (Zdigits2_pos m1 Hpos) as Hd0.
  set (d1 := Zdigits2 m1) in *.
  destruct (Z_lt_le_dec dx n) as [Hbig|Hsmall].
  - (* everything was shifted out *)
    assert (m = 0).
    { assert (2 ^ dx < 2 ^ n) by (apply pow2_lt; lia).
      pose proof (pow2_pos dx ltac:(lia)). nia. }
    assert (m1 = 1) by lia. subst m1.
    assert (d1 = 1) by (subst d1; reflexivity).
    left. subst n2. unfold fexp64 in *. lia.
  - assert (Hm1le : m1 <= 2 ^ (dx - n)).
    { assert (m < 2 ^ (dx - n)); [|lia].
      replace dx with ((dx - n) + n) in Hlt at 1 by lia.
      rewrite pow2_split in Hlt by lia.
      pose proof (pow2_pos n Hn0). nia. }
    assert (Hd1le : d1 - 1 <= dx - n) by (apply pow2_le_inv; lia).
    destruct (Z.eq_dec (d1 - 1) (dx - n)) as [Heq|Hne].
    + assert (Hm1eq : m1 = 2 ^ (dx - n)) by (rewrite <- Heq; rewrite <- Heq in Hm1le; lia).
      destruct (Z.eq_dec dx n) as [Hdn|Hdn].
      * left. subst n2. unfold fexp64 in *. lia.
      * destruct (Z.eq_dec n2 0) as [|Hn2]; [now left|right].
        split; [subst n2; unfold fexp64 in *; lia|].
        rewrite Hm1eq. replace (dx - n) with (1 + (dx - n - 1)) by lia.
        rewrite pow2_split by lia. change (2 ^ 1) with 2.
        rewrite Z.mul_comm. apply Z.mod_mul. lia.
    + left. subst n2. unfold fexp64 in *. lia.
Qed.

(** What [binary_round_aux] returns on an exact positive input: the
    truncated mantissa [m] or [m + 1] at the exponent [ex + n], as a zero, a
    finite float or, past [emax], an infinity. *)
Lemma binary_round_aux_struct s mx ex :
  let n := Z.max 0 (fexp64 (Zpos (digits2_pos mx) + ex) - ex) in
  let m := Zpos mx / 2 ^ n in
  let R := binary_round_aux prec emax s (Zpos mx) ex loc_Exact in
  exists m1, m <= m1 <= m + 1 /\ (Zpos mx mod 2 ^ n = 0 -> m1 = m) /\
    ((m1 = 0 /\ R = S754_zero s) \/
     (exists m2 k, 0 <= k /\ Zpos m2 * 2 ^ k = m1 /\
        ((ex + n + k <= 971 /\ R = S754_finite s m2 (ex + n + k)) \/
         (971 < ex + n + k /\ R = S754_infinity s)))).
Proof.
  intros n m R. subst R. unfold binary_round_aux.
  destruct (shr_fexp_exact_loc (Zpos mx) ex ltac:(lia)) as (mrs & Hshr & Hm & Hex).
  cbn [Zdigits2] in Hshr, Hm, Hex. fold n in Hshr, Hm, Hex. fold m in Hm.
  rewrite Hshr.
  pose proof (round_nearest_even_range mrs) as [Hrange Hexact].
  set (m1 := round_nearest_even (shr_m mrs) (loc_of_shr_record mrs)) in *.
  rewrite Hm in Hrange, Hexact.
  assert (Hn0 : 0 <= n) by (subst n; lia).
  assert (Hm0 : 0 <= m) by (subst m; apply Z.div_pos; [lia|now apply pow2_pos]).
  destruct (shr_fexp_exact_loc m1 (ex + n) ltac:(lia)) as (mrs2 & Hshr2 & Hm2 & Hex2).
  rewrite Hshr2.
  exists m1. split; [exact Hrange|]. split; [intros H0; apply Hexact, Hex, H0|].
  destruct (Z.eq_dec m1 0) as [Hz|Hnz].
  - left. split; [exact Hz|]. rewrite Hm2, Hz, Z.div_0_l; [reflexivity|].
    apply Z.pow_nonzero; lia.
  - right.
    assert (Hlt : m * 2 ^ n < 2 ^ Zpos (digits2_pos mx)).
    { pose proof (digits2_bounds mx) as [_ Hub].
      pose proof (Z.mul_div_le (Zpos mx) (2 ^ n) (pow2_pos n Hn0)). fold m in H. lia. }
    pose proof (second_shift_exact (Zpos (digits2_pos mx)) ex n m m1
                  ltac:(lia) eq_refl Hm0 Hlt Hrange ltac:(lia)) as Hsecond.
    cbn zeta in Hsecond.
    set (n2 := Z.max 0 (fexp64 (Zdigits2 m1 + (ex + n)) - (ex + n))) in *.
    assert (Hdiv : (m1 / 2 ^ n2) * 2 ^ n2 = m1).
    { destruct Hsecond as [->|[-> Hev]].
      - rewrite Z.pow_0_r, Z.div_1_r; lia.
      - change (2 ^ 1) with 2. pose proof (Z.div_mod m1 2 ltac:(lia)). lia. }
    assert (Hq : 0 < m1 / 2 ^ n2).
    { assert (0 <= n2) by (subst n2; lia). pose proof (pow2_pos n2 H).
      assert (0 <= m1 / 2 ^ n2) by (apply Z.div_pos; lia). nia. }
    rewrite Hm2. destruct (m1 / 2 ^ n2) as [|q|q] eqn:Eq; try lia.
    exists q, n2. split; [subst n2; lia|]. split; [exact Hdiv|].
    change (emax - prec) with 971.
    destruct (Z.leb_spec (ex + n + n2) 971); [left|right]; split; auto; lia.
Qed.

(** ** Scaled values and canonical mantissas *)

Lemma bounded_canonical m e :
  bounded prec emax m e = true -> canonical64 m e /\ e <= 971.
Proof.
  unfold bounded, canonical_mantissa. rewrite fexp_eq.
  change (emax - prec) with 971.
  intros H. apply andb_prop in H as [H1 H2].
  apply Z.eqb_eq in H1. apply Z.leb_le in H2. unfold canonical64. lia.
Qed.

Lemma canonical_emin m e : canonical64 m e -> -1074 <= e.
Proof. unfold canonical64, fexp64. lia. Qed.

Lemma Zv_pos_lt_pow m e :
  - ebias <= e -> Zv (Zpos m) e < 2 ^ (Zpos (digits2_pos m) + e + ebias).
Proof.
  intros He. unfold Zv. pose proof (digits2_bounds m) as [_ H].
  replace (Zpos (digits2_pos m) + e + ebias) with (Zpos (digits2_pos m) + (e + ebias)) by elia.
  rewrite (pow2_split (Zpos (digits2_pos m)) (e + ebias)) by elia.
  pose proof (pow2_pos (e + ebias) ltac:(elia)). nia.
Qed.

Lemma Zv_pos_ge_pow m e :
  - ebias <= e -> 2 ^ (Zpos (digits2_pos m) - 1 + e + ebias) <= Zv (Zpos m) e.
Proof.
  intros He. unfold Zv. pose proof (digits2_bounds m) as [H _].
  replace (Zpos (digits2_pos m) - 1 + e + ebias) with (Zpos (digits2_pos m) - 1 + (e + ebias)) by elia.
  rewrite (pow2_split (Zpos (digits2_pos m) - 1) (e + ebias)) by elia.
  pose proof (pow2_pos (e + ebias) ltac:(elia)). nia.
Qed.

Lemma Zv_shift m e k :
  - ebias <= e -> 0 <= k -> Zv (m * 2 ^ k) e = Zv m (e + k).
Proof.
  intros He Hk. unfold Zv.
  replace (e + k + ebias) with (k + (e + ebias)) by elia.
  rewrite (pow2_split k (e + ebias)) by elia. ring.
Qed.

Lemma Zv_le_cancel a b e : - ebias <= e -> Zv a e <= Zv b e -> a <= b.
Proof.
  intros He H. unfold Zv in H. pose proof (pow2_pos (e + ebias) ltac:(elia)). nia.
Qed.

Lemma Zv_le_mono a b e : - ebias <= e -> a <= b -> Zv a e <= Zv b e.
Proof.
  intros He H. unfold Zv. pose proof (pow2_pos (e + ebias) ltac:(elia)). nia.
Qed.

(** Truncating the mantissa never drops below a representable lower bound. *)
Lemma floor_lower mx ex mg eg :
  - ebias <= ex -> canonical64 mg eg ->
  Zv (Zpos mg) eg <= Zv (Zpos mx) ex ->
  let n := Z.max 0 (fexp64 (Zpos (digits2_pos mx) + ex) - ex) in
  Zv (Zpos mg) eg <= Zv (Zpos mx / 2 ^ n) (ex + n).
Proof.
  intros Hex Hcan Hle n.
  pose proof (canonical_emin _ _ Hcan) as Heg.
  assert (Hn0 : 0 <= n) by (subst n; lia).
  pose proof (pow2_pos n Hn0) as HN.
  destruct (Z.eq_dec n 0) as [Hz|Hnz].
  - rewrite Hz, Z.pow_0_r, Z.div_1_r, Z.add_0_r. exact Hle.
  - destruct (Z_le_gt_dec (ex + n) eg) as [Hhi|Hlo].
    + (* the bound is a multiple of the new unit *)
      replace eg with ((ex + n) + (eg - (ex + n))) in Hle |- * by elia.
      rewrite <- (Zv_shift (Zpos mg) (ex + n) (eg - (ex + n))) in Hle |- * by elia.
      apply Zv_le_mono; [elia|].
      apply Z.div_le_lower_bound; [exact HN|].
      rewrite <- (Zv_shift _ ex n) in Hle by elia.
      apply Zv_le_cancel in Hle; [|exact Hex]. lia.
    + (* the bound lies in a lower binade *)
      unfold canonical64 in Hcan.
      pose proof (digits2_bounds mx) as [Hdx _].
      pose proof (Zv_pos_lt_pow mg eg ltac:(elia)) as Hg.
      set (dx := Zpos (digits2_pos mx)) in *.
      set (dg := Zpos (digits2_pos mg)) in *.
      assert (Hn : n = dx - 53) by (subst n; unfold fexp64 in *; lia).
      assert (Hd : dg + eg < dx + ex) by (subst n; unfold fexp64 in *; lia).
      assert (Hm : 2 ^ 52 <= Zpos mx / 2 ^ n).
      { apply Z.div_le_lower_bound; [exact HN|].
        rewrite Z.mul_comm, <- (pow2_split 52 n) by elia.
        replace (52 + n) with (dx - 1) by elia. exact Hdx. }
      assert (Hp : 2 ^ (dg + eg + ebias) <= 2 ^ (52 + (ex + n + ebias))).
      { apply pow2_le; elia. }
      rewrite (pow2_split 52 (ex + n + ebias)) in Hp by elia.
      unfold Zv at 2.
      pose proof (pow2_pos (ex + n + ebias) ltac:(elia)).
      nia.
Qed.

(** When bits are lost, the next mantissa up still respects a representable upper bound. *)
Lemma ceil_upper mx ex mg eg :
  - ebias <= ex -> canonical64 mg eg ->
  Zv (Zpos mx) ex <= Zv (Zpos mg) eg ->
  let n := Z.max 0 (fexp64 (Zpos (digits2_pos mx) + ex) - ex) in
  Zpos mx mod 2 ^ n <> 0 ->
  Zv (Zpos mx / 2 ^ n + 1) (ex + n) <= Zv (Zpos mg) eg.
Proof.
  intros Hex Hcan Hle n Hmod.
  pose proof (canonical_emin _ _ Hcan) as Heg.
  assert (Hn0 : 0 <= n) by (subst n; lia).
  pose proof (pow2_pos n Hn0) as HN.
  destruct (Z_le_gt_dec (ex + n) eg) as [Hhi|Hlo].
  - replace eg with ((ex + n) + (eg - (ex + n))) in Hle |- * by elia.
    rewrite <- (Zv_shift (Zpos mg) (ex + n) (eg - (ex + n))) in Hle |- * by elia.
    apply Zv_le_mono; [elia|].
    rewrite <- (Zv_shift _ ex n) in Hle by elia.
    apply Zv_le_cancel in Hle; [|exact Hex].
    pose proof (Z.div_mod (Zpos mx) (2 ^ n) ltac:(elia)) as Hdm.
    pose proof (Z.mod_pos_bound (Zpos mx) (2 ^ n) HN) as Hr.
    nia.
  - exfalso.
    assert (Hnz : n <> 0).
    { intros Hz. apply Hmod. rewrite Hz, Z.pow_0_r. apply Z.mod_1_r. }
    unfold canonical64 in Hcan.
    pose proof (Zv_pos_ge_pow mx ex Hex) as Hx.
    pose proof (Zv_pos_lt_pow mg eg ltac:(elia)) as Hg.
    set (dx := Zpos (digits2_pos mx)) in *.
    set (dg := Zpos (digits2_pos mg)) in *.
    assert (Hd : dg + eg < dx + ex) by (subst n; unfold fexp64 in *; lia).
    assert (Hp : 2 ^ (dg + eg + ebias) <= 2 ^ (dx - 1 + ex + ebias)).
    { apply pow2_le; elia. }
    lia.
Qed.

Lemma Zv_pos_gt0 m e : - ebias <= e -> 0 < Zv (Zpos m) e.
Proof. intros He. unfold Zv. pose proof (pow2_pos (e + ebias) ltac:(elia)). nia. Qed.

(** ** [binary_round_aux] and [binary_round] as roundings *)

Lemma binary_round_aux_lower s mx ex mg eg :
  - ebias <= ex -> canonical64 mg eg ->
  Zv (Zpos mg) eg <= Zv (Zpos mx) ex ->
  rounds_above (Zv (Zpos mg) eg) (binary_round_aux prec emax s (Zpos mx) ex loc_Exact) s.
Proof.
  intros Hex Hcan Hle.
  pose proof (floor_lower mx ex mg eg Hex Hcan Hle) as Hfl. cbn zeta in Hfl.
  destruct (binary_round_aux_struct s mx ex) as (m1 & Hrange & _ & Hres).
  set (n := Z.max 0 (fexp64 (Zpos (digits2_pos mx) + ex) - ex)) in *.
  assert (Hn0 : 0 <= n) by (subst n; lia).
  pose proof (canonical_emin _ _ Hcan) as Heg.
  pose proof (Zv_pos_gt0 mg eg ltac:(elia)) as Hgpos.
  assert (Hm1 : Zv (Zpos mg) eg <= Zv m1 (ex + n)).
  { etransitivity; [exact Hfl|]. apply Zv_le_mono; [elia|lia]. }
  destruct Hres as [[Hz _]|(m2 & k & Hk & Hm2 & Hres)].
  - exfalso. rewrite Hz in Hm1. unfold Zv in Hm1 at 2. lia.
  - destruct Hres as [[_ HR]|[_ HR]]; [right|left; exact HR].
    exists m2, (ex + n + k). split; [exact HR|].
    rewrite <- Zv_shift by elia. now rewrite Hm2.
Qed.

Lemma binary_round_aux_upper s mx ex mg eg :
  - ebias <= ex -> canonical64 mg eg ->
  Zv (Zpos mx) ex <= Zv (Zpos mg) eg ->
  Zv (Zpos mg) eg < 2 ^ (972 + ebias) ->
  rounds_below (Zv (Zpos mg) eg) (binary_round_aux prec emax s (Zpos mx) ex loc_Exact) s.
Proof.
  intros Hex Hcan Hle Hsmall.
  destruct (binary_round_aux_struct s mx ex) as (m1 & Hrange & Hexact & Hres).
  pose proof (ceil_upper mx ex mg eg Hex Hcan Hle) as Hceil. cbn zeta in Hceil.
  set (n := Z.max 0 (fexp64 (Zpos (digits2_pos mx) + ex) - ex)) in *.
  assert (Hn0 : 0 <= n) by (subst n; lia).
  pose proof (pow2_pos n Hn0) as HN.
  assert (Hm1 : Zv m1 (ex + n) <= Zv (Zpos mg) eg).
  { destruct (Z.eq_dec (Zpos mx mod 2 ^ n) 0) as [Hz|Hnz].
    - rewrite (Hexact Hz). rewrite <- Zv_shift by elia.
      pose proof (Z.div_mod (Zpos mx) (2 ^ n) ltac:(lia)) as Hdm.
      replace (Zpos mx / 2 ^ n * 2 ^ n) with (Zpos mx) by lia. exact Hle.
    - etransitivity; [|exact (Hceil Hnz)]. apply Zv_le_mono; [elia|lia]. }
  destruct Hres as [[_ HR]|(m2 & k & Hk & Hm2 & Hres)]; [left; exact HR|].
  assert (Hval : Zv (Zpos m2) (ex + n + k) = Zv m1 (ex + n)).
  { rewrite <- Zv_shift by elia. now rewrite Hm2. }
  destruct Hres as [[_ HR]|[Hbig _]].
  - right. exists m2, (ex + n + k). split; [exact HR|]. now rewrite Hval.
  - exfalso.
    assert (2 ^ (972 + ebias) <= Zv (Zpos m2) (ex + n + k)).
    { unfold Zv. assert (2 ^ (972 + ebias) <= 2 ^ (ex + n + k + ebias)) by (apply pow2_le; elia).
      nia. }
    lia.
Qed.

Lemma binary_round_aux_rounded s mx ex :
  - ebias <= ex ->
  mag_rounded (Zv (Zpos mx) ex) s (binary_round_aux prec emax s (Zpos mx) ex loc_Exact).
Proof.
  intros Hex; split; intros mg eg Hcan Hle.
  - now apply binary_round_aux_lower.
  - intros Hsmall. now apply binary_round_aux_upper.
Qed.

Lemma Pos_iter_xO m d : Zpos (Pos.iter xO m d) = Zpos m * 2 ^ Zpos d.
Proof.
  induction d as [|d IH] using Pos.peano_ind.
  - cbn [Pos.iter]. rewrite (Pos2Z.inj_xO m). change (2 ^ 1) with 2. lia.
  - rewrite Pos.iter_succ, (Pos2Z.inj_xO (Pos.iter xO m d)), IH, Pos2Z.inj_succ.
    rewrite Z.pow_succ_r by lia. ring.
Qed.

Lemma shl_align_fst mx ex ez :
  ez <= ex -> Zpos (fst (shl_align mx ex ez)) = Zpos mx * 2 ^ (ex - ez).
Proof.
  intros Hle. unfold shl_align.
  destruct (ez - ex) as [|d|d] eqn:E; try lia; cbn [fst].
  - replace (ex - ez) with 0 by lia. rewrite Z.pow_0_r. lia.
  - rewrite Pos_iter_xO. replace (ex - ez) with (Zpos d) by lia. reflexivity.
Qed.

Lemma shl_align_value mx ex ex' :
  - ebias <= ex -> - ebias <= ex' ->
  Zv (Zpos (fst (shl_align mx ex ex'))) (snd (shl_align mx ex ex')) = Zv (Zpos mx) ex /\
  - ebias <= snd (shl_align mx ex ex').
Proof.
  intros Hex Hex'. unfold shl_align.
  destruct (ex' - ex) as [|d|d] eqn:E; cbn [fst snd]; try (split; [reflexivity|assumption]).
  rewrite Pos_iter_xO. split; [|assumption].
  rewrite Zv_shift by (try elia). f_equal. lia.
Qed.

Lemma binary_round_rounded s mx ex :
  - ebias <= ex ->
  mag_rounded (Zv (Zpos mx) ex) s (binary_round prec emax s mx ex).
Proof.
  intros Hex. unfold binary_round. rewrite fexp_eq.
  pose proof (shl_align_value mx ex (fexp64 (Zpos (digits2_pos mx) + ex)) Hex
                ltac:(unfold fexp64; elia)) as [Hv He].
  destruct (shl_align mx ex (fexp64 (Zpos (digits2_pos mx) + ex))) as [mz ez].
  cbn [fst snd] in Hv, He. rewrite <- Hv. now apply binary_round_aux_rounded.
Qed.

(** ** Signed results *)

Lemma Fval_positive g v :
  valid_binary g = true -> Fval g = Some v -> 0 < v ->
  exists m e, canonical64 m e /\ v = Zv (Zpos m) e.
Proof.
  intros Hvalid Hv Hpos. destruct g as [s|s| |s m e]; cbn in Hv; try discriminate.
  - injection Hv as <-. lia.
  - injection Hv as <-. cbn in Hvalid. apply bounded_canonical in Hvalid as [Hcan _].
    pose proof (Zv_pos_gt0 m e ltac:(pose proof (canonical_emin _ _ Hcan); elia)).
    destruct s; cbn [cond_Zopp] in *; [lia|]. now exists m, e.
Qed.

Lemma Fval_negative g v :
  valid_binary g = true -> Fval g = Some v -> v < 0 ->
  exists m e, canonical64 m e /\ - v = Zv (Zpos m) e.
Proof.
  intros Hvalid Hv Hneg. destruct g as [s|s| |s m e]; cbn in Hv; try discriminate.
  - injection Hv as <-. lia.
  - injection Hv as <-. cbn in Hvalid. apply bounded_canonical in Hvalid as [Hcan _].
    pose proof (Zv_pos_gt0 m e ltac:(pose proof (canonical_emin _ _ Hcan); elia)).
    destruct s; cbn [cond_Zopp] in *; [|lia]. exists m, e. split; [assumption|lia].
Qed.

(** A rounded sign-magnitude result stays between any two representable bounds. *)
Lemma signed_sandwich X s R glo ghi lo hi :
  0 < X -> mag_rounded X s R ->
  valid_binary glo = true -> Fval glo = Some lo -> small lo ->
  valid_binary ghi = true -> Fval ghi = Some hi -> small hi ->
  lo <= cond_Zopp s X <= hi ->
  exists v, Fval R = Some v /\ lo <= v <= hi.
Proof.
  intros HX [Habove Hbelow] Hvlo Hlo Hslo Hvhi Hhi Hshi [Hl Hh].
  unfold small in *.
  assert (Hnn : forall m e, 0 <= Zv (Zpos m) e).
  { intros m e. unfold Zv. apply Z.mul_nonneg_nonneg; [lia|apply Z.pow_nonneg; lia]. }
  destruct s; cbn [cond_Zopp] in *.
  - (* negative result: the magnitude is bounded by - lo *)
    destruct (Fval_negative glo lo Hvlo Hlo ltac:(lia)) as (ml & el & Hcl & Hel).
    pose proof (Hbelow ml el Hcl ltac:(lia) ltac:(lia)) as Hb.
    destruct (Z_lt_le_dec hi 0) as [Hneg|Hnneg].
    + destruct (Fval_negative ghi hi Hvhi Hhi Hneg) as (mh & eh & Hch & Heh).
      destruct (Habove mh eh Hch ltac:(lia)) as [Hinf|(m' & e' & Heq & Hge)];
        destruct Hb as [Hz|(m & e & Hfin & Hle)]; try congruence.
      rewrite Hfin in Heq |- *. injection Heq as <- <-.
      exists (- Zv (Zpos m) e). cbn. split; [reflexivity|lia].
    + destruct Hb as [->|(m & e & -> & Hle)].
      * exists 0. cbn. split; [reflexivity|lia].
      * exists (- Zv (Zpos m) e). cbn. split; [reflexivity|]. pose proof (Hnn m e). lia.
  - destruct (Fval_positive ghi hi Hvhi Hhi ltac:(lia)) as (mh & eh & Hch & Heh).
    pose proof (Hbelow mh eh Hch ltac:(lia) ltac:(lia)) as Hb.
    destruct (Z_lt_le_dec 0 lo) as [Hpos|Hnpos].
    + destruct (Fval_positive glo lo Hvlo Hlo Hpos) as (ml & el & Hcl & Hel).
      destruct (Habove ml el Hcl ltac:(lia)) as [Hinf|(m' & e' & Heq & Hge)];
        destruct Hb as [Hz|(m & e & Hfin & Hle)]; try congruence.
      rewrite Hfin in Heq |- *. injection Heq as <- <-.
      exists (Zv (Zpos m) e). cbn. split; [reflexivity|lia].
    + destruct Hb as [->|(m & e & -> & Hle)].
      * exists 0. cbn. split; [reflexivity|lia].
      * exists (Zv (Zpos m) e). cbn. split; [reflexivity|]. pose proof (Hnn m e). lia.
Qed.

(** ** Addition, subtraction and multiplication *)

Lemma cond_Zopp_mul sx sy a b :
  cond_Zopp sx a * cond_Zopp sy b = cond_Zopp (xorb sx sy) (a * b).
Proof. destruct sx, sy; cbn; lia. Qed.

Lemma Zv_cond_Zopp s m e : Zv (cond_Zopp s m) e = cond_Zopp s (Zv m e).
Proof. destruct s; unfold Zv; cbn; lia. Qed.

Lemma Zv_add a b e : Zv (a + b) e = Zv a e + Zv b e.
Proof. unfold Zv; lia. Qed.

Lemma Zv_sub a b e : Zv (a - b) e = Zv a e - Zv b e.
Proof. unfold Zv; lia. Qed.

Lemma Zv_mul m1 e1 m2 e2 :
  - ebias <= e1 + e2 -> - ebias <= e1 -> - ebias <= e2 ->
  Zv m1 e1 * Zv m2 e2 = Zv (m1 * m2) (e1 + e2) * 2 ^ ebias.
Proof.
  intros H12 H1 H2. unfold Zv.
  replace (e1 + e2 + ebias) with ((e1 + ebias) + e2) by lia.
  assert (H : 2 ^ (e1 + ebias) * 2 ^ (e2 + ebias) = 2 ^ (e1 + ebias + e2) * 2 ^ ebias).
  { rewrite <- !Z.pow_add_r by elia. f_equal. lia. }
  transitivity (m1 * m2 * (2 ^ (e1 + ebias) * 2 ^ (e2 + ebias))); [ring|].
  rewrite H. ring.
Qed.

Lemma finite_valid_emin s m e :
  valid_binary (S754_finite s m e) = true -> -1074 <= e <= 971.
Proof.
  cbn. intros H. apply bounded_canonical in H as [Hc He].
  pose proof (canonical_emin _ _ Hc). lia.
Qed.

(** The result of an operation lies between any two floats [glo] and [ghi]
    that bound its exact value (both far from overflow). *)
Section Sandwich.
Variables (glo ghi : spec_float) (lo hi : Z).
Hypothesis Hvlo : valid_binary glo = true.
Hypothesis Hlo : Fval glo = Some lo.
Hypothesis Hslo : small lo.
Hypothesis Hvhi : valid_binary ghi = true.
Hypothesis Hhi : Fval ghi = Some hi.
Hypothesis Hshi : small hi.

Lemma binary_normalize_sandwich m e sz :
  - ebias <= e -> lo <= Zv m e <= hi ->
  exists v, Fval (binary_normalize prec emax m e sz) = Some v /\ lo <= v <= hi.
Proof using All.
  intros He Hb. destruct m as [|p|p]; cbn [binary_normalize].
  - exists 0. split; [reflexivity|]. unfold Zv in Hb. lia.
  - apply (signed_sandwich (Zv (Zpos p) e) false _ glo ghi); auto.
    + now apply Zv_pos_gt0.
    + now apply binary_round_rounded.
  - apply (signed_sandwich (Zv (Zpos p) e) true _ glo ghi); auto.
    + now apply Zv_pos_gt0.
    + now apply binary_round_rounded.
    + cbn [cond_Zopp]. replace (- Zv (Zpos p) e) with (Zv (Zneg p) e) by (unfold Zv; lia).
      exact Hb.
Qed.

Lemma aligned_value s m e ez :
  ez <= e -> - ebias <= ez ->
  Zv (cond_Zopp s (Zpos (fst (shl_align m e ez)))) ez = cond_Zopp s (Zv (Zpos m) e).
Proof using Type.
  intros Hle Hez. rewrite shl_align_fst by assumption.
  rewrite Zv_cond_Zopp. f_equal.
  rewrite Zv_shift by (try elia). f_equal. lia.
Qed.

Lemma SFadd_sandwich f1 f2 v1 v2 :
  valid_binary f1 = true -> valid_binary f2 = true ->
  Fval f1 = Some v1 -> Fval f2 = Some v2 ->
  lo <= v1 + v2 <= hi ->
  exists v, Fval (SFadd prec emax f1 f2) = Some v /\ lo <= v <= hi.
Proof using All.
  intros Hf1 Hf2 H1 H2 Hb.
  destruct f1 as [s1|s1| |s1 m1 e1], f2 as [s2|s2| |s2 m2 e2];
    cbn [Fval] in H1, H2; try discriminate;
    injection H1 as <-; injection H2 as <-.
  - exists 0. split; [destruct s1, s2; reflexivity|lia].
  - cbn [SFadd]. eexists; split; [reflexivity|lia].
  - cbn [SFadd]. eexists; split; [reflexivity|lia].
  - cbn [SFadd].
    pose proof (finite_valid_emin _ _ _ Hf1). pose proof (finite_valid_emin _ _ _ Hf2).
    apply binary_normalize_sandwich; [elia|].
    rewrite Zv_add, !aligned_value by elia. exact Hb.
Qed.

Lemma SFsub_sandwich f1 f2 v1 v2 :
  valid_binary f1 = true -> valid_binary f2 = true ->
  Fval f1 = Some v1 -> Fval f2 = Some v2 ->
  lo <= v1 - v2 <= hi ->
  exists v, Fval (SFsub prec emax f1 f2) = Some v /\ lo <= v <= hi.
Proof using All.
  intros Hf1 Hf2 H1 H2 Hb.
  destruct f1 as [s1|s1| |s1 m1 e1], f2 as [s2|s2| |s2 m2 e2];
    cbn [Fval] in H1, H2; try discriminate;
    injection H1 as <-; injection H2 as <-.
  - exists 0. split; [destruct s1, s2; reflexivity|lia].
  - cbn [SFsub Fval]. eexists; split; [reflexivity|].
    destruct s2; cbn [negb cond_Zopp] in *; lia.
  - cbn [SFsub]. eexists; split; [reflexivity|lia].
  - cbn [SFsub].
    pose proof (finite_valid_emin _ _ _ Hf1). pose proof (finite_valid_emin _ _ _ Hf2).
    apply binary_normalize_sandwich; [elia|].
    rewrite Zv_sub, !aligned_value by elia. exact Hb.
Qed.

Lemma SFmul_sandwich f1 f2 v1 v2 :
  valid_binary f1 = true -> valid_binary f2 = true ->
  Fval f1 = Some v1 -> Fval f2 = Some v2 ->
  lo * 2 ^ ebias <= v1 * v2 <= hi * 2 ^ ebias ->
  exists v, Fval (SFmul prec emax f1 f2) = Some v /\ lo <= v <= hi.
Proof using All.
  intros Hf1 Hf2 H1 H2 Hb.
  pose proof (pow2_pos ebias ltac:(elia)) as HB.
  destruct f1 as [s1|s1| |s1 m1 e1], f2 as [s2|s2| |s2 m2 e2];
    cbn [Fval] in H1, H2; try discriminate;
    injection H1 as <-; injection H2 as <-;
    try (exists 0; split; [reflexivity|nia]).
  cbn [SFmul].
  pose proof (finite_valid_emin _ _ _ Hf1). pose proof (finite_valid_emin _ _ _ Hf2).
  rewrite cond_Zopp_mul, Zv_mul in Hb by elia.
  rewrite Pos2Z.inj_mul.
  apply (signed_sandwich (Zv (Zpos m1 * Zpos m2) (e1 + e2)) (xorb s1 s2) _ glo ghi); auto.
  - rewrite <- Pos2Z.inj_mul. apply Zv_pos_gt0. elia.
  - rewrite <- Pos2Z.inj_mul. apply binary_round_aux_rounded. elia.
  - destruct (xorb s1 s2); cbn [cond_Zopp] in *; nia.
Qed.
End Sandwich.

(** ** The order of finite floats is the order of their values *)

Lemma canonical_digits m e : canonical64 m e -> Zpos (digits2_pos m) <= 53.
Proof. unfold canonical64, fexp64. lia. Qed.

Lemma canonical_exp_lt m1 e1 m2 e2 :
  canonical64 m1 e1 -> canonical64 m2 e2 -> e1 < e2 ->
  Zv (Zpos m1) e1 < Zv (Zpos m2) e2.
Proof.
  intros H1 H2 Hlt.
  pose proof (canonical_emin _ _ H1). pose proof (canonical_emin _ _ H2).
  pose proof (Zv_pos_lt_pow m1 e1 ltac:(elia)) as Hu.
  pose proof (Zv_pos_ge_pow m2 e2 ltac:(elia)) as Hl.
  unfold canonical64, fexp64 in H1, H2.
  assert (2 ^ (Zpos (digits2_pos m1) + e1 + ebias)
          <= 2 ^ (Zpos (digits2_pos m2) - 1 + e2 + ebias)) by (apply pow2_le; elia).
  lia.
Qed.

Lemma Zv_compare_same_exp m1 m2 e :
  - ebias <= e -> (Zv (Zpos m1) e ?= Zv (Zpos m2) e) = Pos.compare_cont Eq m1 m2.
Proof.
  intros He. change (Pos.compare_cont Eq m1 m2) with (Zpos m1 ?= Zpos m2).
  unfold Zv. pose proof (pow2_pos (e + ebias) ltac:(elia)) as HP.
  destruct (Z.compare_spec (Zpos m1) (Zpos m2)) as [Heq|Hlt|Hgt].
  - rewrite Heq. apply Z.compare_refl.
  - apply Z.compare_lt_iff. nia.
  - apply Z.compare_gt_iff. nia.
Qed.

Lemma SFcompare_Fval f g vf vg :
  valid_binary f = true -> valid_binary g = true ->
  Fval f = Some vf -> Fval g = Some vg ->
  SFcompare f g = Some (vf ?= vg).
Proof.
  intros Hf Hg Hvf Hvg.
  destruct f as [s1|s1| |s1 m1 e1], g as [s2|s2| |s2 m2 e2];
    cbn [Fval] in Hvf, Hvg; try discriminate;
    injection Hvf as <-; injection Hvg as <-; cbn [SFcompare].
  - reflexivity.
  - cbn in Hg. apply bounded_canonical in Hg as [Hc _].
    pose proof (Zv_pos_gt0 m2 e2 ltac:(pose proof (canonical_emin _ _ Hc); elia)).
    f_equal. symmetry. destruct s2; cbn [cond_Zopp]; [apply Z.compare_gt_iff|apply Z.compare_lt_iff]; lia.
  - cbn in Hf. apply bounded_canonical in Hf as [Hc _].
    pose proof (Zv_pos_gt0 m1 e1 ltac:(pose proof (canonical_emin _ _ Hc); elia)).
    f_equal. symmetry. destruct s1; cbn [cond_Zopp]; [apply Z.compare_lt_iff|apply Z.compare_gt_iff]; lia.
  - cbn in Hf, Hg. apply bounded_canonical in Hf as [Hc1 _]. apply bounded_canonical in Hg as [Hc2 _].
    pose proof (canonical_emin _ _ Hc1) as He1. pose proof (canonical_emin _ _ Hc2) as He2.
    pose proof (Zv_pos_gt0 m1 e1 ltac:(elia)) as Hp1.
    pose proof (Zv_pos_gt0 m2 e2 ltac:(elia)) as Hp2.
    f_equal. symmetry.
    destruct s1, s2; cbn [cond_Zopp].
    + destruct (Z.compare_spec e1 e2) as [Heq|Hlt|Hgt].
      * subst e2. rewrite Z.compare_opp, Zv_compare_same_exp by elia.
        rewrite Pos.compare_cont_antisym. reflexivity.
      * pose proof (canonical_exp_lt _ _ _ _ Hc1 Hc2 Hlt). apply Z.compare_gt_iff. lia.
      * pose proof (canonical_exp_lt _ _ _ _ Hc2 Hc1 Hgt). apply Z.compare_lt_iff. lia.
    + apply Z.compare_lt_iff. lia.
    + apply Z.compare_gt_iff. lia.
    + destruct (Z.compare_spec e1 e2) as [Heq|Hlt|Hgt].
      * subst e2. apply Zv_compare_same_exp. elia.
      * pose proof (canonical_exp_lt _ _ _ _ Hc1 Hc2 Hlt). apply Z.compare_lt_iff. lia.
      * pose proof (canonical_exp_lt _ _ _ _ Hc2 Hc1 Hgt). apply Z.compare_gt_iff. lia.
Qed.

Lemma SFleb_Fval f g vf vg :
  valid_binary f = true -> valid_binary g = true ->
  Fval f = Some vf -> Fval g = Some vg ->
  SFleb f g = (vf <=? vg).
Proof.
  intros. unfold SFleb. rewrite (SFcompare_Fval f g vf vg) by assumption.
  unfold Z.leb. destruct (vf ?= vg); reflexivity.
Qed.

Lemma SFltb_Fval f g vf vg :
  valid_binary f = true -> valid_binary g = true ->
  Fval f = Some vf -> Fval g = Some vg ->
  SFltb f g = (vf <? vg).
Proof.
  intros. unfold SFltb. rewrite (SFcompare_Fval f g vf vg) by assumption.
  unfold Z.ltb. destruct (vf ?= vg); reflexivity.
Qed.

Lemma SFeqb_Fval f g vf vg :
  valid_binary f = true -> valid_binary g = true ->
  Fval f = Some vf -> Fval g = Some vg ->
  SFeqb f g = (vf =? vg).
Proof.
  intros. unfold SFeqb. rewrite (SFcompare_Fval f g vf vg) by assumption.
  destruct (Z.compare_spec vf vg) as [->|Hlt|Hgt].
  - symmetry. apply Z.eqb_refl.
  - symmetry. apply Z.eqb_neq. lia.
  - symmetry. apply Z.eqb_neq. lia.
Qed.

(** A number between two finite floats is finite. *)
Lemma SFleb_bounds_finite lo f hi vlo vhi :
  valid_binary lo = true -> valid_binary f = true -> valid_binary hi = true ->
  Fval lo = Some vlo -> Fval hi = Some vhi ->
  SFleb lo f = true -> SFleb f hi = true ->
  exists v, Fval f = Some v /\ vlo <= v <= vhi.
Proof.
  intros Hlo Hf Hhi Hvlo Hvhi H1 H2.
  destruct (Fval f) as [v|] eqn:Hv.
  - exists v. split; [reflexivity|].
    rewrite (SFleb_Fval lo f vlo v) in H1 by assumption.
    rewrite (SFleb_Fval f hi v vhi) in H2 by assumption.
    apply Z.leb_le in H1, H2. lia.
  - exfalso.
    destruct lo as [sl|sl| |sl ml el], hi as [sh|sh| |sh mh eh]; cbn in Hvlo, Hvhi;
      try discriminate;
      destruct f as [[|]|[|]| |s m e]; cbn in Hv, H1, H2; discriminate.
Qed.

(** ** Particular floats *)

(** Every float is a multiple of the smallest subnormal. *)
Lemma Fval_multiple f v :
  valid_binary f = true -> Fval f = Some v -> exists k, v = k * 2 ^ (ebias - 1074).
Proof.
  intros Hf Hv. destruct f as [s|s| |s m e]; cbn in Hv; try discriminate; injection Hv as <-.
  - exists 0. lia.
  - pose proof (finite_valid_emin _ _ _ Hf) as He.
    exists (cond_Zopp s (Zpos m * 2 ^ (e + 1074))).
    unfold Zv. replace (e + ebias) with ((e + 1074) + (ebias - 1074)) by lia.
    rewrite pow2_split by elia. destruct s; cbn [cond_Zopp]; ring.
Qed.

Lemma digits2_unique m d :
  2 ^ (d - 1) <= Zpos m < 2 ^ d -> Zpos (digits2_pos m) = d.
Proof.
  intros [Hl Hu]. pose proof (digits2_bounds m) as [Hl' Hu'].
  assert (0 < d).
  { destruct (Z_lt_le_dec 0 d); [assumption|].
    assert (2 ^ d <= 2 ^ 0) by (destruct (Z_lt_le_dec d 0);
      [rewrite Z.pow_neg_r by assumption; cbn; lia|apply pow2_le; lia]).
    cbn in *; lia. }
  assert (d - 1 < Zpos (digits2_pos m)) by (apply pow2_lt_inv; lia).
  assert (Zpos (digits2_pos m) - 1 < d) by (apply pow2_lt_inv; lia).
  lia.
Qed.

(** Every power of two in the binary64 range is a float. *)
Lemma pow2_representable j :
  -1074 <= j <= 1023 ->
  exists g, valid_binary g = true /\ Fval g = Some (2 ^ (j + ebias)) /\
            valid_binary (SFopp g) = true /\ Fval (SFopp g) = Some (- 2 ^ (j + ebias)).
Proof.
  intros Hj. set (k := Z.min 52 (j + 1074)).
  assert (Hk : 0 <= k <= 52) by (subst k; lia).
  pose proof (pow2_pos k ltac:(lia)) as Hpk.
  exists (S754_finite false (Z.to_pos (2 ^ k)) (j - k)).
  assert (Hm : Zpos (Z.to_pos (2 ^ k)) = 2 ^ k) by (apply Z2Pos.id; assumption).
  assert (Hd : Zpos (digits2_pos (Z.to_pos (2 ^ k))) = k + 1).
  { apply digits2_unique. rewrite Hm. replace (k + 1 - 1) with k by lia.
    split; [lia|apply pow2_lt; lia]. }
  assert (Hb : bounded prec emax (Z.to_pos (2 ^ k)) (j - k) = true).
  { unfold bounded, canonical_mantissa. rewrite fexp_eq, Hd.
    change (emax - prec) with 971. apply andb_true_intro; split.
    - apply Z.eqb_eq. subst k. unfold fexp64. lia.
    - apply Z.leb_le. subst k. lia. }
  assert (Hv : Zv (Zpos (Z.to_pos (2 ^ k))) (j - k) = 2 ^ (j + ebias)).
  { unfold Zv. rewrite Hm, <- pow2_split by elia. f_equal. lia. }
  cbn [valid_binary SFopp Fval negb cond_Zopp]. rewrite Hv. auto.
Qed.

(** Floats below one are at least one ulp below it. *)
Lemma Fval_below_one f v :
  valid_binary f = true -> Fval f = Some v -> v < 2 ^ ebias ->
  v <= 2 ^ ebias - 2 ^ (ebias - 53).
Proof.
  intros Hf Hv Hlt.
  assert (Hgap : 0 <= 2 ^ ebias - 2 ^ (ebias - 53)).
  { assert (2 ^ (ebias - 53) <= 2 ^ ebias) by (apply pow2_le; elia). lia. }
  destruct f as [s|s| |s m e]; cbn in Hv; try discriminate; injection Hv as <-; [lia|].
  pose proof (finite_valid_emin _ _ _ Hf) as He.
  cbn in Hf. apply bounded_canonical in Hf as [Hc _].
  pose proof (Zv_pos_gt0 m e ltac:(elia)) as Hpos.
  destruct s; cbn [cond_Zopp] in *; [lia|].
  pose proof (digits2_bounds m) as [Hdl Hdu].
  pose proof (canonical_digits _ _ Hc) as Hd53.
  assert (Hm : Zpos m <= 2 ^ 53 - 1).
  { assert (2 ^ Zpos (digits2_pos m) <= 2 ^ 53) by (apply pow2_le; lia). lia. }
  assert (He53 : e <= -53).
  { destruct (Z_le_gt_dec e (-53)); [assumption|exfalso].
    pose proof (Zv_pos_ge_pow m e ltac:(elia)) as Hge.
    assert (2 ^ ebias <= 2 ^ (Zpos (digits2_pos m) - 1 + e + ebias)).
    { apply pow2_le; [|elia]. unfold canonical64, fexp64 in Hc. lia. }
    lia. }
  unfold Zv in *.
  assert (Hpe : 2 ^ (e + ebias) <= 2 ^ (ebias - 53)) by (apply pow2_le; elia).
  assert (Hsplit : 2 ^ ebias = 2 ^ 53 * 2 ^ (ebias - 53)).
  { rewrite <- pow2_split by elia. reflexivity. }
  pose proof (pow2_pos (e + ebias) ltac:(elia)).
  pose proof (pow2_pos 53 ltac:(lia)).
  nia.
Qed.

(* ================================================================== *)
(** * Part IV: comparing and bounding primitive floats                 *)
(* ================================================================== *)

(** ** Comparisons of primitive floats *)

Lemma ltb_cmp x y :
  (x <? y)%float = match float_cmp x y with Some Lt => true | _ => false end.
Proof. rewrite ltb_spec. reflexivity. Qed.

Lemma leb_cmp x y :
  (x <=? y)%float = match float_cmp x y with Some (Lt | Eq) => true | _ => false end.
Proof. rewrite leb_spec. reflexivity. Qed.

Lemma eqb_cmp x y :
  (x =? y)%float = match float_cmp x y with Some Eq => true | _ => false end.
Proof. rewrite eqb_spec. reflexivity. Qed.

Lemma SFcompare_antisym f g : SFcompare g f = option_map CompOpp (SFcompare f g).
Proof.
  destruct f as [[|]|[|]| |[|] m e], g as [[|]|[|]| |[|] m' e']; cbn; try reflexivity.
  - rewrite (Z.compare_antisym e e'). destruct (e ?= e'); cbn; try reflexivity.
    rewrite (Pos.compare_cont_antisym m m' Eq). reflexivity.
  - rewrite (Z.compare_antisym e e'). destruct (e ?= e'); cbn; try reflexivity.
    rewrite (Pos.compare_cont_antisym m m' Eq). reflexivity.
Qed.

Lemma float_cmp_antisym x y : float_cmp y x = option_map CompOpp (float_cmp x y).
Proof. apply SFcompare_antisym. Qed.

Lemma SFcompare_refl f : f <> S754_nan -> SFcompare f f = Some Eq.
Proof.
  destruct f as [[|]|[|]| |[|] m e]; cbn; try reflexivity; try congruence; intros _.
  - rewrite Z.compare_refl. now rewrite Pos.compare_cont_refl.
  - rewrite Z.compare_refl. now rewrite Pos.compare_cont_refl.
Qed.

Lemma is_nan_spec x : is_nan x = true <-> Prim2SF x = S754_nan.
Proof.
  unfold is_nan. rewrite eqb_spec. unfold SFeqb. split.
  - intros H. destruct (Prim2SF x) eqn:E; try reflexivity;
      rewrite SFcompare_refl in H by congruence; discriminate.
  - intros ->. reflexivity.
Qed.

Lemma is_nan_false x : is_nan x = false <-> Prim2SF x <> S754_nan.
Proof.
  rewrite <- is_nan_spec. destruct (is_nan x); split; congruence.
Qed.

Lemma is_nan_nan x : is_nan x = true -> x = nan.
Proof.
  intros H. apply is_nan_spec in H. apply Prim2SF_inj. rewrite H. reflexivity.
Qed.

Lemma float_cmp_None x y :
  float_cmp x y = None <-> is_nan x = true \/ is_nan y = true.
Proof.
  rewrite !is_nan_spec. unfold float_cmp.
  destruct (Prim2SF x) as [[|]|[|]| |[|] m e], (Prim2SF y) as [[|]|[|]| |[|] m' e'];
    cbn; split; intros H; try discriminate; try reflexivity; auto;
    destruct H; discriminate.
Qed.

(** Where a number stands with respect to 0 and 1. *)
Lemma cmp_zero_one x :
  match float_cmp x 0%float, float_cmp x 1%float with
  | Some Lt, Some Lt | Some Eq, Some Lt | Some Gt, Some _ | None, None => True
  | _, _ => False
  end.
Proof.
  unfold float_cmp.
  change (Prim2SF 0%float) with (S754_zero false).
  change (Prim2SF 1%float) with (S754_finite false 4503599627370496 (-52)).
  destruct (Prim2SF x) as [[|]|[|]| |[|] m e]; cbn; trivial.
Qed.

Lemma float_cmp_zero_eq x : float_cmp x 0%float = Some Eq -> x = 0%float \/ x = neg_zero.
Proof.
  unfold float_cmp. change (Prim2SF 0%float) with (S754_zero false).
  intros H. rewrite <- (SF2Prim_Prim2SF x).
  destruct (Prim2SF x) as [[|]|[|]| |[|] m e]; cbn in H; try discriminate; auto.
Qed.

Lemma float_cmp_one_eq x : float_cmp x 1%float = Some Eq -> x = 1%float.
Proof.
  unfold float_cmp. change (Prim2SF 1%float) with (S754_finite false 4503599627370496 (-52)).
  intros H. apply Prim2SF_inj.
  change (Prim2SF 1%float) with (S754_finite false 4503599627370496 (-52)).
  destruct (Prim2SF x) as [[|]|[|]| |[|] m e]; cbn [SFcompare] in H; try discriminate H.
  destruct (Z.compare_spec e (-52)) as [Heq|Hlt|Hgt]; try discriminate H.
  destruct (Pos.compare_cont Eq m 4503599627370496) eqn:Hm; try discriminate H.
  apply Pos.compare_eq in Hm. rewrite Heq, Hm. reflexivity.
Qed.

(** ** [Math.min(1, Math.max(0, energy))] *)

Lemma Math_max_zero x :
  Math_max [0%float; x] =
  if is_nan x then nan else if (0 <? x)%float then x else 0%float.
Proof.
  unfold Math_max. cbn [existsb fold_left].
  change (is_nan 0) with false. rewrite orb_false_r. cbn [orb].
  destruct (is_nan x); [reflexivity|].
  change (is_pos_zero 0 && is_neg_zero neg_infinity || (neg_infinity <? 0)%float) with true.
  cbv iota. change (is_neg_zero 0) with false. rewrite andb_false_r. reflexivity.
Qed.

Lemma Math_min_one y :
  Math_min [1%float; y] =
  if is_nan y then nan else if (y <? 1)%float then y else 1%float.
Proof.
  unfold Math_min. cbn [existsb fold_left].
  change (is_nan 1) with false. rewrite orb_false_r. cbn [orb].
  destruct (is_nan y); [reflexivity|].
  change (is_neg_zero 1 && is_pos_zero infinity || (1 <? infinity)%float) with true.
  cbv iota. change (is_pos_zero 1) with false. rewrite andb_false_r. reflexivity.
Qed.

Lemma stored_energy_cases x :
  Math_min [1%float; Math_max [0%float; x]] =
  if is_nan x then nan
  else if (0 <? x)%float then (if (x <? 1)%float then x else 1%float)
  else 0%float.
Proof.
  rewrite Math_min_one, Math_max_zero.
  destruct (is_nan x) eqn:Hnan; [reflexivity|].
  destruct (0 <? x)%float; [rewrite Hnan; reflexivity|reflexivity].
Qed.

(** ** Case analysis against 0 and 1 *)

Lemma is_nan_cmp_zero x :
  is_nan x = match float_cmp x 0%float with None => true | Some _ => false end.
Proof.
  destruct (float_cmp x 0%float) eqn:E, (is_nan x) eqn:N; try reflexivity; exfalso.
  - assert (float_cmp x 0%float = None) by (apply float_cmp_None; now left). congruence.
  - apply float_cmp_None in E as [E|E]; [congruence|discriminate E].
Qed.

Lemma float_cmp_refl x : is_nan x = false -> float_cmp x x = Some Eq.
Proof. intros H. apply SFcompare_refl. now apply is_nan_false. Qed.

Lemma eqb_refl_float x : is_nan x = false -> (x =? x)%float = true.
Proof. intros H. rewrite eqb_cmp, float_cmp_refl; auto. Qed.

(** All comparisons of [x] with 0 and 1, read off two three-way comparisons. *)
Ltac by_cmp_zero_one x :=
  let H0 := fresh "H0" in let H1 := fresh "H1" in
  pose proof (cmp_zero_one x) as Hcmp;
  pose proof (float_cmp_zero_eq x) as Hzero;
  pose proof (float_cmp_one_eq x) as Hone;
  pose proof (eqb_refl_float x) as Hrefl;
  rewrite ?is_nan_cmp_zero, ?ltb_cmp, ?leb_cmp in *;
  rewrite ?(float_cmp_antisym x 0%float), ?(float_cmp_antisym x 1%float) in *;
  destruct (float_cmp x 0%float) as [[| |]|] eqn:H0;
  destruct (float_cmp x 1%float) as [[| |]|] eqn:H1;
  cbn [option_map CompOpp] in *; try contradiction.

(** ** Values of primitive floats *)

Lemma leb_FV x y vx vy :
  FV x = Some vx -> FV y = Some vy -> (x <=? y)%float = (vx <=? vy).
Proof.
  intros Hx Hy. rewrite leb_spec. apply SFleb_Fval; auto using Prim2SF_valid.
Qed.

Lemma ltb_FV x y vx vy :
  FV x = Some vx -> FV y = Some vy -> (x <? y)%float = (vx <? vy).
Proof.
  intros Hx Hy. rewrite ltb_spec. apply SFltb_Fval; auto using Prim2SF_valid.
Qed.

Lemma between_FV lo x hi vlo vhi :
  FV lo = Some vlo -> FV hi = Some vhi -> between lo x hi = true ->
  exists v, FV x = Some v /\ vlo <= v <= vhi.
Proof.
  intros Hlo Hhi H. unfold between in H. apply andb_prop in H as [H1 H2].
  rewrite leb_spec in H1, H2.
  apply (SFleb_bounds_finite (Prim2SF lo) (Prim2SF x) (Prim2SF hi));
    auto using Prim2SF_valid.
Qed.

Lemma FV_between lo x hi vlo v vhi :
  FV lo = Some vlo -> FV x = Some v -> FV hi = Some vhi ->
  vlo <= v <= vhi -> between lo x hi = true.
Proof.
  intros Hlo Hx Hhi Hb. unfold between.
  rewrite (leb_FV lo x vlo v), (leb_FV x hi v vhi) by assumption.
  apply andb_true_intro; split; apply Z.leb_le; lia.
Qed.

Lemma add_FV x y lo hi vx vy vlo vhi :
  FV x = Some vx -> FV y = Some vy ->
  FV lo = Some vlo -> small vlo -> FV hi = Some vhi -> small vhi ->
  vlo <= vx + vy <= vhi ->
  exists v, FV (x + y)%float = Some v /\ vlo <= v <= vhi.
Proof.
  intros Hx Hy Hlo Hslo Hhi Hshi Hb. unfold FV. rewrite add_spec.
  apply (SFadd_sandwich (Prim2SF lo) (Prim2SF hi) vlo vhi) with (v1 := vx) (v2 := vy);
    auto using Prim2SF_valid.
Qed.

Lemma sub_FV x y lo hi vx vy vlo vhi :
  FV x = Some vx -> FV y = Some vy ->
  FV lo = Some vlo -> small vlo -> FV hi = Some vhi -> small vhi ->
  vlo <= vx - vy <= vhi ->
  exists v, FV (x - y)%float = Some v /\ vlo <= v <= vhi.
Proof.
  intros Hx Hy Hlo Hslo Hhi Hshi Hb. unfold FV. rewrite sub_spec.
  apply (SFsub_sandwich (Prim2SF lo) (Prim2SF hi) vlo vhi) with (v1 := vx) (v2 := vy);
    auto using Prim2SF_valid.
Qed.

Lemma mul_FV x y lo hi vx vy vlo vhi :
  FV x = Some vx -> FV y = Some vy ->
  FV lo = Some vlo -> small vlo -> FV hi = Some vhi -> small vhi ->
  vlo * 2 ^ ebias <= vx * vy <= vhi * 2 ^ ebias ->
  exists v, FV (x * y)%float = Some v /\ vlo <= v <= vhi.
Proof.
  intros Hx Hy Hlo Hslo Hhi Hshi Hb. unfold FV. rewrite mul_spec.
  apply (SFmul_sandwich (Prim2SF lo) (Prim2SF hi) vlo vhi) with (v1 := vx) (v2 := vy);
    auto using Prim2SF_valid.
Qed.

Lemma FV_multiple x v : FV x = Some v -> exists k, v = k * 2 ^ (ebias - 1074).
Proof. apply Fval_multiple, Prim2SF_valid. Qed.

Lemma pow2_float j :
  -1074 <= j <= 1023 ->
  exists p, FV p = Some (2 ^ (j + ebias)) /\ FV (- p)%float = Some (- 2 ^ (j + ebias)).
Proof.
  intros Hj. destruct (pow2_representable j Hj) as (g & Hg & Hv & Hg' & Hv').
  exists (SF2Prim g). unfold FV. rewrite opp_spec, Prim2SF_SF2Prim by assumption. auto.
Qed.

Lemma small_le v j : Z.abs v <= 2 ^ j -> 0 <= j < 972 + ebias -> small v.
Proof.
  intros Hv Hj. unfold small.
  assert (2 ^ j < 2 ^ (972 + ebias)) by (apply pow2_lt; lia). lia.
Qed.

Lemma FV_zero : FV 0%float = Some 0.
Proof. reflexivity. Qed.

Lemma FV_one : FV 1%float = Some (2 ^ ebias).
Proof. vm_compute. reflexivity. Qed.

Lemma FV_minus_one : FV (-1)%float = Some (- 2 ^ ebias).
Proof. vm_compute. reflexivity. Qed.

(** The smoothing rate 0.12 is a float between 0 and 1/2. *)
Lemma FV_rate : exists vc, FV 0.12%float = Some vc /\ 0 <= vc /\ 2 * vc <= 2 ^ ebias.
Proof.
  eexists. split; [vm_compute; reflexivity|].
  split; vm_compute; discriminate.
Qed.

(** ** One smoothing step *)

(** A positive difference of two numbers of [[0, 1]] lies in a binade
    whose ends are floats. *)
Lemma log2_bracket x :
  0 < x <= 2 ^ ebias -> (exists k, x = k * 2 ^ (ebias - 1074)) ->
  exists l, ebias - 1074 <= l <= ebias /\ 2 ^ l <= x < 2 ^ (l + 1).
Proof.
  intros [Hpos Hle] [k Hk].
  pose proof (pow2_pos (ebias - 1074) ltac:(elia)) as Hu.
  assert (Hx : 2 ^ (ebias - 1074) <= x).
  { subst x. assert (0 < k) by (destruct (Z_lt_le_dec 0 k); [assumption|nia]). nia. }
  pose proof (Z.log2_spec x Hpos) as [Hl Hr].
  pose proof (Z.log2_nonneg x) as Hl0.
  exists (Z.log2 x). replace (Z.log2 x + 1) with (Z.succ (Z.log2 x)) by lia.
  split; [|split; assumption]. split.
  - assert (ebias - 1074 < Z.succ (Z.log2 x)); [|lia].
    apply pow2_lt_inv; lia.
  - apply pow2_le_inv; [lia|elia].
Qed.

Lemma scaled_difference s t vs vt :
  FV s = Some vs -> FV t = Some vt ->
  0 <= vs <= 2 ^ ebias -> 0 <= vt <= 2 ^ ebias ->
  exists vm, FV ((t - s) * 0.12)%float = Some vm /\
             (vs <= vt -> 0 <= vm <= vt - vs) /\
             (vt <= vs -> vt - vs <= vm <= 0).
Proof.
  intros Hs Ht Hvs Hvt.
  destruct FV_rate as (vc & Hc & Hc0 & Hc2).
  pose proof (pow2_pos ebias ltac:(elia)) as HB.
  assert (Hsmall0 : small 0) by (apply (small_le 0 0); [cbn; lia|elia]).
  destruct (FV_multiple s vs Hs) as [ks Hks], (FV_multiple t vt Ht) as [kt Hkt].
  destruct (Z.lt_trichotomy vs vt) as [Hlt|[Heq|Hgt]].
  - (* rising *)
    destruct (log2_bracket (vt - vs)) as (l & Hl & Hlo & Hhi); [lia| |].
    { exists (kt - ks). rewrite Hks, Hkt. ring. }
    destruct (pow2_float (l - ebias) ltac:(elia)) as (pL & HpL & _).
    destruct (pow2_float (l + 1 - ebias) ltac:(elia)) as (p2L & Hp2L & _).
    replace (l - ebias + ebias) with l in HpL by lia.
    replace (l + 1 - ebias + ebias) with (l + 1) in Hp2L by lia.
    pose proof (pow2_pos l ltac:(elia)) as HL.
    assert (H2L : 2 ^ (l + 1) = 2 * 2 ^ l) by (rewrite Z.pow_add_r by elia; lia).
    assert (Hs1 : small (2 ^ l)) by (apply (small_le _ l); [lia|elia]).
    assert (Hs2 : small (2 ^ (l + 1))) by (apply (small_le _ (l + 1)); [lia|elia]).
    destruct (sub_FV t s 0%float p2L vt vs 0 (2 ^ (l + 1))) as (vd & Hd & Hdb);
      auto using FV_zero; try lia.
    destruct (mul_FV (t - s)%float 0.12%float 0%float pL vd vc 0 (2 ^ l)) as (vm & Hm & Hmb);
      auto using FV_zero; try nia.
    exists vm. split; [exact Hm|]. split; intros; lia.
  - (* already there *)
    destruct (sub_FV t s 0%float 0%float vt vs 0 0) as (vd & Hd & Hdb);
      auto using FV_zero; try lia.
    assert (vd = 0) by lia. subst vd.
    destruct (mul_FV (t - s)%float 0.12%float 0%float 0%float 0 vc 0 0) as (vm & Hm & Hmb);
      auto using FV_zero; try lia.
    exists vm. split; [exact Hm|]. split; intros; lia.
  - (* falling *)
    destruct (log2_bracket (vs - vt)) as (l & Hl & Hlo & Hhi); [lia| |].
    { exists (ks - kt). rewrite Hks, Hkt. ring. }
    destruct (pow2_float (l - ebias) ltac:(elia)) as (pL & _ & HpL).
    destruct (pow2_float (l + 1 - ebias) ltac:(elia)) as (p2L & _ & Hp2L).
    replace (l - ebias + ebias) with l in HpL by lia.
    replace (l + 1 - ebias + ebias) with (l + 1) in Hp2L by lia.
    pose proof (pow2_pos l ltac:(elia)) as HL.
    assert (H2L : 2 ^ (l + 1) = 2 * 2 ^ l) by (rewrite Z.pow_add_r by elia; lia).
    assert (Hs1 : small (- 2 ^ l)) by (apply (small_le _ l); [lia|elia]).
    assert (Hs2 : small (- 2 ^ (l + 1))) by (apply (small_le _ (l + 1)); [lia|elia]).
    destruct (sub_FV t s (- p2L)%float 0%float vt vs (- 2 ^ (l + 1)) 0) as (vd & Hd & Hdb);
      auto using FV_zero; try lia.
    destruct (mul_FV (t - s)%float 0.12%float (- pL)%float 0%float vd vc (- 2 ^ l) 0)
      as (vm & Hm & Hmb); auto using FV_zero; try nia.
    exists vm. split; [exact Hm|]. split; intros; lia.
Qed.

(** A frame moves the smoothed energy towards the target and never past it. *)
Lemma smooth_step_between s t :
  between 0 s 1 = true -> between 0 t 1 = true ->
  let r := (s + (t - s) * 0.12)%float in
  between 0 r 1 = true /\
  ((s <=? t)%float = true -> between s r t = true) /\
  ((t <=? s)%float = true -> between t r s = true).
Proof.
  intros Hs Ht r.
  destruct (between_FV _ _ _ _ _ FV_zero FV_one Hs) as (vs & Hvs & Hbs).
  destruct (between_FV _ _ _ _ _ FV_zero FV_one Ht) as (vt & Hvt & Hbt).
  destruct (scaled_difference s t vs vt Hvs Hvt Hbs Hbt) as (vm & Hm & Hup & Hdown).
  assert (Hsm : forall v, 0 <= v <= 2 ^ ebias -> small v).
  { intros v Hv. apply (small_le v ebias); [lia|elia]. }
  destruct (Z_le_gt_dec vs vt) as [Hle|Hgt].
  - destruct (add_FV s _ s t vs vm vs vt Hvs Hm) as (vr & Hr & Hrb); auto; [lia|].
    fold r in Hr. split; [|split].
    + apply (FV_between _ _ _ 0 vr (2 ^ ebias)); auto using FV_zero, FV_one. lia.
    + intros _. apply (FV_between _ _ _ vs vr vt); auto.
    + intros H. rewrite (leb_FV t s vt vs) in H by assumption. apply Z.leb_le in H.
      apply (FV_between _ _ _ vt vr vs); auto. lia.
  - destruct (add_FV s _ t s vs vm vt vs Hvs Hm) as (vr & Hr & Hrb); auto; [lia|].
    fold r in Hr. split; [|split].
    + apply (FV_between _ _ _ 0 vr (2 ^ ebias)); auto using FV_zero, FV_one. lia.
    + intros H. rewrite (leb_FV s t vs vt) in H by assumption. apply Z.leb_le in H. lia.
    + intros _. apply (FV_between _ _ _ vt vr vs); auto.
Qed.

(** ** The synthetic pulse *)

Lemma ltb_leb x y : (x <? y)%float = true -> (x <=? y)%float = true.
Proof.
  rewrite ltb_cmp, leb_cmp. destruct (float_cmp x y) as [[| |]|]; congruence.
Qed.

Lemma FV_below_one x v :
  FV x = Some v -> v < 2 ^ ebias -> v <= 2 ^ ebias - 2 ^ (ebias - 53).
Proof. apply Fval_below_one, Prim2SF_valid. Qed.

(** The constants of line 58 and the two floats that bound its partial sums:
    [0.49999999999999994 = 1/2 - 2^-54] and [0.7999999999999999]. *)
Lemma pulse_constants :
  exists v3 v5 v2 g1 g2,
    FV 0.3%float = Some v3 /\ FV 0.5%float = Some v5 /\
    FV 0.2%float = Some v2 /\ FV (-0.2)%float = Some (- v2) /\
    FV 0.49999999999999994%float = Some g1 /\
    FV 0.7999999999999999%float = Some g2 /\
    0 <= v5 /\ 0 <= v2 /\ 0 <= g1 /\
    (2 ^ ebias - 2 ^ (ebias - 53)) * v5 <= g1 * 2 ^ ebias /\
    v3 + g1 <= g2 /\ g2 + v2 <= 2 ^ ebias /\ v2 <= v3 /\
    g2 <= 2 ^ ebias /\ v3 <= 2 ^ ebias.
Proof.
  do 5 eexists.
  repeat (split; [vm_compute; first [reflexivity|discriminate]|]).
  vm_compute; discriminate.
Qed.

Lemma pulse_energy_in_range random sine :
  (0 <=? random)%float = true -> (random <? 1)%float = true ->
  between (-1) sine 1 = true ->
  between 0 (0.3 + random * 0.5 + sine * 0.2)%float 1 = true.
Proof.
  intros Hr0 Hr1 Hsine.
  destruct pulse_constants as
    (v3 & v5 & v2 & g1 & g2 & H3 & H5 & H2 & H2n & Hg1 & Hg2 &
     Hv5 & Hv2 & Hg1p & Hhalf & Hsum & Htop & Hbot & Hg2B & Hv3B).
  pose proof (pow2_pos ebias ltac:(elia)) as HB.
  assert (Hsm : forall v, Z.abs v <= 2 ^ ebias -> small v).
  { intros v Hv. apply (small_le v ebias); [lia|elia]. }
  assert (Hrb : between 0 random 1 = true).
  { unfold between. rewrite Hr0, (ltb_leb _ _ Hr1). reflexivity. }
  destruct (between_FV _ _ _ _ _ FV_zero FV_one Hrb) as (vr & Hvr & Hvrb).
  rewrite (ltb_FV random 1%float vr (2 ^ ebias)) in Hr1 by auto using FV_one.
  apply Z.ltb_lt in Hr1.
  pose proof (FV_below_one random vr Hvr Hr1) as Hgap.
  destruct (between_FV _ _ _ _ _ FV_minus_one FV_one Hsine) as (vs & Hvs & Hvsb).
  (* random * 0.5 *)
  destruct (mul_FV random 0.5%float 0%float 0.49999999999999994%float vr v5 0 g1)
    as (vp & Hp & Hpb); auto using FV_zero; try (apply Hsm; lia); [nia|].
  (* 0.3 + random * 0.5 *)
  destruct (add_FV 0.3%float (random * 0.5)%float 0.3%float 0.7999999999999999%float
              v3 vp v3 g2) as (va & Ha & Hab); auto; try (apply Hsm; lia); [lia|].
  (* sine * 0.2 *)
  destruct (mul_FV sine 0.2%float (-0.2)%float 0.2%float vs v2 (- v2) v2)
    as (vq & Hq & Hqb); auto; try (apply Hsm; lia); [nia|].
  (* the sum *)
  destruct (add_FV (0.3 + random * 0.5)%float (sine * 0.2)%float 0%float 1%float
              va vq 0 (2 ^ ebias)) as (ve & He & Heb);
    auto using FV_zero, FV_one; try (apply Hsm; lia); [lia|].
  apply (FV_between _ _ _ 0 ve (2 ^ ebias)); auto using FV_zero, FV_one.
Qed.

(** ** The size computed by [resize] *)

Lemma ltb_false_leb x y :
  is_nan x = false -> is_nan y = false ->
  (x <? y)%float = false -> (y <=? x)%float = true.
Proof.
  intros Hx Hy. rewrite ltb_cmp, leb_cmp, (float_cmp_antisym x y).
  destruct (float_cmp x y) as [[| |]|] eqn:E; cbn; try congruence.
  apply float_cmp_None in E as [E|E]; congruence.
Qed.

Lemma leb_not_nan x y :
  (x <=? y)%float = true -> is_nan x = false /\ is_nan y = false.
Proof.
  rewrite leb_cmp. destruct (float_cmp x y) eqn:E; [|discriminate]. intros _.
  destruct (is_nan x) eqn:Hx, (is_nan y) eqn:Hy; auto;
    assert (float_cmp x y = None) by (apply float_cmp_None; auto); congruence.
Qed.

(** ** The order on all numbers, infinities included *)

Lemma Fval_lt_top f v :
  valid_binary f = true -> Fval f = Some v -> Z.abs v < 2 ^ (1024 + ebias).
Proof.
  intros Hf Hv. destruct f as [s|s| |s m e]; cbn in Hv; try discriminate.
  - replace v with 0 by congruence. cbn [Z.abs]. apply pow2_pos. elia.
  - pose proof (finite_valid_emin _ _ _ Hf) as He.
    cbn in Hf. apply bounded_canonical in Hf as [Hc _].
    pose proof (canonical_digits _ _ Hc) as Hd.
    pose proof (Zv_pos_lt_pow m e ltac:(elia)) as Hlt.
    pose proof (Zv_pos_gt0 m e ltac:(elia)) as Hpos.
    assert (2 ^ (Zpos (digits2_pos m) + e + ebias) <= 2 ^ (1024 + ebias))
      by (apply pow2_le; elia).
    assert (v = cond_Zopp s (Zv (Zpos m) e)) by congruence. subst v.
    destruct s; cbn [cond_Zopp]; lia.
Qed.

Lemma SFcompare_Fext f g a b :
  valid_binary f = true -> valid_binary g = true ->
  Fext f = Some a -> Fext g = Some b ->
  SFcompare f g = Some (a ?= b).
Proof.
  intros Hf Hg Ha Hb.
  pose proof (pow2_pos (1024 + ebias) ltac:(elia)) as Htop.
  destruct f as [s1|s1| |s1 m1 e1] eqn:Ef, g as [s2|s2| |s2 m2 e2] eqn:Eg;
    try discriminate Ha; try discriminate Hb;
    try (apply SFcompare_Fval; assumption).
  all: cbn [Fext] in Ha, Hb.
  all: try (pose proof (Fval_lt_top _ _ Hf Ha) as Hfa).
  all: try (pose proof (Fval_lt_top _ _ Hg Hb) as Hgb).
  all: try (assert (a = cond_Zopp s1 (2 ^ (1024 + ebias))) by congruence; subst a).
  all: try (assert (b = cond_Zopp s2 (2 ^ (1024 + ebias))) by congruence; subst b).
  all: cbn [SFcompare]; f_equal; symmetry.
  all: try destruct s1; try destruct s2; cbn [cond_Zopp] in *.
  all: first [apply Z.compare_eq_iff; lia | apply Z.compare_lt_iff; lia
             | apply Z.compare_gt_iff; lia].
Qed.

Lemma Fext_not_nan f : f <> S754_nan -> exists a, Fext f = Some a.
Proof. destruct f; cbn; eauto. congruence. Qed.

Lemma float_cmp_Fext x y :
  is_nan x = false -> is_nan y = false ->
  exists a b, Fext (Prim2SF x) = Some a /\ Fext (Prim2SF y) = Some b /\
              float_cmp x y = Some (a ?= b).
Proof.
  intros Hx Hy. apply is_nan_false in Hx, Hy.
  destruct (Fext_not_nan _ Hx) as [a Ha], (Fext_not_nan _ Hy) as [b Hb].
  exists a, b. repeat split; auto.
  apply SFcompare_Fext; auto using Prim2SF_valid.
Qed.

Lemma leb_trans x y z :
  (x <=? y)%float = true -> (y <=? z)%float = true -> (x <=? z)%float = true.
Proof.
  intros Hxy Hyz.
  destruct (leb_not_nan _ _ Hxy) as [Hx Hy], (leb_not_nan _ _ Hyz) as [_ Hz].
  destruct (float_cmp_Fext x y Hx Hy) as (a & b & Ha & Hb & Hab).
  destruct (float_cmp_Fext y z Hy Hz) as (b' & c & Hb' & Hc & Hbc).
  destruct (float_cmp_Fext x z Hx Hz) as (a' & c' & Ha' & Hc' & Hac).
  assert (b' = b) by congruence. assert (a' = a) by congruence.
  assert (c' = c) by congruence. subst.
  rewrite leb_cmp in *. rewrite Hab in Hxy. rewrite Hbc in Hyz. rewrite Hac.
  destruct (Z.compare_spec a b), (Z.compare_spec b c); try discriminate;
    destruct (Z.compare_spec a c); try reflexivity; lia.
Qed.

Lemma leb_refl_float x : is_nan x = false -> (x <=? x)%float = true.
Proof. intros H. rewrite leb_cmp, float_cmp_refl; auto. Qed.

(** One step of the [Math.min] loop keeps the smaller of the two numbers. *)
Lemma min_step lowest number :
  is_nan lowest = false -> is_nan number = false ->
  let r := if is_neg_zero number && is_pos_zero lowest || (number <? lowest)%float
           then number else lowest in
  (r <=? lowest)%float = true /\ (r <=? number)%float = true /\
  (r = lowest \/ r = number).
Proof.
  intros Hl Hn r. subst r.
  destruct (number <? lowest)%float eqn:Hlt.
  - rewrite orb_true_r. repeat split; auto using ltb_leb, leb_refl_float.
  - rewrite orb_false_r.
    destruct (is_neg_zero number && is_pos_zero lowest) eqn:Hz.
    + repeat split; auto using leb_refl_float.
      apply andb_prop in Hz as [Hz1 Hz2].
      unfold is_neg_zero, is_pos_zero in Hz1, Hz2.
      apply andb_prop in Hz1 as [Hz1 _]. apply andb_prop in Hz2 as [Hz2 _].
      unfold is_zero in Hz1, Hz2. rewrite eqb_cmp in Hz1, Hz2.
      change zero with 0%float in Hz1, Hz2.
      destruct (float_cmp number 0%float) as [[| |]|] eqn:E1; try discriminate Hz1.
      destruct (float_cmp lowest 0%float) as [[| |]|] eqn:E2; try discriminate Hz2.
      destruct (float_cmp_zero_eq _ E1) as [-> | ->],
               (float_cmp_zero_eq _ E2) as [-> | ->]; reflexivity.
    + repeat split; auto using leb_refl_float, ltb_false_leb.
Qed.

(** [Math.min(a, b, 420)] on numbers: one of the three, and below each. *)
Lemma Math_min_least a b :
  is_nan a = false -> is_nan b = false ->
  let r := Math_min [a; b; 420%float] in
  (r <=? a)%float = true /\ (r <=? b)%float = true /\ (r <=? 420)%float = true /\
  (r = a \/ r = b \/ r = 420%float).
Proof.
  intros Ha Hb. cbv zeta. unfold Math_min. cbn [existsb fold_left].
  rewrite Ha, Hb. change (is_nan 420) with false. cbn [orb].
  destruct (min_step infinity a eq_refl Ha) as (H1i & H1a & H1).
  set (l1 := if is_neg_zero a && is_pos_zero infinity || (a <? infinity)%float
             then a else infinity) in *.
  assert (Hl1 : is_nan l1 = false) by (destruct (leb_not_nan _ _ H1a); assumption).
  destruct (min_step l1 b Hl1 Hb) as (H2l & H2b & H2).
  set (l2 := if is_neg_zero b && is_pos_zero l1 || (b <? l1)%float then b else l1) in *.
  assert (Hl2 : is_nan l2 = false) by (destruct (leb_not_nan _ _ H2b); assumption).
  destruct (min_step l2 420%float Hl2 eq_refl) as (H3l & H3c & H3).
  set (l3 := if is_neg_zero 420 && is_pos_zero l2 || (420 <? l2)%float
             then 420%float else l2) in *.
  repeat split.
  - eauto using leb_trans.
  - eauto using leb_trans.
  - exact H3c.
  - destruct H3 as [H3|H3]; [|auto]. rewrite H3.
    destruct H2 as [H2|H2]; [|auto]. rewrite H2.
    destruct H1 as [H1|H1]; [|auto].
    exfalso. rewrite H3, H2, H1 in H3c. discriminate H3c.
Qed.

(** A container with a zero side gives a zero size, whatever the other side. *)
Lemma Math_min_zero_side cw ch :
  (cw = 0%float /\ (0 <=? ch)%float = true) \/ (ch = 0%float /\ (0 <=? cw)%float = true) ->
  Math_min [cw; ch; 420%float] = 0%float \/ Math_min [cw; ch; 420%float] = neg_zero.
Proof.
  intros [[-> H]|[-> H]].
  - pose proof (leb_not_nan _ _ H) as [_ Hnan].
    rewrite leb_cmp, (float_cmp_antisym ch 0%float) in H.
    destruct (float_cmp ch 0%float) as [[| |]|] eqn:E; try discriminate H.
    + destruct (float_cmp_zero_eq ch E) as [-> | ->]; [left|right]; reflexivity.
    + left. unfold Math_min. cbn [existsb fold_left]. rewrite Hnan.
      change (is_nan 0 || (false || (is_nan 420 || false))) with false. cbv iota.
      change (if is_neg_zero 0 && is_pos_zero infinity || (0 <? infinity)%float
              then 0%float else infinity) with 0%float.
      assert (Hneg : is_neg_zero ch = false).
      { unfold is_neg_zero, is_zero. rewrite eqb_cmp. change zero with 0%float.
        rewrite E. reflexivity. }
      assert (Hlt : (ch <? 0)%float = false) by (rewrite ltb_cmp, E; reflexivity).
      rewrite Hneg, Hlt. reflexivity.
  - pose proof (leb_not_nan _ _ H) as [_ Hnan].
    rewrite leb_cmp, (float_cmp_antisym cw 0%float) in H.
    destruct (float_cmp cw 0%float) as [[| |]|] eqn:E; try discriminate H.
    + destruct (float_cmp_zero_eq cw E) as [-> | ->]; [left|right]; reflexivity.
    + left. unfold Math_min. cbn [existsb fold_left]. rewrite Hnan.
      change (false || (is_nan 0 || (is_nan 420 || false))) with false. cbv iota.
      assert (Hpos : (0 <? cw)%float = true).
      { rewrite ltb_cmp, (float_cmp_antisym cw 0%float), E. reflexivity. }
      destruct (is_neg_zero cw && is_pos_zero infinity || (cw <? infinity)%float).
      * change (is_neg_zero 0) with false. cbn [andb orb]. rewrite Hpos. reflexivity.
      * reflexivity.
Qed.

Lemma is_zero_facts x :
  is_zero x = true ->
  is_nan x = false /\ (x <? 0)%float = false /\ (0 <? x)%float = false.
Proof.
  unfold is_zero. rewrite eqb_cmp. change zero with 0%float.
  rewrite is_nan_cmp_zero, !ltb_cmp, (float_cmp_antisym x 0%float).
  destruct (float_cmp x 0%float) as [[| |]|]; try discriminate. auto.
Qed.

Lemma is_infinity_spec x :
  is_infinity x = false -> forall s, Prim2SF x <> S754_infinity s.
Proof.
  unfold is_infinity. rewrite eqb_spec, abs_spec.
  change (Prim2SF infinity) with (S754_infinity false).
  intros H s Hx. rewrite Hx in H. discriminate H.
Qed.

Lemma zero_times_finite z y :
  z = 0%float \/ z = neg_zero ->
  is_nan y = false -> is_infinity y = false ->
  is_zero (z * y) = true.
Proof.
  intros Hz Hnan Hinf. unfold is_zero. rewrite eqb_spec, mul_spec.
  apply is_nan_false in Hnan. pose proof (is_infinity_spec y Hinf) as Hfin.
  change (Prim2SF 0%float) with (S754_zero false).
  destruct Hz as [-> | ->].
  - change (Prim2SF 0%float) with (S754_zero false).
    destruct (Prim2SF y) as [s|s| |s m e]; try reflexivity; [now destruct (Hfin s)|congruence].
  - change (Prim2SF neg_zero) with (S754_zero true).
    destruct (Prim2SF y) as [s|s| |s m e]; try reflexivity; [now destruct (Hfin s)|congruence].
Qed.

Lemma js_or_one_finite d :
  is_infinity d = false ->
  is_nan (js_or d 1) = false /\ is_infinity (js_or d 1) = false.
Proof.
  intros Hinf. unfold js_or, truthy.
  destruct (is_nan d) eqn:Hnan.
  - rewrite orb_true_r. cbn. split; reflexivity.
  - destruct (is_zero d); cbn; auto.
Qed.

(* ================================================================== *)
(** * Part V: the state machine                                        *)
(* ================================================================== *)

Lemma frames_succ n w : frames (S n) w = draw (frames n w).
Proof.
  revert w; induction n as [|n IH]; intros w; [reflexivity|].
  change (frames (S (S n)) w) with (frames (S n) (draw w)).
  rewrite IH. reflexivity.
Qed.

Lemma smooth_time v : time (smooth v) = (time v + 0.006)%float.
Proof. reflexivity. Qed.

Lemma smooth_energy v :
  ttsEnergySmooth (smooth v)
  = (ttsEnergySmooth v + (targetEnergy v - ttsEnergySmooth v) * 0.12)%float.
Proof. reflexivity. Qed.

(** What a call of [draw] does to each part of the state, whether the
    painting throws or not. *)
Lemma draw_vars w :
  vars (draw w) = smooth (vars w) \/
  vars (draw w) = set_animId (Some (next_frame (host w))) (smooth (vars w)).
Proof. unfold draw. destruct (draw_throws w); [left|right]; reflexivity. Qed.

Lemma draw_canvas w : canvas (draw w) = canvas w.
Proof. unfold draw. destruct (draw_throws w); reflexivity. Qed.

Lemma draw_time w : time (vars (draw w)) = (time (vars w) + 0.006)%float.
Proof. destruct (draw_vars w) as [-> | ->]; reflexivity. Qed.

Lemma draw_dpr w : dpr (vars (draw w)) = dpr (vars w).
Proof. destruct (draw_vars w) as [-> | ->]; reflexivity. Qed.

Lemma draw_ttsEnergy w : ttsEnergy (vars (draw w)) = ttsEnergy (vars w).
Proof. destruct (draw_vars w) as [-> | ->]; reflexivity. Qed.

Lemma draw_ttsActive w : ttsActive (vars (draw w)) = ttsActive (vars w).
Proof. destruct (draw_vars w) as [-> | ->]; reflexivity. Qed.

Lemma draw_ttsSimInterval w : ttsSimInterval (vars (draw w)) = ttsSimInterval (vars w).
Proof. destruct (draw_vars w) as [-> | ->]; reflexivity. Qed.

Lemma draw_timers w :
  intervals (host (draw w)) = intervals (host w) /\
  next_interval (host (draw w)) = next_interval (host w) /\
  unload_listener (host (draw w)) = unload_listener (host w) /\
  Math (host (draw w)) = Math (host w).
Proof. unfold draw. destruct (draw_throws w); repeat split. Qed.

Lemma draw_keeps_target w : targetEnergy (vars (draw w)) = targetEnergy (vars w).
Proof.
  unfold targetEnergy. now rewrite draw_ttsActive, draw_ttsEnergy.
Qed.

Lemma frames_keep_target n w : targetEnergy (vars (frames n w)) = targetEnergy (vars w).
Proof.
  induction n as [|n IH]; [reflexivity|].
  rewrite frames_succ, draw_keeps_target. exact IH.
Qed.

Lemma draw_smooth w :
  ttsEnergySmooth (vars (draw w)) =
  (ttsEnergySmooth (vars w)
   + (targetEnergy (vars w) - ttsEnergySmooth (vars w)) * 0.12)%float.
Proof. destruct (draw_vars w) as [-> | ->]; reflexivity. Qed.

Lemma between_zero_one_zero : between 0 0 1 = true.
Proof. reflexivity. Qed.

Lemma between_zero_one_one : between 0 1 1 = true.
Proof. reflexivity. Qed.

Lemma between_left lo x hi : between lo x hi = true -> (lo <=? x)%float = true.
Proof. unfold between. intros H. now apply andb_prop in H. Qed.

Lemma between_right lo x hi : between lo x hi = true -> (x <=? hi)%float = true.
Proof. unfold between. intros H. now apply andb_prop in H. Qed.

(** With the target in range, frames keep the smoothed energy in range. *)
Lemma frames_in_range n w :
  between 0 (targetEnergy (vars w)) 1 = true ->
  between 0 (ttsEnergySmooth (vars w)) 1 = true ->
  between 0 (ttsEnergySmooth (vars (frames n w))) 1 = true.
Proof.
  intros Ht Hs. induction n as [|n IH]; [exact Hs|].
  rewrite frames_succ, draw_smooth, frames_keep_target.
  now apply smooth_step_between.
Qed.

Lemma stored_energy_in_range x :
  is_nan x = false -> between 0 (Math_min [1%float; Math_max [0%float; x]]) 1 = true.
Proof.
  rewrite stored_energy_cases. unfold between. intros Hnan.
  by_cmp_zero_one x; try discriminate Hnan; try reflexivity.
  all: rewrite ?leb_cmp, ?(float_cmp_antisym x 0%float), ?H0, ?H1; reflexivity.
Qed.

(** ** The generator handle and the live timers *)

Ltac fields :=
  cbn [setInterval clearInterval requestAnimationFrame vars host canvas
       intervals next_interval frame_request next_frame unload_listener Math
       animId time dpr ttsEnergy ttsEnergySmooth ttsActive ttsSimInterval
       set_animId set_time set_dpr set_ttsEnergy set_ttsEnergySmooth
       set_ttsActive set_ttsSimInterval] in *.

Lemma generator_ok_same w w' :
  intervals (host w') = intervals (host w) ->
  next_interval (host w') = next_interval (host w) ->
  ttsSimInterval (vars w') = ttsSimInterval (vars w) ->
  generator_ok w -> generator_ok w'.
Proof. unfold generator_ok. intros -> -> ->. auto. Qed.

Lemma generator_ok_draw w : generator_ok w -> generator_ok (draw w).
Proof.
  destruct (draw_timers w) as (Hi & Hn & _).
  apply generator_ok_same; auto using draw_ttsSimInterval.
Qed.

(** The parts of the state after start-up are those after [draw], but for
    the listener. *)
Lemma startup_draw c m d cw ch :
  let w := draw (resize d cw ch (initial c m d)) in
  vars (startup c m d cw ch) = vars w /\
  canvas (startup c m d cw ch) = canvas w /\
  intervals (host (startup c m d cw ch)) = intervals (host w) /\
  next_interval (host (startup c m d cw ch)) = next_interval (host w) /\
  frame_request (host (startup c m d cw ch)) = frame_request (host w) /\
  next_frame (host (startup c m d cw ch)) = next_frame (host w) /\
  Math (host (startup c m d cw ch)) = Math (host w).
Proof.
  cbv zeta. unfold startup. destruct (draw_throws _); repeat split.
Qed.

Lemma generator_ok_startup c m d cw ch : generator_ok (startup c m d cw ch).
Proof.
  destruct (startup_draw c m d cw ch) as (Hv & _ & Hi & Hn & _).
  apply (generator_ok_same (draw (resize d cw ch (initial c m d)))); auto.
  - now rewrite Hv.
  - apply generator_ok_draw.
    repeat split; intros id H; cbn in H; try discriminate H; set_solver.
Qed.

Lemma generator_ok_start w : generator_ok w -> generator_ok (sphereStartTTSPulse w).
Proof.
  intros (Ha & Hb & Hc). destruct w as [v c h]. unfold sphereStartTTSPulse.
  cbn [vars canvas host] in *.
  destruct v as [a t d e s act [old|]]; repeat split; intros id H; fields.
  - f_equal. apply elem_of_union in H as [H|H]; [set_solver|].
    apply elem_of_difference in H as [H1 H2]. specialize (Ha id H1). set_solver.
  - apply elem_of_union in H as [H|H]; [apply elem_of_singleton in H; lia|].
    apply elem_of_difference in H as [H1 _]. specialize (Hb id H1). lia.
  - injection H as <-. lia.
  - f_equal. apply elem_of_union in H as [H|H]; [set_solver|].
    specialize (Ha id H). discriminate Ha.
  - apply elem_of_union in H as [H|H]; [apply elem_of_singleton in H; lia|].
    specialize (Hb id H). lia.
  - injection H as <-. lia.
Qed.

Lemma generator_ok_stop w : generator_ok w -> generator_ok (sphereStopTTSPulse w).
Proof.
  intros (Ha & Hb & Hc). destruct w as [v c h]. unfold sphereStopTTSPulse.
  cbn [vars canvas host] in *.
  destruct v as [a t d e s act [old|]]; repeat split; intros id H; fields;
    try discriminate H.
  - apply elem_of_difference in H as [H1 H2]. specialize (Ha id H1). set_solver.
  - apply elem_of_difference in H as [H1 _]. now apply Hb.
  - now apply Ha in H.
  - now apply Hb.
Qed.

Lemma generator_ok_unload w : generator_ok w -> generator_ok (on_beforeunload w).
Proof.
  intros (Ha & Hb & Hc). destruct w as [v c h]. unfold on_beforeunload.
  cbn [vars canvas host] in *.
  assert (Hcancel : forall x, intervals (cancelAnimationFrame x h) = intervals h
                              /\ next_interval (cancelAnimationFrame x h) = next_interval h).
  { intros x. unfold cancelAnimationFrame.
    destruct x, (frame_request h); auto. destruct (Pos.eqb _ _); auto. }
  destruct (Hcancel (animId v)) as [Hi Hn].
  destruct (ttsSimInterval v) as [old|] eqn:E;
    repeat split; intros id H; fields; rewrite ?Hi, ?Hn in *; rewrite ?E in *; auto.
  - apply elem_of_difference in H as [H1 _]. now apply Ha.
  - apply elem_of_difference in H as [H1 _]. now apply Hb.
Qed.

Lemma generator_ok_run ev w : generator_ok w -> generator_ok (run ev w).
Proof.
  intros H. destruct ev; cbn [run].
  - destruct active; exact H.
  - exact H.
  - now apply generator_ok_start.
  - now apply generator_ok_stop.
  - destruct (decide _); exact H.
  - exact H.
  - destruct (frame_request (host w)); [now apply generator_ok_draw|exact H].
  - destruct (unload_listener (host w)); [now apply generator_ok_unload|exact H].
Qed.

Lemma reachable_generator_ok w : reachable w -> generator_ok w.
Proof.
  induction 1 as [c m d cw ch|ev w Hw IH Hev].
  - apply generator_ok_startup.
  - now apply generator_ok_run.
Qed.

Lemma generator_ok_size w : generator_ok w -> (size (intervals (host w)) <= 1)%nat.
Proof.
  intros (Ha & _ & _). destruct (ttsSimInterval (vars w)) as [id|] eqn:E.
  - rewrite <- (size_singleton (C := gset positive) id).
    apply subseteq_size. intros x Hx. specialize (Ha x Hx).
    injection Ha as ->. set_solver.
  - replace (intervals (host w)) with (∅ : gset positive); [rewrite size_empty; lia|].
    symmetry. apply leibniz_equiv. apply elem_of_equiv_empty. intros x Hx.
    specialize (Ha x Hx). discriminate Ha.
Qed.

(** ** The pending frame *)

Lemma frame_ok_draw w : frame_ok (draw w).
Proof.
  unfold frame_ok, draw. destruct (draw_throws w); [left|right]; reflexivity.
Qed.

Lemma frame_ok_run ev w : frame_ok w -> frame_ok (run ev w).
Proof.
  intros H. destruct ev; cbn [run].
  - destruct active; exact H.
  - exact H.
  - destruct w as [v c h]. unfold sphereStartTTSPulse, frame_ok in *.
    cbn [vars canvas host] in *. destruct (ttsSimInterval _); exact H.
  - destruct w as [v c h]. unfold sphereStopTTSPulse, frame_ok in *.
    cbn [vars canvas host] in *. destruct (ttsSimInterval _); exact H.
  - destruct (decide _); exact H.
  - exact H.
  - destruct (frame_request (host w)) eqn:E; [apply frame_ok_draw|exact H].
  - destruct (unload_listener (host w)); [|exact H].
    destruct w as [v c h]. unfold on_beforeunload, frame_ok in *.
    cbn [vars canvas host] in *.
    assert (Hc : frame_request (cancelAnimationFrame (animId v) h) = None
                 \/ frame_request (cancelAnimationFrame (animId v) h) = animId v).
    { unfold cancelAnimationFrame.
      destruct (animId v) as [i|], (frame_request h) as [j|] eqn:E; auto.
      destruct (Pos.eqb i j); [left; reflexivity|]. rewrite E. exact H. }
    destruct (ttsSimInterval v); exact Hc.
Qed.

Lemma reachable_frame_ok w : reachable w -> frame_ok w.
Proof.
  induction 1 as [c m d cw ch|ev w Hw IH Hev].
  - destruct (startup_draw c m d cw ch) as (Hv & _ & _ & _ & Hf & _).
    unfold frame_ok. rewrite Hf, Hv. apply frame_ok_draw.
  - now apply frame_ok_run.
Qed.

Lemma generator_ok_cleared w id :
  generator_ok w -> ttsSimInterval (vars w) = Some id ->
  intervals (host w) ∖ {[ id ]} = ∅.
Proof.
  intros (Ha & _ & _) Hid. apply leibniz_equiv. apply elem_of_equiv_empty.
  intros x Hx. apply elem_of_difference in Hx as [H1 H2].
  specialize (Ha x H1). rewrite Hid in Ha. set_solver.
Qed.

Lemma generator_ok_idle w :
  generator_ok w -> ttsSimInterval (vars w) = None -> intervals (host w) = ∅.
Proof.
  intros (Ha & _ & _) Hid. apply leibniz_equiv. apply elem_of_equiv_empty.
  intros x Hx. specialize (Ha x Hx). congruence.
Qed.

(** ** The energy range along a session *)

Lemma energy_in_range_startup c m d cw ch : energy_in_range (startup c m d cw ch).
Proof.
  destruct (startup_draw c m d cw ch) as (Hv & _).
  unfold energy_in_range. rewrite Hv, draw_ttsEnergy, draw_smooth. split; reflexivity.
Qed.

Lemma target_in_range w :
  between 0 (ttsEnergy (vars w)) 1 = true ->
  between 0 (targetEnergy (vars w)) 1 = true.
Proof.
  intros H. unfold targetEnergy. destruct (ttsActive (vars w)); [exact H|reflexivity].
Qed.

Lemma energy_in_range_draw w : energy_in_range w -> energy_in_range (draw w).
Proof.
  intros [He Hs]. split; [now rewrite draw_ttsEnergy|].
  rewrite draw_smooth. apply smooth_step_between; [exact Hs|now apply target_in_range].
Qed.

Lemma energy_in_range_run ev w :
  numeric_energy ev -> energy_in_range w -> energy_in_range (run ev w).
Proof.
  intros [Hhost Hnum] [He Hs]. destruct ev; cbn [run].
  - destruct active; split; auto.
  - split; [|exact Hs]. now apply stored_energy_in_range.
  - split; assumption.
  - destruct w as [v c h]. unfold sphereStopTTSPulse. cbn [vars canvas host] in *.
    destruct (ttsSimInterval _); split; auto.
  - destruct (decide _); [|split; assumption].
    destruct Hhost as (H0 & H1 & Hsine). split; [|exact Hs].
    now apply pulse_energy_in_range.
  - split; assumption.
  - destruct (frame_request (host w)); [|split; assumption].
    now apply energy_in_range_draw.
  - destruct (unload_listener (host w)); split; assumption.
Qed.

(* ================================================================== *)
(** * Part VI: binary64 operations round to nearest                   *)
(* ================================================================== *)

(** ** Integers *)

Lemma round_to_bounds u v :
  0 < u -> v / u * u <= round_to u v <= (v / u + 1) * u.
Proof.
  intros Hu. unfold round_to.
  destruct (2 * (v mod u) <? u), (u <? 2 * (v mod u)), (Z.even (v / u)); nia.
Qed.

Lemma round_to_multiple u k : 0 < u -> round_to u (k * u) = k * u.
Proof.
  intros Hu. unfold round_to. rewrite Z.div_mul, Z.mod_mul by lia.
  replace (2 * 0 <? u) with true by (symmetry; apply Z.ltb_lt; lia). reflexivity.
Qed.

Lemma round_to_mono u v w :
  0 < u -> v <= w -> round_to u v <= round_to u w.
Proof.
  intros Hu Hvw.
  pose proof (Z.div_le_mono v w u Hu Hvw) as Hq.
  destruct (Z.eq_dec (v / u) (w / u)) as [Heq|Hne].
  - pose proof (Z.div_mod v u ltac:(lia)) as Hv.
    pose proof (Z.div_mod w u ltac:(lia)) as Hw.
    assert (Hr : v mod u <= w mod u) by nia.
    unfold round_to. rewrite <- Heq.
    destruct (Z.ltb_spec (2 * (v mod u)) u), (Z.ltb_spec (2 * (w mod u)) u),
             (Z.ltb_spec u (2 * (v mod u))), (Z.ltb_spec u (2 * (w mod u))),
             (Z.even (v / u)); nia.
  - pose proof (round_to_bounds u v Hu). pose proof (round_to_bounds u w Hu). nia.
Qed.

Lemma round_to_scale c u v :
  0 < c -> 0 < u -> round_to (u * c) (v * c) = round_to u v * c.
Proof.
  intros Hc Hu. unfold round_to.
  rewrite Z.div_mul_cancel_r, Z.mul_mod_distr_r by lia.
  replace (2 * (v mod u * c) <? u * c) with (2 * (v mod u) <? u).
  2:{ destruct (Z.ltb_spec (2 * (v mod u)) u), (Z.ltb_spec (2 * (v mod u * c)) (u * c)); nia. }
  replace (u * c <? 2 * (v mod u * c)) with (u <? 2 * (v mod u)).
  2:{ destruct (Z.ltb_spec u (2 * (v mod u))), (Z.ltb_spec (u * c) (2 * (v mod u * c))); nia. }
  ring.
Qed.

(** Rounding on a finer grid of which [v] is already a point. *)
Lemma round_to_divides u v :
  0 < u -> (u | v) -> round_to u v = v.
Proof.
  intros Hu [k ->]. now apply round_to_multiple.
Qed.

(** ** What the shifted-out bits say *)

Lemma shr_1_tracks mx k mrs :
  0 <= mx -> 0 <= k -> shr_tracks mx k mrs -> shr_tracks mx (k + 1) (shr_1 mrs).
Proof.
  intros Hmx Hk (Hm & Hr & Hs).
  pose proof (pow2_pos k Hk) as Hp.
  assert (Hq : 0 <= shr_m mrs) by (rewrite Hm; apply Z.div_pos; lia).
  destruct mrs as [m r s]; cbn [shr_m shr_r shr_s] in *.
  rewrite shr_1_fields by assumption. unfold shr_tracks; cbn [shr_m shr_r shr_s].
  replace (k + 1 - 1) with k by lia.
  replace (0 <? k + 1) with true by (symmetry; apply Z.ltb_lt; lia).
  cbn [andb]. split; [|split].
  - rewrite Hm, Z.pow_add_r, Z.pow_1_r, Z.div_div by lia. reflexivity.
  - rewrite Hm. reflexivity.
  - rewrite Hr, Hs. destruct (Z.ltb_spec 0 k) as [Hpos|Hzero]; cbn [andb orb].
    + pose proof (pow2_pos (k - 1) ltac:(lia)) as Hp1.
      replace (2 ^ k) with (2 ^ (k - 1) * 2).
      2:{ replace k with ((k - 1) + 1) at 2 by lia. rewrite Z.pow_add_r by lia. reflexivity. }
      rewrite Z.rem_mul_r by lia.
      rewrite (Zmod_odd (mx / 2 ^ (k - 1))).
      pose proof (Z.mod_pos_bound mx (2 ^ (k - 1)) Hp1) as Hlow.
      destruct (Z.odd (mx / 2 ^ (k - 1))), (Z.eqb_spec (mx mod 2 ^ (k - 1)) 0) as [E|E];
        cbn [orb negb]; symmetry.
      * apply negb_true_iff, Z.eqb_neq. lia.
      * apply negb_true_iff, Z.eqb_neq. lia.
      * apply negb_false_iff, Z.eqb_eq. lia.
      * apply negb_true_iff, Z.eqb_neq. lia.
    + assert (k = 0) by lia. subst k. rewrite Z.pow_0_r, Z.mod_1_r. reflexivity.
Qed.

Lemma iter_shr_1_tracks mx p :
  0 <= mx -> shr_tracks mx (Zpos p) (iter_pos shr_1 p (Build_shr_record mx false false)).
Proof.
  intros Hmx.
  replace (Zpos p) with (0 + Zpos p) by lia.
  apply (iter_pos_shift shr_1 (shr_tracks mx)); [|lia|].
  - intros k x Hk H. now apply shr_1_tracks.
  - unfold shr_tracks; cbn. rewrite Z.div_1_r. auto.
Qed.

(** Rounding the shifted mantissa with its location is rounding the
    mantissa to a multiple of [2 ^ n], ties to even. *)
Lemma round_nearest_even_tracks mx n mrs :
  0 <= mx -> 0 <= n -> shr_tracks mx n mrs ->
  round_nearest_even (shr_m mrs) (loc_of_shr_record mrs) * 2 ^ n = round_to (2 ^ n) mx.
Proof.
  intros Hmx Hn (Hm & Hr & Hs).
  destruct mrs as [m r s]; cbn [shr_m shr_r shr_s] in *. subst m.
  destruct (Z.ltb_spec 0 n) as [Hpos|Hzero]; cbn [andb] in Hr, Hs.
  - pose proof (pow2_pos (n - 1) ltac:(lia)) as Hp1.
    assert (Hsplit : 2 ^ n = 2 ^ (n - 1) * 2).
    { replace n with ((n - 1) + 1) at 1 by lia. rewrite Z.pow_add_r by lia. reflexivity. }
    pose proof (Z.mod_pos_bound mx (2 ^ (n - 1)) Hp1) as Hlow.
    assert (Hrem : mx mod 2 ^ n
                   = mx mod 2 ^ (n - 1) + 2 ^ (n - 1) * (if Z.odd (mx / 2 ^ (n - 1)) then 1 else 0)).
    { rewrite Hsplit, Z.rem_mul_r by lia. now rewrite (Zmod_odd (mx / 2 ^ (n - 1))). }
    unfold round_to. cbv zeta. rewrite Hrem. subst r s.
    destruct (Z.odd (mx / 2 ^ (n - 1))), (Z.eqb_spec (mx mod 2 ^ (n - 1)) 0) as [E|E];
      cbn [negb loc_of_shr_record round_nearest_even].
    + rewrite E.
      replace (2 * (0 + 2 ^ (n - 1) * 1) <? 2 ^ n) with false by (symmetry; apply Z.ltb_ge; lia).
      replace (2 ^ n <? 2 * (0 + 2 ^ (n - 1) * 1)) with false by (symmetry; apply Z.ltb_ge; lia).
      reflexivity.
    + replace (2 * (mx mod 2 ^ (n - 1) + 2 ^ (n - 1) * 1) <? 2 ^ n) with false
        by (symmetry; apply Z.ltb_ge; lia).
      replace (2 ^ n <? 2 * (mx mod 2 ^ (n - 1) + 2 ^ (n - 1) * 1)) with true
        by (symmetry; apply Z.ltb_lt; lia).
      reflexivity.
    + replace (2 * (mx mod 2 ^ (n - 1) + 2 ^ (n - 1) * 0) <? 2 ^ n) with true
        by (symmetry; apply Z.ltb_lt; lia).
      reflexivity.
    + replace (2 * (mx mod 2 ^ (n - 1) + 2 ^ (n - 1) * 0) <? 2 ^ n) with true
        by (symmetry; apply Z.ltb_lt; lia).
      reflexivity.
  - assert (n = 0) by lia. subst n r s. cbn [loc_of_shr_record round_nearest_even].
    rewrite Z.pow_0_r. rewrite <- (Z.mul_1_r mx) at 2. rewrite round_to_multiple by lia.
    rewrite Z.div_1_r. reflexivity.
Qed.

Lemma shr_fexp_tracks mx ex :
  0 <= mx ->
  let n := Z.max 0 (fexp64 (Zdigits2 mx + ex) - ex) in
  exists mrs,
    shr_fexp prec emax mx ex loc_Exact = (mrs, ex + n) /\ shr_tracks mx n mrs.
Proof.
  intros Hmx n. unfold shr_fexp, shr, shr_record_of_loc.
  rewrite fexp_eq. fold (fexp64 (Zdigits2 mx + ex)).
  subst n. destruct (fexp64 (Zdigits2 mx + ex) - ex) as [|p|p] eqn:E.
  - exists (Build_shr_record mx false false).
    rewrite Z.max_id, Z.add_0_r. unfold shr_tracks; cbn. rewrite Z.div_1_r. auto.
  - exists (iter_pos shr_1 p (Build_shr_record mx false false)).
    rewrite Z.max_r by lia. split; [reflexivity|].
    now apply iter_shr_1_tracks.
  - exists (Build_shr_record mx false false).
    rewrite Z.max_l by lia. rewrite Z.add_0_r. unfold shr_tracks; cbn. rewrite Z.div_1_r. auto.
Qed.

(** ** [binary_round_aux] rounds to nearest, ties to even *)

Lemma binary_round_aux_nearest_struct s mx ex :
  let n := Z.max 0 (fexp64 (Zpos (digits2_pos mx) + ex) - ex) in
  let R := binary_round_aux prec emax s (Zpos mx) ex loc_Exact in
  exists m1, m1 * 2 ^ n = round_to (2 ^ n) (Zpos mx) /\
    ((m1 = 0 /\ R = S754_zero s) \/
     (exists m2 k, 0 <= k /\ Zpos m2 * 2 ^ k = m1 /\
        ((ex + n + k <= 971 /\ R = S754_finite s m2 (ex + n + k)) \/
         (971 < ex + n + k /\ R = S754_infinity s)))).
Proof.
  intros n R. subst R. unfold binary_round_aux.
  destruct (shr_fexp_tracks (Zpos mx) ex ltac:(lia)) as (mrs & Hshr & Htr).
  cbn [Zdigits2] in Hshr, Htr. fold n in Hshr, Htr.
  rewrite Hshr.
  assert (Hn0 : 0 <= n) by (subst n; lia).
  pose proof (round_nearest_even_tracks (Zpos mx) n mrs ltac:(lia) Hn0 Htr) as Hround.
  pose proof (round_nearest_even_range mrs) as [Hrange _].
  destruct Htr as (Hm & _ & _).
  set (m1 := round_nearest_even (shr_m mrs) (loc_of_shr_record mrs)) in *.
  set (m := Zpos mx / 2 ^ n) in *.
  rewrite Hm in Hrange.
  assert (Hm0 : 0 <= m) by (subst m; apply Z.div_pos; [lia|now apply pow2_pos]).
  destruct (shr_fexp_exact_loc m1 (ex + n) ltac:(lia)) as (mrs2 & Hshr2 & Hm2 & Hex2).
  rewrite Hshr2.
  exists m1. split; [exact Hround|].
  destruct (Z.eq_dec m1 0) as [Hz|Hnz].
  - left. split; [exact Hz|]. rewrite Hm2, Hz, Z.div_0_l; [reflexivity|].
    apply Z.pow_nonzero; lia.
  - right.
    assert (Hlt : m * 2 ^ n < 2 ^ Zpos (digits2_pos mx)).
    { pose proof (digits2_bounds mx) as [_ Hub].
      pose proof (Z.mul_div_le (Zpos mx) (2 ^ n) (pow2_pos n Hn0)). fold m in H. lia. }
    pose proof (second_shift_exact (Zpos (digits2_pos mx)) ex n m m1
                  ltac:(lia) eq_refl Hm0 Hlt Hrange ltac:(lia)) as Hsecond.
    cbn zeta in Hsecond.
    set (n2 := Z.max 0 (fexp64 (Zdigits2 m1 + (ex + n)) - (ex + n))) in *.
    assert (Hdiv : (m1 / 2 ^ n2) * 2 ^ n2 = m1).
    { destruct Hsecond as [->|[-> Hev]].
      - rewrite Z.pow_0_r, Z.div_1_r; lia.
      - change (2 ^ 1) with 2. pose proof (Z.div_mod m1 2 ltac:(lia)). lia. }
    assert (Hq : 0 < m1 / 2 ^ n2).
    { assert (0 <= n2) by (subst n2; lia). pose proof (pow2_pos n2 H).
      assert (0 <= m1 / 2 ^ n2) by (apply Z.div_pos; lia). nia. }
    rewrite Hm2. destruct (m1 / 2 ^ n2) as [|q|q] eqn:Eq; try lia.
    exists q, n2. split; [subst n2; lia|]. split; [exact Hdiv|].
    change (emax - prec) with 971.
    destruct (Z.leb_spec (ex + n + n2) 971); [left|right]; split; auto; lia.
Qed.

Lemma log2_Zv m e :
  - ebias <= e -> Z.log2 (Zv (Zpos m) e) + 1 - ebias = Zpos (digits2_pos m) + e.
Proof.
  intros He.
  pose proof (Zv_pos_ge_pow m e He) as Hl. pose proof (Zv_pos_lt_pow m e He) as Hu.
  pose proof (digits2_bounds m) as [Hd _].
  assert (0 < Zpos (digits2_pos m)) by lia.
  rewrite (Z.log2_unique (Zv (Zpos m) e) (Zpos (digits2_pos m) - 1 + e + ebias)); [lia|elia|].
  replace (Z.succ (Zpos (digits2_pos m) - 1 + e + ebias))
    with (Zpos (digits2_pos m) + e + ebias) by lia.
  lia.
Qed.

(** The value kept by [binary_round_aux], on the grid of the result. *)
Lemma round_to_Zv mx ex n m1 :
  - ebias <= ex -> 0 <= n -> m1 * 2 ^ n = round_to (2 ^ n) (Zpos mx) ->
  Zv m1 (ex + n) = round_to (2 ^ (ex + n + ebias)) (Zv (Zpos mx) ex).
Proof.
  intros Hex Hn Hm1.
  pose proof (pow2_pos n Hn) as HN. pose proof (pow2_pos (ex + ebias) ltac:(lia)) as HC.
  unfold Zv. replace (ex + n + ebias) with (n + (ex + ebias)) by lia.
  rewrite (pow2_split n (ex + ebias)) by lia.
  rewrite round_to_scale by lia. rewrite <- Hm1. ring.
Qed.

Lemma ulp_at_Zv m e :
  - ebias <= e -> ulp_at (Zv (Zpos m) e) = 2 ^ (fexp64 (Zpos (digits2_pos m) + e) + ebias).
Proof. intros He. unfold ulp_at. now rewrite log2_Zv. Qed.

(** A power of two above a magnitude, representable and far from overflow. *)
Lemma pow2_above mx ex :
  - ebias <= ex -> Zv (Zpos mx) ex < 2 ^ (971 + ebias) ->
  exists mg eg, canonical64 mg eg /\ Zv (Zpos mx) ex <= Zv (Zpos mg) eg /\
                Zv (Zpos mg) eg < 2 ^ (972 + ebias).
Proof.
  intros Hex Hmod.
  pose proof (Zv_pos_ge_pow mx ex Hex) as Hl. pose proof (Zv_pos_lt_pow mx ex Hex) as Hu.
  set (D := Zpos (digits2_pos mx) + ex) in *.
  assert (HD : D <= 971).
  { destruct (Z_le_gt_dec D 971); [assumption|exfalso].
    assert (2 ^ (971 + ebias) <= 2 ^ (Zpos (digits2_pos mx) - 1 + ex + ebias))
      by (apply pow2_le; subst D; elia). lia. }
  set (j := Z.max D (-1074)).
  destruct (pow2_representable j ltac:(lia)) as (g & Hg & Hv & _ & _).
  pose proof (pow2_pos (j + ebias) ltac:(elia)) as Hpos.
  destruct (Fval_positive g _ Hg Hv Hpos) as (mg & eg & Hcan & Heq).
  exists mg, eg. split; [exact Hcan|]. rewrite <- Heq. split.
  - assert (2 ^ (D + ebias) <= 2 ^ (j + ebias)) by (apply pow2_le; elia).
    lia.
  - apply pow2_lt; elia.
Qed.

Lemma binary_round_aux_nearest s mx ex :
  - ebias <= ex -> Zv (Zpos mx) ex < 2 ^ (971 + ebias) ->
  Fval (binary_round_aux prec emax s (Zpos mx) ex loc_Exact)
  = Some (cond_Zopp s (rnd (Zv (Zpos mx) ex))).
Proof.
  intros Hex Hmod.
  pose proof (Zv_pos_gt0 mx ex Hex) as Hpos.
  destruct (pow2_above mx ex Hex Hmod) as (mg & eg & Hcan & Hle & Hsmall).
  pose proof (binary_round_aux_upper s mx ex mg eg Hex Hcan Hle Hsmall) as Hfin.
  destruct (binary_round_aux_nearest_struct s mx ex) as (m1 & Hm1 & Hres).
  set (n := Z.max 0 (fexp64 (Zpos (digits2_pos mx) + ex) - ex)) in *.
  assert (Hn0 : 0 <= n) by (subst n; lia).
  pose proof (round_to_Zv mx ex n m1 Hex Hn0 Hm1) as Hval.
  assert (Hrnd : rnd (Zv (Zpos mx) ex) = Zv m1 (ex + n)).
  { rewrite Hval. destruct (Zv (Zpos mx) ex) as [|v|v] eqn:Ev; try lia.
    cbn [rnd]. rewrite <- Ev, ulp_at_Zv by assumption.
    destruct (Z_le_gt_dec ex (fexp64 (Zpos (digits2_pos mx) + ex))) as [Hshift|Hnoshift].
    - f_equal. f_equal. subst n. lia.
    - assert (n = 0) by (subst n; lia).
      rewrite H, Z.add_0_r.
      assert (Hfe : 0 <= fexp64 (Zpos (digits2_pos mx) + ex) + ebias) by (unfold fexp64; elia).
      pose proof (pow2_pos _ Hfe) as Hu.
      pose proof (pow2_pos (ex + ebias) ltac:(lia)) as Hc.
      rewrite !round_to_divides; auto.
      + exists (Zpos mx). reflexivity.
      + exists (Zpos mx * 2 ^ (ex - fexp64 (Zpos (digits2_pos mx) + ex))).
        unfold Zv. rewrite <- Z.mul_assoc, <- pow2_split by lia. f_equal. f_equal. lia. }
  rewrite Hrnd.
  destruct Hres as [[Hz HR]|(m2 & k & Hk & Hm2 & [[_ HR]|[_ HR]])].
  - rewrite HR, Hz. cbn. unfold Zv. destruct s; reflexivity.
  - rewrite HR. cbn [Fval]. do 2 f_equal.
    rewrite <- Zv_shift by elia. now rewrite Hm2.
  - exfalso. rewrite HR in Hfin. destruct Hfin as [H|(m & e & H & _)]; discriminate H.
Qed.

Lemma binary_round_nearest s mx ex :
  - ebias <= ex -> Zv (Zpos mx) ex < 2 ^ (971 + ebias) ->
  Fval (binary_round prec emax s mx ex) = Some (cond_Zopp s (rnd (Zv (Zpos mx) ex))).
Proof.
  intros Hex Hmod. unfold binary_round. rewrite fexp_eq.
  pose proof (shl_align_value mx ex (fexp64 (Zpos (digits2_pos mx) + ex)) Hex
                ltac:(unfold fexp64; elia)) as [Hv He].
  destruct (shl_align mx ex (fexp64 (Zpos (digits2_pos mx) + ex))) as [mz ez].
  cbn [fst snd] in Hv, He. rewrite <- Hv in Hmod |- *. now apply binary_round_aux_nearest.
Qed.

Lemma rnd_opp v : rnd (- v) = - rnd v.
Proof.
  destruct v as [|p|p]; [reflexivity|reflexivity|].
  change (- Z.neg p) with (Z.pos p). cbn [rnd]. symmetry. apply Z.opp_involutive.
Qed.

Lemma binary_normalize_nearest m e sz :
  - ebias <= e -> moderate (Zv m e) ->
  Fval (binary_normalize prec emax m e sz) = Some (rnd (Zv m e)).
Proof.
  intros He Hmod. unfold moderate in Hmod.
  destruct m as [|p|p]; cbn [binary_normalize].
  - reflexivity.
  - pose proof (Zv_pos_gt0 p e He).
    rewrite binary_round_nearest by (try assumption; lia). reflexivity.
  - pose proof (Zv_pos_gt0 p e He).
    replace (Zv (Zneg p) e) with (- Zv (Zpos p) e) in * by (unfold Zv; lia).
    rewrite binary_round_nearest by (try assumption; lia).
    rewrite rnd_opp. reflexivity.
Qed.

(** A float is its own rounding. *)
Lemma rnd_representable f v :
  valid_binary f = true -> Fval f = Some v -> rnd v = v.
Proof.
  intros Hf Hv. destruct f as [s|s| |s m e]; cbn in Hv; try discriminate; injection Hv as <-.
  - reflexivity.
  - pose proof (finite_valid_emin _ _ _ Hf) as He.
    cbn in Hf. apply bounded_canonical in Hf as [Hc _].
    pose proof (Zv_pos_gt0 m e ltac:(elia)) as Hpos.
    assert (Hr : rnd (Zv (Zpos m) e) = Zv (Zpos m) e).
    { destruct (Zv (Zpos m) e) as [|v|v] eqn:Ev; try lia.
      cbn [rnd]. rewrite <- Ev, ulp_at_Zv by elia.
      unfold canonical64 in Hc. rewrite <- Hc. unfold Zv.
      apply round_to_multiple. apply pow2_pos. elia. }
    destruct s; cbn [cond_Zopp]; [rewrite rnd_opp|]; now rewrite Hr.
Qed.

Lemma SFadd_nearest f1 f2 v1 v2 :
  valid_binary f1 = true -> valid_binary f2 = true ->
  Fval f1 = Some v1 -> Fval f2 = Some v2 -> moderate (v1 + v2) ->
  Fval (SFadd prec emax f1 f2) = Some (rnd (v1 + v2)).
Proof.
  intros Hf1 Hf2 H1 H2 Hmod.
  destruct f1 as [s1|s1| |s1 m1 e1] eqn:E1, f2 as [s2|s2| |s2 m2 e2] eqn:E2;
    try discriminate H1; try discriminate H2.
  - cbn in H1, H2. injection H1 as <-. injection H2 as <-. destruct s1, s2; reflexivity.
  - cbn [SFadd]. cbn in H1. injection H1 as <-. rewrite Z.add_0_l.
    rewrite (rnd_representable _ _ Hf2 H2). exact H2.
  - cbn [SFadd]. cbn in H2. injection H2 as <-. rewrite Z.add_0_r.
    rewrite (rnd_representable _ _ Hf1 H1). exact H1.
  - cbn [SFadd]. cbn [Fval] in H1, H2. injection H1 as <-. injection H2 as <-.
    pose proof (finite_valid_emin _ _ _ Hf1). pose proof (finite_valid_emin _ _ _ Hf2).
    rewrite binary_normalize_nearest; rewrite ?Zv_add, ?aligned_value by elia;
      try reflexivity; try assumption. elia.
Qed.

Lemma SFsub_nearest f1 f2 v1 v2 :
  valid_binary f1 = true -> valid_binary f2 = true ->
  Fval f1 = Some v1 -> Fval f2 = Some v2 -> moderate (v1 - v2) ->
  Fval (SFsub prec emax f1 f2) = Some (rnd (v1 - v2)).
Proof.
  intros Hf1 Hf2 H1 H2 Hmod.
  destruct f1 as [s1|s1| |s1 m1 e1] eqn:E1, f2 as [s2|s2| |s2 m2 e2] eqn:E2;
    try discriminate H1; try discriminate H2.
  - cbn in H1, H2. injection H1 as <-. injection H2 as <-. destruct s1, s2; reflexivity.
  - cbn [SFsub]. cbn in H1. injection H1 as <-. rewrite Z.sub_0_l, rnd_opp.
    rewrite (rnd_representable _ _ Hf2 H2).
    cbn [Fval] in *. injection H2 as <-. destruct s2; cbn [negb cond_Zopp]; f_equal; lia.
  - cbn [SFsub]. cbn in H2. injection H2 as <-. rewrite Z.sub_0_r.
    rewrite (rnd_representable _ _ Hf1 H1). exact H1.
  - cbn [SFsub]. cbn [Fval] in H1, H2. injection H1 as <-. injection H2 as <-.
    pose proof (finite_valid_emin _ _ _ Hf1). pose proof (finite_valid_emin _ _ _ Hf2).
    rewrite binary_normalize_nearest; rewrite ?Zv_sub, ?aligned_value by elia;
      try reflexivity; try assumption. elia.
Qed.

Lemma SFmul_nearest f1 f2 v1 v2 :
  valid_binary f1 = true -> valid_binary f2 = true ->
  Fval f1 = Some v1 -> Fval f2 = Some v2 -> moderate (v1 * v2 / 2 ^ ebias) ->
  Fval (SFmul prec emax f1 f2) = Some (rnd (v1 * v2 / 2 ^ ebias)).
Proof.
  intros Hf1 Hf2 H1 H2 Hmod.
  pose proof (pow2_pos ebias ltac:(elia)) as HB.
  destruct f1 as [s1|s1| |s1 m1 e1] eqn:E1, f2 as [s2|s2| |s2 m2 e2] eqn:E2;
    try discriminate H1; try discriminate H2;
    cbn [Fval] in H1, H2; injection H1 as <-; injection H2 as <-.
  - reflexivity.
  - reflexivity.
  - cbn [SFmul Fval]. rewrite Z.mul_0_r. reflexivity.
  - cbn [SFmul].
    pose proof (finite_valid_emin _ _ _ Hf1). pose proof (finite_valid_emin _ _ _ Hf2).
    rewrite cond_Zopp_mul, Zv_mul in Hmod |- * by elia.
    assert (Hdiv : forall s a, cond_Zopp s (a * 2 ^ ebias) / 2 ^ ebias = cond_Zopp s a).
    { intros s a. destruct s; cbn [cond_Zopp].
      - rewrite <- Z.mul_opp_l. apply Z.div_mul. lia.
      - apply Z.div_mul. lia. }
    rewrite Hdiv in Hmod |- *.
    rewrite Pos2Z.inj_mul, <- Pos2Z.inj_mul.
    rewrite binary_round_aux_nearest.
    + f_equal. destruct (xorb s1 s2); cbn [cond_Zopp]; [now rewrite rnd_opp|reflexivity].
    + elia.
    + unfold moderate in Hmod. rewrite Pos2Z.inj_mul.
      destruct (xorb s1 s2); cbn [cond_Zopp] in Hmod; lia.
Qed.

(** ** Rounding is monotone *)

Lemma round_to_nonneg u v : 0 < u -> 0 <= v -> 0 <= round_to u v.
Proof.
  intros Hu Hv. pose proof (round_to_bounds u v Hu) as [H _].
  assert (0 <= v / u) by (apply Z.div_pos; lia). nia.
Qed.

Lemma ulp_at_pos v : 0 < ulp_at v.
Proof. unfold ulp_at. apply pow2_pos. unfold fexp64. elia. Qed.

Lemma rnd_pos_mono a b :
  0 < a -> a <= b -> round_to (ulp_at a) a <= round_to (ulp_at b) b.
Proof.
  intros Ha Hab.
  pose proof (Z.log2_le_mono a b Hab) as Hlog.
  pose proof (Z.log2_spec a Ha) as [Hal Hau].
  pose proof (Z.log2_spec b ltac:(lia)) as [Hbl Hbu].
  pose proof (Z.log2_nonneg a) as Ha0.
  destruct (Z.eq_dec (fexp64 (Z.log2 a + 1 - ebias)) (fexp64 (Z.log2 b + 1 - ebias)))
    as [Hsame|Hdiff].
  - unfold ulp_at. rewrite Hsame. apply round_to_mono; [|exact Hab].
    apply pow2_pos. unfold fexp64. elia.
  - set (fa := fexp64 (Z.log2 a + 1 - ebias)) in *.
    set (fb := fexp64 (Z.log2 b + 1 - ebias)) in *.
    assert (Hfa : fa = Z.max (Z.log2 a + 1 - ebias - 53) (-1074)) by reflexivity.
    assert (Hfb : fb = Z.max (Z.log2 b + 1 - ebias - 53) (-1074)) by reflexivity.
    assert (Hlt : Z.log2 a < Z.log2 b) by lia.
    assert (Hfb' : fb = Z.log2 b + 1 - ebias - 53) by lia.
    (* a power of two between the two numbers, on both grids *)
    set (j := Z.max (Z.log2 a + 1) (ebias - 1074)).
    assert (Hj : j <= Z.log2 b) by (subst j; unfold ebias in *; lia).
    assert (Hja : fa + ebias <= j) by (subst j; unfold ebias in *; lia).
    assert (Hfa0 : 0 <= fa + ebias) by (unfold ebias in *; lia).
    assert (Hfb0 : 0 <= fb + ebias) by (unfold ebias in *; lia).
    assert (Hjb : fb + ebias <= Z.log2 b) by (unfold ebias in *; lia).
    pose proof (pow2_pos (fa + ebias) Hfa0) as Hua.
    pose proof (pow2_pos (fb + ebias) Hfb0) as Hub.
    assert (Haj : a <= 2 ^ j).
    { assert (2 ^ Z.succ (Z.log2 a) <= 2 ^ j) by (apply pow2_le; subst j; lia). lia. }
    assert (Hjp : 2 ^ j <= 2 ^ Z.log2 b) by (apply pow2_le; lia).
    transitivity (2 ^ j).
    + replace (2 ^ j) with (2 ^ (j - (fa + ebias)) * 2 ^ (fa + ebias))
        by (rewrite <- pow2_split by lia; f_equal; lia).
      rewrite <- (round_to_multiple (2 ^ (fa + ebias)) (2 ^ (j - (fa + ebias)))) by exact Hua.
      unfold ulp_at. fold fa. apply round_to_mono; [exact Hua|].
      rewrite <- pow2_split by lia. replace (j - (fa + ebias) + (fa + ebias)) with j by lia.
      exact Haj.
    + transitivity (2 ^ Z.log2 b); [exact Hjp|].
      replace (2 ^ Z.log2 b) with (2 ^ (Z.log2 b - (fb + ebias)) * 2 ^ (fb + ebias))
        by (rewrite <- pow2_split by lia; f_equal; lia).
      rewrite <- (round_to_multiple (2 ^ (fb + ebias)) (2 ^ (Z.log2 b - (fb + ebias)))) at 1
        by exact Hub.
      unfold ulp_at. fold fb. apply round_to_mono; [exact Hub|].
      rewrite <- pow2_split by lia.
      replace (Z.log2 b - (fb + ebias) + (fb + ebias)) with (Z.log2 b) by lia.
      exact Hbl.
Qed.

Lemma rnd_nonneg v : 0 <= v -> 0 <= rnd v.
Proof.
  destruct v as [|p|p]; intros H; try lia; [reflexivity|].
  cbn [rnd]. apply round_to_nonneg; [apply ulp_at_pos|lia].
Qed.

Lemma rnd_mono a b : a <= b -> rnd a <= rnd b.
Proof.
  intros Hab.
  destruct a as [|a|a], b as [|b|b]; try lia.
  - apply (rnd_nonneg (Zpos b)). lia.
  - cbn [rnd]. apply rnd_pos_mono; lia.
  - pose proof (rnd_nonneg (Zpos a) ltac:(lia)). cbn [rnd] in *. lia.
  - pose proof (rnd_nonneg (Zpos a) ltac:(lia)). pose proof (rnd_nonneg (Zpos b) ltac:(lia)).
    cbn [rnd] in *. lia.
  - cbn [rnd]. pose proof (rnd_pos_mono (Zpos b) (Zpos a) ltac:(lia) ltac:(lia)). lia.
Qed.

(** ** Primitive floats: exact results and monotone operations *)

Lemma add_exact x y vx vy :
  FV x = Some vx -> FV y = Some vy -> moderate (vx + vy) ->
  FV (x + y)%float = Some (rnd (vx + vy)).
Proof.
  intros Hx Hy Hm. unfold FV. rewrite add_spec.
  apply SFadd_nearest; auto using Prim2SF_valid.
Qed.

Lemma sub_exact x y vx vy :
  FV x = Some vx -> FV y = Some vy -> moderate (vx - vy) ->
  FV (x - y)%float = Some (rnd (vx - vy)).
Proof.
  intros Hx Hy Hm. unfold FV. rewrite sub_spec.
  apply SFsub_nearest; auto using Prim2SF_valid.
Qed.

Lemma mul_exact x y vx vy :
  FV x = Some vx -> FV y = Some vy -> moderate (vx * vy / 2 ^ ebias) ->
  FV (x * y)%float = Some (rnd (vx * vy / 2 ^ ebias)).
Proof.
  intros Hx Hy Hm. unfold FV. rewrite mul_spec.
  apply SFmul_nearest; auto using Prim2SF_valid.
Qed.

Lemma tame_FV x :
  tame x = true -> exists v, FV x = Some v /\ Z.abs v <= 2 ^ (333 + ebias).
Proof.
  intros H. unfold tame in H.
  assert (Hc : exists V, FV 1e100%float = Some V /\ FV (-1e100)%float = Some (- V)
                         /\ V <= 2 ^ (333 + ebias)).
  { eexists. split; [vm_compute; reflexivity|]. split; [vm_compute; reflexivity|].
    vm_compute. discriminate. }
  destruct Hc as (V & Hhi & Hlo & HV).
  destruct (between_FV _ _ _ _ _ Hlo Hhi H) as (v & Hv & Hb).
  exists v. split; [exact Hv|]. lia.
Qed.

Lemma moderate_sum a b :
  Z.abs a <= 2 ^ (333 + ebias) -> Z.abs b <= 2 ^ (333 + ebias) ->
  moderate (a + b) /\ moderate (a - b).
Proof.
  intros Ha Hb. unfold moderate.
  assert (2 * 2 ^ (333 + ebias) < 2 ^ (971 + ebias)).
  { replace (2 * 2 ^ (333 + ebias)) with (2 ^ (334 + ebias)).
    - apply pow2_lt; elia.
    - replace (334 + ebias) with (1 + (333 + ebias)) by lia.
      rewrite pow2_split by elia. reflexivity. }
  lia.
Qed.

Lemma moderate_product a b :
  Z.abs a <= 2 ^ (333 + ebias) -> Z.abs b <= 2 ^ (333 + ebias) ->
  moderate (a * b / 2 ^ ebias).
Proof.
  intros Ha Hb. unfold moderate.
  pose proof (pow2_pos ebias ltac:(elia)) as HB.
  pose proof (pow2_pos (333 + ebias) ltac:(elia)) as HT.
  assert (Hab : Z.abs (a * b) <= 2 ^ (666 + ebias) * 2 ^ ebias).
  { rewrite Z.abs_mul. rewrite <- pow2_split by elia.
    replace (666 + ebias + ebias) with ((333 + ebias) + (333 + ebias)) by lia.
    rewrite pow2_split by elia. apply Z.mul_le_mono_nonneg; lia. }
  assert (Hlt : 2 ^ (666 + ebias) < 2 ^ (971 + ebias)) by (apply pow2_lt; elia).
  assert (Hq : - 2 ^ (666 + ebias) <= a * b / 2 ^ ebias <= 2 ^ (666 + ebias)).
  { split.
    - apply Z.div_le_lower_bound; lia.
    - apply Z.div_le_upper_bound; lia. }
  lia.
Qed.

Lemma add_le x x' y y' :
  tame x = true -> tame x' = true -> tame y = true -> tame y' = true ->
  (x <=? x')%float = true -> (y <=? y')%float = true ->
  (x + y <=? x' + y')%float = true.
Proof.
  intros Tx Tx' Ty Ty' Hx Hy.
  destruct (tame_FV x Tx) as (vx & Hvx & Bx), (tame_FV x' Tx') as (vx' & Hvx' & Bx'),
           (tame_FV y Ty) as (vy & Hvy & By), (tame_FV y' Ty') as (vy' & Hvy' & By').
  rewrite (leb_FV x x' vx vx') in Hx by assumption.
  rewrite (leb_FV y y' vy vy') in Hy by assumption.
  apply Z.leb_le in Hx, Hy.
  rewrite (leb_FV _ _ (rnd (vx + vy)) (rnd (vx' + vy'))).
  - apply Z.leb_le, rnd_mono. lia.
  - apply add_exact; auto. now apply moderate_sum.
  - apply add_exact; auto. now apply moderate_sum.
Qed.

Lemma sub_le x x' y y' :
  tame x = true -> tame x' = true -> tame y = true -> tame y' = true ->
  (x <=? x')%float = true -> (y' <=? y)%float = true ->
  (x - y <=? x' - y')%float = true.
Proof.
  intros Tx Tx' Ty Ty' Hx Hy.
  destruct (tame_FV x Tx) as (vx & Hvx & Bx), (tame_FV x' Tx') as (vx' & Hvx' & Bx'),
           (tame_FV y Ty) as (vy & Hvy & By), (tame_FV y' Ty') as (vy' & Hvy' & By').
  rewrite (leb_FV x x' vx vx') in Hx by assumption.
  rewrite (leb_FV y' y vy' vy) in Hy by assumption.
  apply Z.leb_le in Hx, Hy.
  rewrite (leb_FV _ _ (rnd (vx - vy)) (rnd (vx' - vy'))).
  - apply Z.leb_le, rnd_mono. lia.
  - apply sub_exact; auto. now apply moderate_sum.
  - apply sub_exact; auto. now apply moderate_sum.
Qed.

Lemma mul_le_nonneg x x' y y' :
  tame x = true -> tame x' = true -> tame y = true -> tame y' = true ->
  (0 <=? x)%float = true -> (x <=? x')%float = true ->
  (0 <=? y)%float = true -> (y <=? y')%float = true ->
  (x * y <=? x' * y')%float = true.
Proof.
  intros Tx Tx' Ty Ty' Hx0 Hx Hy0 Hy.
  destruct (tame_FV x Tx) as (vx & Hvx & Bx), (tame_FV x' Tx') as (vx' & Hvx' & Bx'),
           (tame_FV y Ty) as (vy & Hvy & By), (tame_FV y' Ty') as (vy' & Hvy' & By').
  rewrite (leb_FV x x' vx vx') in Hx by assumption.
  rewrite (leb_FV y y' vy vy') in Hy by assumption.
  rewrite (leb_FV 0 x 0 vx) in Hx0 by auto using FV_zero.
  rewrite (leb_FV 0 y 0 vy) in Hy0 by auto using FV_zero.
  apply Z.leb_le in Hx, Hy, Hx0, Hy0.
  pose proof (pow2_pos ebias ltac:(elia)) as HB.
  rewrite (leb_FV _ _ (rnd (vx * vy / 2 ^ ebias)) (rnd (vx' * vy' / 2 ^ ebias))).
  - apply Z.leb_le, rnd_mono. apply Z.div_le_mono; [lia|]. apply Z.mul_le_mono_nonneg; lia.
  - apply mul_exact; auto. now apply moderate_product.
  - apply mul_exact; auto. now apply moderate_product.
Qed.

(** Multiplying by a non-negative number keeps the order, whatever the signs. *)
Lemma mul_le_r x x' k :
  tame x = true -> tame x' = true -> tame k = true ->
  (0 <=? k)%float = true -> (x <=? x')%float = true ->
  (x * k <=? x' * k)%float = true.
Proof.
  intros Tx Tx' Tk Hk Hx.
  destruct (tame_FV x Tx) as (vx & Hvx & Bx), (tame_FV x' Tx') as (vx' & Hvx' & Bx'),
           (tame_FV k Tk) as (vk & Hvk & Bk).
  rewrite (leb_FV x x' vx vx') in Hx by assumption.
  rewrite (leb_FV 0 k 0 vk) in Hk by auto using FV_zero.
  apply Z.leb_le in Hx, Hk.
  pose proof (pow2_pos ebias ltac:(elia)) as HB.
  rewrite (leb_FV _ _ (rnd (vx * vk / 2 ^ ebias)) (rnd (vx' * vk / 2 ^ ebias))).
  - apply Z.leb_le, rnd_mono. apply Z.div_le_mono; [lia|]. apply Z.mul_le_mono_nonneg_r; lia.
  - apply mul_exact; auto. now apply moderate_product.
  - apply mul_exact; auto. now apply moderate_product.
Qed.

Lemma mul_le_l k x x' :
  tame x = true -> tame x' = true -> tame k = true ->
  (0 <=? k)%float = true -> (x <=? x')%float = true ->
  (k * x <=? k * x')%float = true.
Proof.
  intros Tx Tx' Tk Hk Hx.
  destruct (tame_FV x Tx) as (vx & Hvx & Bx), (tame_FV x' Tx') as (vx' & Hvx' & Bx'),
           (tame_FV k Tk) as (vk & Hvk & Bk).
  rewrite (leb_FV x x' vx vx') in Hx by assumption.
  rewrite (leb_FV 0 k 0 vk) in Hk by auto using FV_zero.
  apply Z.leb_le in Hx, Hk.
  pose proof (pow2_pos ebias ltac:(elia)) as HB.
  rewrite (leb_FV _ _ (rnd (vk * vx / 2 ^ ebias)) (rnd (vk * vx' / 2 ^ ebias))).
  - apply Z.leb_le, rnd_mono. apply Z.div_le_mono; [lia|]. apply Z.mul_le_mono_nonneg_l; lia.
  - apply mul_exact; auto. now apply moderate_product.
  - apply mul_exact; auto. now apply moderate_product.
Qed.

Lemma between_tame lo x hi :
  between lo x hi = true -> tame lo = true -> tame hi = true -> tame x = true.
Proof.
  intros H Hlo Hhi. unfold tame, between in *.
  apply andb_prop in H as [H1 H2], Hlo as [Hlo _], Hhi as [_ Hhi].
  apply andb_true_intro; split; eauto using leb_trans.
Qed.

Lemma between_weaken lo' hi' lo x hi :
  between lo x hi = true -> (lo' <=? lo)%float = true -> (hi <=? hi')%float = true ->
  between lo' x hi' = true.
Proof.
  intros H Hlo Hhi. unfold between in *. apply andb_prop in H as [H1 H2].
  apply andb_true_intro; split; eauto using leb_trans.
Qed.

Lemma between_point c : is_nan c = false -> between c c c = true.
Proof. intros H. unfold between. now rewrite leb_refl_float. Qed.

(** ** Interval arithmetic with computed end points *)

Lemma add_between la a ha lb b hb :
  between la a ha = true -> between lb b hb = true ->
  tame la = true -> tame ha = true -> tame lb = true -> tame hb = true ->
  between (la + lb) (a + b) (ha + hb) = true.
Proof.
  intros Ha Hb Tla Tha Tlb Thb.
  pose proof (between_tame _ _ _ Ha Tla Tha) as Ta.
  pose proof (between_tame _ _ _ Hb Tlb Thb) as Tb.
  unfold between in *. apply andb_prop in Ha as [Ha1 Ha2], Hb as [Hb1 Hb2].
  apply andb_true_intro; split; now apply add_le.
Qed.

Lemma sub_between la a ha lb b hb :
  between la a ha = true -> between lb b hb = true ->
  tame la = true -> tame ha = true -> tame lb = true -> tame hb = true ->
  between (la - hb) (a - b) (ha - lb) = true.
Proof.
  intros Ha Hb Tla Tha Tlb Thb.
  pose proof (between_tame _ _ _ Ha Tla Tha) as Ta.
  pose proof (between_tame _ _ _ Hb Tlb Thb) as Tb.
  unfold between in *. apply andb_prop in Ha as [Ha1 Ha2], Hb as [Hb1 Hb2].
  apply andb_true_intro; split; now apply sub_le.
Qed.

Lemma mul_between_nonneg la a ha lb b hb :
  between la a ha = true -> between lb b hb = true ->
  tame la = true -> tame ha = true -> tame lb = true -> tame hb = true ->
  (0 <=? la)%float = true -> (0 <=? lb)%float = true ->
  between (la * lb) (a * b) (ha * hb) = true.
Proof.
  intros Ha Hb Tla Tha Tlb Thb Hla Hlb.
  pose proof (between_tame _ _ _ Ha Tla Tha) as Ta.
  pose proof (between_tame _ _ _ Hb Tlb Thb) as Tb.
  unfold between in *. apply andb_prop in Ha as [Ha1 Ha2], Hb as [Hb1 Hb2].
  apply andb_true_intro; split; apply mul_le_nonneg; eauto using leb_trans.
Qed.

Lemma mul_between_r la a ha k :
  between la a ha = true ->
  tame la = true -> tame ha = true -> tame k = true -> (0 <=? k)%float = true ->
  between (la * k) (a * k) (ha * k) = true.
Proof.
  intros Ha Tla Tha Tk Hk.
  pose proof (between_tame _ _ _ Ha Tla Tha) as Ta.
  unfold between in *. apply andb_prop in Ha as [Ha1 Ha2].
  apply andb_true_intro; split; now apply mul_le_r.
Qed.

Lemma mul_between_l k la a ha :
  between la a ha = true ->
  tame la = true -> tame ha = true -> tame k = true -> (0 <=? k)%float = true ->
  between (k * la) (k * a) (k * ha) = true.
Proof.
  intros Ha Tla Tha Tk Hk.
  pose proof (between_tame _ _ _ Ha Tla Tha) as Ta.
  unfold between in *. apply andb_prop in Ha as [Ha1 Ha2].
  apply andb_true_intro; split; now apply mul_le_l.
Qed.

(** A number between two tame floats is finite. *)
Lemma between_finite lo x hi :
  between lo x hi = true -> tame lo = true -> tame hi = true -> is_finite x = true.
Proof.
  intros H Tlo Thi. pose proof (between_tame _ _ _ H Tlo Thi) as T.
  destruct (tame_FV x T) as (v & Hv & _).
  unfold is_finite, is_nan, is_infinity. rewrite !eqb_spec, abs_spec.
  unfold FV in Hv. destruct (Prim2SF x) as [s|s| |s m e]; try discriminate Hv.
  - reflexivity.
  - cbn [SFabs]. change (Prim2SF infinity) with (S754_infinity false).
    unfold SFeqb. rewrite SFcompare_refl by discriminate. reflexivity.
Qed.

Ltac closed := vm_compute; reflexivity.

(** Bounds of an expression from the bounds of its leaves: hypotheses in
    the context, or constants. *)
Ltac interval :=
  lazymatch goal with
  | |- between _ (?a + ?b)%float _ = true =>
      eapply add_between; [interval | interval | closed ..]
  | |- between _ (?a - ?b)%float _ = true =>
      eapply sub_between; [interval | interval | closed ..]
  | |- between _ (?a * ?b)%float _ = true =>
      first [ eassumption
            | eapply mul_between_r; [interval | closed ..]
            | eapply mul_between_l; [interval | closed ..]
            | eapply mul_between_nonneg; [interval | interval | closed ..] ]
  | Hs : sine_contract ?f |- between _ (?f ?a) _ = true =>
      first [ eassumption
            | apply (Hs a); eapply between_finite; [interval | closed | closed] ]
  | |- between _ _ _ = true =>
      first [ eassumption | apply between_point; closed ]
  end.

Ltac bounds := eapply between_weaken; [interval | closed | closed].


(** A comparison through a bound. *)
Lemma ltb_leb_trans c lo x :
  (c <? lo)%float = true -> (lo <=? x)%float = true -> (c <? x)%float = true.
Proof.
  intros H1 H2.
  pose proof (ltb_leb _ _ H1) as H1'.
  destruct (leb_not_nan _ _ H1') as [Hc Hlo], (leb_not_nan _ _ H2) as [_ Hx].
  destruct (float_cmp_Fext c lo Hc Hlo) as (a & b & Ha & Hb & Hab).
  destruct (float_cmp_Fext lo x Hlo Hx) as (b' & d & Hb' & Hd & Hbd).
  destruct (float_cmp_Fext c x Hc Hx) as (a' & d' & Ha' & Hd' & Had).
  assert (b' = b) by congruence. assert (a' = a) by congruence.
  assert (d' = d) by congruence. subst.
  rewrite ltb_cmp in *. rewrite leb_cmp in H2. rewrite Hab in H1. rewrite Hbd in H2. rewrite Had.
  destruct (Z.compare_spec a b), (Z.compare_spec b d); try discriminate;
    destruct (Z.compare_spec a d); try reflexivity; lia.
Qed.

(** [Math.max(x, c)] is [x] when [x] is above [c]. *)
Lemma Math_max_inert x c : (c <? x)%float = true -> Math_max [x; c] = x.
Proof.
  intros H.
  destruct (leb_not_nan _ _ (ltb_leb _ _ H)) as [Hc Hx].
  assert (Hinf : (neg_infinity <? x)%float = true).
  { rewrite ltb_cmp in *. unfold float_cmp in *.
    change (Prim2SF neg_infinity) with (S754_infinity true).
    destruct (Prim2SF x) as [sx|[|]| |sx mx ex]; cbn; try reflexivity;
      destruct (Prim2SF c) as [sc|[|]| |[|] mc ec]; cbn in H; discriminate H. }
  assert (Hxc : (x <? c)%float = false).
  { rewrite ltb_cmp in *. rewrite (float_cmp_antisym c x).
    destruct (float_cmp c x) as [[| |]|]; try discriminate H. reflexivity. }
  assert (Hz : is_pos_zero c && is_neg_zero x = false).
  { destruct (is_pos_zero c) eqn:Ec; [|reflexivity]. cbn [andb].
    unfold is_pos_zero in Ec. apply andb_prop in Ec as [Ec _].
    unfold is_neg_zero. destruct (is_zero x) eqn:Ex; [|reflexivity]. exfalso.
    unfold is_zero in Ec, Ex. rewrite eqb_cmp in Ec, Ex. change zero with 0%float in Ec, Ex.
    destruct (float_cmp c 0%float) as [[| |]|] eqn:E1; try discriminate Ec.
    destruct (float_cmp x 0%float) as [[| |]|] eqn:E2; try discriminate Ex.
    rewrite ltb_cmp in H.
    destruct (float_cmp_zero_eq _ E1) as [-> | ->], (float_cmp_zero_eq _ E2) as [-> | ->];
      discriminate H. }
  unfold Math_max. cbn [existsb fold_left]. rewrite Hx, Hc. cbn [orb].
  rewrite Hinf, orb_true_r. rewrite Hz, Hxc. reflexivity.
Qed.

(* ================================================================== *)
(** * Part VII: the painted frame                                     *)
(* ================================================================== *)

Local Close Scope Z_scope.


(** ** Loop counters as numbers *)

Lemma forallb_below (P : nat -> bool) n :
  forallb P (seq 0 n) = true -> forall i, (i < n)%nat -> P i = true.
Proof.
  intros H i Hi. rewrite forallb_forall in H. apply H. apply in_seq. lia.
Qed.

Lemma particle_index i :
  (i < NUM_PARTICLES)%nat ->
  between 0 (js_num i) 139 = true /\
  between 0 (angle_of i NUM_PARTICLES) 6.25 = true.
Proof.
  intros Hi.
  pose proof (forallb_below
    (fun i => between 0 (js_num i) 139 && between 0 (angle_of i NUM_PARTICLES) 6.25)
    NUM_PARTICLES ltac:(vm_compute; reflexivity) i Hi) as H.
  cbv beta in H. now apply andb_prop in H.
Qed.

Lemma inner_index i :
  (i < numInner)%nat ->
  between 0 (js_num i) 29 = true /\
  between 25 (orbitRadius i) 70 = true.
Proof.
  intros Hi.
  pose proof (forallb_below
    (fun i => between 0 (js_num i) 29 && between 25 (orbitRadius i) 70)
    numInner ltac:(vm_compute; reflexivity) i Hi) as H.
  cbv beta in H. now apply andb_prop in H.
Qed.

Ltac tamed := first [closed | eapply between_tame; [interval | closed | closed]].

Ltac nonneg :=
  first [ closed | assumption
        | eapply leb_trans; [ | eapply between_left; interval ]; closed ].

(** [f e1 <= f e2] from [e1 <= e2], through sums and products by
    non-negative numbers. *)
Ltac monotone :=
  lazymatch goal with
  | |- (?a + ?b <=? ?a' + ?b')%float = true =>
      apply add_le; [tamed | tamed | tamed | tamed | monotone | monotone]
  | |- (?a - ?b <=? ?a' - ?b')%float = true =>
      apply sub_le; [tamed | tamed | tamed | tamed | monotone | monotone]
  | |- (?a * ?k <=? ?a' * ?k)%float = true =>
      apply mul_le_r; [tamed | tamed | tamed | nonneg | monotone]
  | |- (?k * ?a <=? ?k * ?a')%float = true =>
      apply mul_le_l; [tamed | tamed | tamed | nonneg | monotone]
  | |- (?a <=? ?a)%float = true =>
      apply leb_refl_float;
      first [ closed
            | eapply proj1; eapply leb_not_nan; eapply between_right; interval ]
  | |- (_ <=? _)%float = true => assumption
  end.

Section Frame.
Variable Math_sin : float -> float.
Hypothesis Hsin : sine_contract Math_sin.
Variables t e : float.
Hypothesis Ht : between 0 t 9007199254740992 = true.
Hypothesis He : between 0 e 1 = true.

Lemma particlePhase_between i :
  (i < NUM_PARTICLES)%nat -> between 0.39999999999999997 (particlePhase Math_sin t i) 1 = true.
Proof using Hsin Ht.
  intros Hi. destruct (particle_index i Hi) as [Hnum Hang].
  unfold particlePhase. bounds.
Qed.

Lemma particleRadius_between i :
  (i < NUM_PARTICLES)%nat -> between 115.8 (particleRadius Math_sin t e i) 256.2 = true.
Proof using Hsin Ht He.
  intros Hi. destruct (particle_index i Hi) as [Hnum Hang].
  unfold particleRadius, idleOffset, reactiveOffset, reactiveBase, particlePhase. bounds.
Qed.

Lemma particleSize_between i :
  (i < NUM_PARTICLES)%nat ->
  between 0.7999999999999999 (particleSize Math_sin t e i) 3.9 = true.
Proof using Hsin Ht He.
  intros Hi. destruct (particle_index i Hi) as [Hnum Hang].
  unfold particleSize, lerp, particlePhase. bounds.
Qed.

Lemma iSize_between i :
  (i < numInner)%nat -> between 0.30000000000000004 (iSize Math_sin t i) 1.3 = true.
Proof using Hsin Ht.
  intros Hi. destruct (inner_index i Hi) as [Hnum Horb].
  unfold iSize. bounds.
Qed.

Lemma innerAlpha_between i :
  (i < numInner)%nat -> between 0.05 (innerAlpha Math_sin t e i) 0.39999999999999997 = true.
Proof using Hsin Ht He.
  intros Hi. destruct (inner_index i Hi) as [Hnum Horb].
  unfold innerAlpha. bounds.
Qed.

Lemma orbit_between i :
  (i < numInner)%nat ->
  between 20 (orbitRadius i + wobble Math_sin t i) 75 = true.
Proof using Hsin Ht.
  intros Hi. destruct (inner_index i Hi) as [Hnum Horb].
  unfold wobble. bounds.
Qed.

Lemma coreRadius_between : between 1.5 (coreRadius Math_sin t e) 10.5 = true.
Proof using Hsin Ht He.
  unfold coreRadius. bounds.
Qed.

End Frame.

Local Open Scope Z_scope.

(** ** Integers as numbers, and [Math.round] *)

Lemma rnd_integer z : 0 <= z < 2 ^ 53 -> rnd (z * 2 ^ ebias) = z * 2 ^ ebias.
Proof.
  intros [Hz0 Hz53].
  pose proof (pow2_pos ebias ltac:(elia)) as HB.
  destruct (Z.eq_dec z 0) as [->|Hnz]; [reflexivity|].
  assert (Hpos : 0 < z * 2 ^ ebias) by nia.
  destruct (z * 2 ^ ebias) as [|v|v] eqn:Ev; try lia.
  cbn [rnd]. rewrite <- Ev. unfold ulp_at.
  rewrite Z.log2_mul_pow2 by elia.
  assert (Hlog : 0 <= Z.log2 z < 53).
  { split; [apply Z.log2_nonneg|]. apply Z.log2_lt_pow2; lia. }
  match goal with |- context [fexp64 ?d] => set (f := fexp64 d) end.
  assert (Hf : -1074 <= f <= 0) by (subst f; unfold fexp64, ebias; lia).
  apply round_to_divides; [apply pow2_pos; elia|].
  exists (z * 2 ^ (- f)). rewrite <- Z.mul_assoc, <- pow2_split by elia.
  do 2 f_equal. lia.
Qed.

Lemma FV_Z2float z : 0 <= z < 2 ^ 53 -> FV (Z2float z) = Some (z * 2 ^ ebias).
Proof.
  intros [Hz0 Hz53]. unfold Z2float.
  replace (z <? 0) with false by (symmetry; apply Z.ltb_ge; lia).
  unfold FV. rewrite of_uint63_spec, Uint63.of_Z_spec.
  rewrite Z.mod_small.
  2:{ split; [lia|]. assert (2 ^ 53 < Uint63.wB) by (vm_compute; reflexivity). lia. }
  rewrite binary_normalize_nearest.
  - unfold Zv. rewrite Z.add_0_l. now rewrite rnd_integer.
  - elia.
  - unfold moderate, Zv. rewrite Z.add_0_l.
    pose proof (pow2_pos ebias ltac:(elia)) as HB.
    assert (2 ^ 53 * 2 ^ ebias < 2 ^ (971 + ebias)).
    { rewrite <- pow2_split by elia. apply pow2_lt; elia. }
    rewrite Z.abs_eq by nia. nia.
Qed.

(** On a number between two positive integers, [Math.round] gives the
    Number of an integer between them. *)
Lemma Math_round_spec x v a b :
  FV x = Some v -> 0 < a -> b < 2 ^ 52 ->
  a * 2 ^ ebias <= v <= b * 2 ^ ebias ->
  exists z, a <= z <= b /\ Math_round x = Z2float z.
Proof.
  intros Hx Ha Hb [Hlo Hhi].
  pose proof (pow2_pos ebias ltac:(elia)) as HB.
  unfold Math_round. unfold FV in Hx. pose proof (Prim2SF_valid x) as Hvalid.
  destruct (Prim2SF x) as [s|s| |s m e]; cbn [Fval] in Hx; try discriminate Hx;
    injection Hx as <-.
  - nia.
  - pose proof (finite_valid_emin _ _ _ Hvalid) as He.
    cbn in Hvalid. apply bounded_canonical in Hvalid as [Hcan _].
    pose proof (Zv_pos_gt0 m e ltac:(elia)) as Hpos.
    destruct s; cbn [cond_Zopp] in *; [nia|].
    assert (Hneg : e < 0).
    { destruct (Z_lt_le_dec e 0) as [|Hge]; [assumption|exfalso].
      unfold canonical64, fexp64 in Hcan.
      pose proof (digits2_bounds m) as [Hd _].
      assert (Hd53 : Zpos (digits2_pos m) = 53) by lia.
      rewrite Hd53 in Hd. change (53 - 1) with 52 in Hd.
      unfold Zv in Hhi.
      assert (2 ^ ebias <= 2 ^ (e + ebias)) by (apply pow2_le; elia).
      nia. }
    replace (0 <=? e) with false by (symmetry; apply Z.leb_gt; lia).
    set (N := 2 ^ (- e)).
    assert (HN : 0 < N) by (apply pow2_pos; lia).
    assert (H2N : 2 ^ (1 - e) = 2 * N).
    { subst N. replace (1 - e) with (1 + - e) by lia. rewrite pow2_split by lia. reflexivity. }
    assert (HBN : 2 ^ ebias = N * 2 ^ (e + ebias)).
    { subst N. rewrite <- pow2_split by elia. f_equal. lia. }
    pose proof (pow2_pos (e + ebias) ltac:(elia)) as Hc.
    unfold Zv in Hlo, Hhi. rewrite HBN in Hlo, Hhi.
    assert (HmL : a * N <= Zpos m) by nia.
    assert (HmH : Zpos m <= b * N) by nia.
    rewrite H2N.
    set (z := (2 * Zpos m + N) / (2 * N)).
    assert (Hza : a <= z) by (apply Z.div_le_lower_bound; nia).
    assert (Hzb : z < b + 1) by (apply Z.div_lt_upper_bound; nia).
    replace (z =? 0) with false by (symmetry; apply Z.eqb_neq; lia).
    exists z. split; [lia|reflexivity].
Qed.

Lemma FV_between_int x a b :
  between (Z2float a) x (Z2float b) = true ->
  0 <= a < 2 ^ 53 -> 0 <= b < 2 ^ 53 ->
  exists v, FV x = Some v /\ a * 2 ^ ebias <= v <= b * 2 ^ ebias.
Proof.
  intros H Ha Hb.
  apply (between_FV _ _ _ _ _ (FV_Z2float a Ha) (FV_Z2float b Hb) H).
Qed.

(** Rounding a number between two integers of [1 .. 255] gives a colour
    channel between them. *)
Lemma Math_round_channel x a b :
  between (Z2float a) x (Z2float b) = true -> 0 < a -> a <= b -> b <= 255 ->
  exists z, a <= z <= b /\ Math_round x = Z2float z /\
            between (Z2float a) (Math_round x) (Z2float b) = true.
Proof.
  intros H Ha Hab Hb.
  assert (H255 : 255 < 2 ^ 52) by (vm_compute; reflexivity).
  assert (H53 : 2 ^ 52 < 2 ^ 53) by (vm_compute; reflexivity).
  destruct (FV_between_int x a b H ltac:(lia) ltac:(lia)) as (v & Hv & Hb').
  destruct (Math_round_spec x v a b Hv Ha ltac:(lia) Hb') as (z & Hz & Hr).
  exists z. split; [exact Hz|]. split; [exact Hr|].
  rewrite Hr.
  pose proof (pow2_pos ebias ltac:(elia)) as HB.
  apply (FV_between _ _ _ (a * 2 ^ ebias) (z * 2 ^ ebias) (b * 2 ^ ebias));
    try (apply FV_Z2float; lia). nia.
Qed.

Lemma accent_white_between t :
  between 0 t 1 = true ->
  between 147 (lerp 147 255 t) 255 = true /\
  between 197 (lerp 197 255 t) 255 = true /\
  between 253 (lerp 253 255 t) 255 = true.
Proof.
  intros Ht. unfold lerp. repeat split; bounds.
Qed.

(** ** Whole pixels: the [unsigned long] of a number *)

Lemma to_unsigned_long_range x : 0 <= to_unsigned_long x < 2 ^ 32.
Proof.
  unfold to_unsigned_long.
  destruct (Prim2SF x) as [s|s| |s m e]; try (split; [lia|reflexivity]).
  apply Z.mod_pos_bound. reflexivity.
Qed.

(** A number of [[0, 2^31 - 1]] is converted to its integer part. *)
Lemma to_unsigned_long_floor x v :
  FV x = Some v -> 0 <= v <= 2147483647 * 2 ^ ebias ->
  0 <= to_unsigned_long x <= 2147483647 /\
  to_unsigned_long x * 2 ^ ebias <= v < (to_unsigned_long x + 1) * 2 ^ ebias.
Proof.
  intros Hx [Hlo Hhi].
  pose proof (pow2_pos ebias ltac:(elia)) as HB.
  unfold to_unsigned_long. unfold FV in Hx. pose proof (Prim2SF_valid x) as Hvalid.
  destruct (Prim2SF x) as [s|s| |s m e]; cbn [Fval] in Hx; try discriminate Hx;
    injection Hx as <-.
  - split; lia.
  - pose proof (finite_valid_emin _ _ _ Hvalid) as He.
    pose proof (Zv_pos_gt0 m e ltac:(elia)) as Hpos.
    destruct s; cbn [cond_Zopp] in *; [lia|].
    assert (Hn : exists n,
               (if 0 <=? e then Zpos m * 2 ^ e else Zpos m / 2 ^ (- e)) = n /\ 0 <= n /\
               n * 2 ^ ebias <= Zv (Zpos m) e < (n + 1) * 2 ^ ebias).
    { unfold Zv. destruct (Z.leb_spec 0 e) as [Hge|Hlt].
      - exists (Zpos m * 2 ^ e). split; [reflexivity|].
        pose proof (pow2_pos e Hge) as Hp.
        rewrite (pow2_split e ebias) by elia. split; nia.
      - set (N := 2 ^ (- e)).
        assert (HN : 0 < N) by (apply pow2_pos; lia).
        assert (HBN : 2 ^ ebias = N * 2 ^ (e + ebias)).
        { subst N. rewrite <- pow2_split by elia. f_equal. lia. }
        pose proof (pow2_pos (e + ebias) ltac:(elia)) as Hc.
        exists (Zpos m / N). split; [reflexivity|].
        pose proof (Z.mul_div_le (Zpos m) N HN) as Hq1.
        pose proof (Z.mul_succ_div_gt (Zpos m) N HN) as Hq2.
        assert (0 <= Zpos m / N) by (apply Z.div_pos; lia).
        rewrite HBN. split; [assumption|]. split; nia. }
    destruct Hn as (n & -> & Hn0 & Hn1 & Hn2).
    assert (Hmax : n <= 2147483647) by nia.
    rewrite Z.mod_small by lia. split; lia.
Qed.

Lemma FV_max_dimension : FV 2147483647 = Some (2147483647 * 2 ^ ebias).
Proof. vm_compute. reflexivity. Qed.

(** What [canvas.width] holds after a number of [[0, 2^31 - 1]] has been
    assigned: the whole number [n] with [n <= x < n + 1]. *)
Lemma canvas_dimension_floor default x :
  between 0 x 2147483647 = true ->
  exists n, 0 <= n <= 2147483647 /\ canvas_dimension default x = Z2float n /\
            (Z2float n <=? x)%float = true /\ (x <? Z2float (n + 1))%float = true.
Proof.
  intros H.
  destruct (between_FV _ _ _ _ _ FV_zero FV_max_dimension H) as (v & Hv & Bv).
  destruct (to_unsigned_long_floor x v Hv ltac:(lia)) as ([Hn0 Hn1] & Hle & Hlt).
  pose proof (pow2_pos ebias ltac:(elia)) as HB.
  assert (H53 : 2147483647 + 1 < 2 ^ 53) by (vm_compute; reflexivity).
  exists (to_unsigned_long x). split; [lia|]. split; [|split].
  - unfold canvas_dimension. cbv zeta.
    replace (to_unsigned_long x <=? 2147483647) with true by (symmetry; apply Z.leb_le; lia).
    reflexivity.
  - rewrite (leb_FV _ _ _ _ (FV_Z2float (to_unsigned_long x) ltac:(lia)) Hv).
    apply Z.leb_le. lia.
  - rewrite (ltb_FV _ _ _ _ Hv (FV_Z2float (to_unsigned_long x + 1) ltac:(lia))).
    apply Z.ltb_lt. lia.
Qed.

Lemma to_unsigned_long_floor_between x :
  between 0 x 2147483647 = true -> 0 <= to_unsigned_long x <= 2147483647.
Proof.
  intros H.
  destruct (between_FV _ _ _ _ _ FV_zero FV_max_dimension H) as (v & Hv & Bv).
  now destruct (to_unsigned_long_floor x v Hv ltac:(lia)).
Qed.

(** A zero of either sign is stored as [+0]. *)
Lemma canvas_dimension_zero default x :
  is_zero x = true -> canvas_dimension default x = 0%float.
Proof.
  unfold is_zero. rewrite eqb_spec. intros H.
  unfold canvas_dimension, to_unsigned_long.
  destruct (Prim2SF x) as [s|s| |s m e]; try reflexivity; destruct s; discriminate H.
Qed.

(** Whatever is assigned, [canvas.width] holds a whole number below [2^31]. *)
Lemma canvas_dimension_whole default x :
  0 <= default <= 2147483647 ->
  exists n, 0 <= n <= 2147483647 /\ canvas_dimension default x = Z2float n.
Proof.
  intros Hd. unfold canvas_dimension. cbv zeta.
  pose proof (to_unsigned_long_range x) as Hr.
  destruct (Z.leb_spec (to_unsigned_long x) 2147483647); eexists; (split; [|reflexivity]); lia.
Qed.

Local Close Scope Z_scope.


(** ** The painted frame *)

Lemma for_from_forallb {A} (P : A -> bool) fuel i stop step body :
  (forall k, (i <= k < stop)%nat -> forallb P (body k) = true) ->
  forallb P (for_from fuel i stop step body) = true.
Proof.
  revert i. induction fuel as [|fuel IH]; intros i H; [reflexivity|].
  cbn [for_from]. destruct (Nat.ltb_spec i stop) as [Hlt|Hge]; [|reflexivity].
  rewrite forallb_app, (H i ltac:(lia)). cbn [andb].
  apply IH. intros k Hk. apply H. lia.
Qed.

Lemma for_loop_forallb {A} (P : A -> bool) start stop step body :
  (forall k, (start <= k < stop)%nat -> forallb P (body k) = true) ->
  forallb P (for_loop start stop step body) = true.
Proof. apply for_from_forallb. Qed.

Lemma leb_ltb_trans x hi top :
  (x <=? hi)%float = true -> (hi <? top)%float = true -> (x <? top)%float = true.
Proof.
  intros H1 H2.
  pose proof (ltb_leb _ _ H2) as H2'.
  destruct (leb_not_nan _ _ H1) as [Hx Hhi], (leb_not_nan _ _ H2') as [_ Htop].
  destruct (float_cmp_Fext x hi Hx Hhi) as (a & b & Ha & Hb & Hab).
  destruct (float_cmp_Fext hi top Hhi Htop) as (b' & d & Hb' & Hd & Hbd).
  destruct (float_cmp_Fext x top Hx Htop) as (a' & d' & Ha' & Hd' & Had).
  assert (b' = b) by congruence. assert (a' = a) by congruence.
  assert (d' = d) by congruence. subst.
  rewrite ltb_cmp in *. rewrite leb_cmp in H1. rewrite Hab in H1. rewrite Hbd in H2. rewrite Had.
  destruct (Z.compare_spec a b), (Z.compare_spec b d); try discriminate;
    destruct (Z.compare_spec a d); try reflexivity; lia.
Qed.

Lemma radius_ok_between lo r hi :
  between lo r hi = true -> (0 <=? lo)%float = true -> (hi <? infinity)%float = true ->
  radius_ok r = true.
Proof.
  intros H Hlo Hhi. unfold between in H. apply andb_prop in H as [H1 H2].
  unfold radius_ok. apply andb_true_intro; split;
    eauto using leb_trans, leb_ltb_trans.
Qed.

Lemma length_ok_between lo x hi :
  between lo x hi = true -> (0 <? lo)%float = true -> (hi <? infinity)%float = true ->
  length_ok x = true.
Proof.
  intros H Hlo Hhi. unfold between in H. apply andb_prop in H as [H1 H2].
  unfold length_ok. apply andb_true_intro; split;
    eauto using ltb_leb_trans, leb_ltb_trans.
Qed.

Lemma rgba_ok_intro r g b a :
  between 0 r 255 = true -> between 0 g 255 = true -> between 0 b 255 = true ->
  between 0 a 1 = true -> rgba_ok (rgba r g b a) = true.
Proof. intros Hr Hg Hb Ha. unfold rgba_ok. cbn. now rewrite Hr, Hg, Hb, Ha. Qed.

Ltac radius := first [closed | eapply radius_ok_between; [interval | closed | closed]].
Ltac positive_length := first [closed | eapply length_ok_between; [interval | closed | closed]].

Section PaintValid.
Variables (Math_sin Math_cos : float -> float) (Math_hypot : float -> float -> float).
Hypothesis Hsin : sine_contract Math_sin.
Variables t e : float.
Hypothesis Ht : between 0 t 9007199254740992 = true.
Hypothesis He : between 0 e 1 = true.

Lemma lerpColor_between i :
  (i < NUM_PARTICLES)%nat ->
  let color := lerpColor COLOR_ACCENT COLOR_WHITE (e * particlePhase Math_sin t i) in
  between 147 (col_r color) 255 = true /\
  between 197 (col_g color) 255 = true /\
  between 253 (col_b color) 255 = true.
Proof using Hsin Ht He.
  intros Hi color.
  pose proof (particlePhase_between Math_sin Hsin t Ht i Hi) as Hph.
  assert (Hu : between 0 (e * particlePhase Math_sin t i) 1 = true) by bounds.
  destruct (accent_white_between _ Hu) as (Hr & Hg & Hb).
  subst color. unfold lerpColor. cbn [col_r col_g col_b COLOR_ACCENT COLOR_WHITE].
  repeat split.
  - destruct (Math_round_channel _ 147 255 Hr) as (z & _ & _ & H); [lia..|exact H].
  - destruct (Math_round_channel _ 197 255 Hg) as (z & _ & _ & H); [lia..|exact H].
  - destruct (Math_round_channel _ 253 255 Hb) as (z & _ & _ & H); [lia..|exact H].
Qed.

Lemma particle_ok cx cy i :
  (i < NUM_PARTICLES)%nat ->
  forallb cmd_ok (particle Math_sin Math_cos t e cx cy i) = true.
Proof using Hsin Ht He.
  intros Hi.
  pose proof (particleSize_between Math_sin Hsin t e Ht He i Hi) as Hsize.
  destruct (lerpColor_between i Hi) as (Hr & Hg & Hb). cbv zeta in Hr, Hg, Hb.
  unfold particle. cbv zeta. cbn [forallb cmd_ok style_ok andb].
  rewrite Math_max_inert.
  2:{ apply (ltb_leb_trans _ 0.7999999999999999); [closed|]. eapply between_left, Hsize. }
  rewrite (radius_ok_between _ _ _ Hsize) by closed. cbn [andb].
  rewrite rgba_ok_intro; [reflexivity| | | |].
  - eapply between_weaken; [exact Hr|closed|closed].
  - eapply between_weaken; [exact Hg|closed|closed].
  - eapply between_weaken; [exact Hb|closed|closed].
  - unfold particleAlpha. bounds.
Qed.

Lemma innerParticle_ok cx cy i :
  (i < numInner)%nat ->
  forallb cmd_ok (innerParticle Math_sin Math_cos t e cx cy i) = true.
Proof using Hsin Ht He.
  intros Hi.
  pose proof (iSize_between Math_sin Hsin t Ht i Hi) as Hsize.
  pose proof (innerAlpha_between Math_sin Hsin t e Ht He i Hi) as Halpha.
  unfold innerParticle. cbv zeta. cbn [forallb cmd_ok style_ok andb].
  rewrite !Math_max_inert.
  2:{ apply (ltb_leb_trans _ 0.05); [closed|]. eapply between_left, Halpha. }
  2:{ apply (ltb_leb_trans _ 0.30000000000000004); [closed|]. eapply between_left, Hsize. }
  rewrite (radius_ok_between _ _ _ Hsize) by closed. cbn [andb].
  rewrite rgba_ok_intro; [reflexivity|closed|closed|closed|].
  eapply between_weaken; [exact Halpha|closed|closed].
Qed.

Lemma connection_ok cx cy i j :
  forallb cmd_ok (connection Math_sin Math_cos Math_hypot t e cx cy i j) = true.
Proof using Type.
  unfold connection.
  destruct (lineEnd Math_sin Math_cos t e cx cy i) as [x1 y1].
  destruct (lineEnd Math_sin Math_cos t e cx cy j) as [x2 y2].
  destruct (_ <? _)%float; reflexivity.
Qed.

Lemma connections_ok cx cy :
  forallb cmd_ok (connections Math_sin Math_cos Math_hypot t e cx cy) = true.
Proof using He.
  unfold connections. destruct (0.05 <? e)%float; [|reflexivity].
  rewrite forallb_app. apply andb_true_intro; split.
  - cbn [forallb cmd_ok style_ok andb].
    rewrite rgba_ok_intro; [reflexivity|closed|closed|closed|].
    unfold lineAlpha. bounds.
  - apply for_loop_forallb. intros i _. apply for_loop_forallb. intros j _.
    apply connection_ok.
Qed.

Lemma paint_ok c v :
  time v = t -> ttsEnergySmooth v = e ->
  forallb cmd_ok (paint Math_sin Math_cos Math_hypot c v) = true.
Proof using Hsin Ht He.
  intros Et Ee. unfold paint. rewrite Et, Ee. cbv zeta beta.
  set (w := (canvas_width c / dpr v)%float).
  set (h := (canvas_height c / dpr v)%float).
  set (cx := (w / 2)%float). set (cy := (h / 2)%float).
  pose proof (coreRadius_between Math_sin Hsin t e Ht He) as Hcore.
  rewrite !forallb_app.
  rewrite (for_loop_forallb cmd_ok 0 NUM_PARTICLES 1) by (intros k Hk; apply particle_ok; lia).
  rewrite (for_loop_forallb cmd_ok 0 numInner 1) by (intros k Hk; apply innerParticle_ok; lia).
  rewrite connections_ok.
  cbn [forallb cmd_ok style_ok andb fst snd].
  rewrite !rgba_ok_intro; try closed.
  2-7: unfold labelAlpha, coreAlpha, ringAlpha, borderAlpha, glowAlpha; bounds.
  rewrite (radius_ok_between _ _ _ Hcore) by closed.
  assert (Hglow : radius_ok (glowRadius e) = true) by (unfold glowRadius; radius).
  assert (Hring : radius_ok (ringRadius e) = true) by (unfold ringRadius; radius).
  assert (Hblur : radius_ok (shadowBlur e) = true) by (unfold shadowBlur; radius).
  assert (Hfont : length_ok (fontSize e) = true) by (unfold fontSize; positive_length).
  rewrite Hglow, Hring, Hblur, Hfont. closed.
Qed.
End PaintValid.


(** ** What the pulse functions leave alone *)

Lemma start_pulse_keeps w :
  canvas (sphereStartTTSPulse w) = canvas w /\
  dpr (vars (sphereStartTTSPulse w)) = dpr (vars w) /\
  time (vars (sphereStartTTSPulse w)) = time (vars w) /\
  ttsEnergySmooth (vars (sphereStartTTSPulse w)) = ttsEnergySmooth (vars w).
Proof. destruct w as [[a t d e s act [old|]] c h]; repeat split. Qed.

Lemma stop_pulse_keeps w :
  canvas (sphereStopTTSPulse w) = canvas w /\
  dpr (vars (sphereStopTTSPulse w)) = dpr (vars w) /\
  time (vars (sphereStopTTSPulse w)) = time (vars w) /\
  ttsEnergySmooth (vars (sphereStopTTSPulse w)) = ttsEnergySmooth (vars w).
Proof. destruct w as [[a t d e s act [old|]] c h]; repeat split. Qed.

(** ** The surface along a session *)

Lemma js_or_truthy d : truthy (js_or d 1) = true.
Proof. unfold js_or. destruct (truthy d) eqn:E; [exact E|reflexivity]. Qed.

Lemma surface_ok_resize d cw ch w : surface_ok (resize d cw ch w).
Proof.
  unfold surface_ok, resize. cbn [canvas vars canvas_width canvas_height style_width_px
    style_height_px ctx_transform dpr set_dpr]. repeat split. apply js_or_truthy.
Qed.

Lemma surface_ok_same w w' :
  canvas w' = canvas w -> dpr (vars w') = dpr (vars w) -> surface_ok w -> surface_ok w'.
Proof. unfold surface_ok. intros -> ->. auto. Qed.

Lemma surface_ok_run ev w : surface_ok w -> surface_ok (run ev w).
Proof.
  intros H. destruct ev; cbn [run].
  - apply (surface_ok_same w); auto. destruct active; reflexivity.
  - apply (surface_ok_same w); auto.
  - apply (surface_ok_same w); auto; apply start_pulse_keeps.
  - apply (surface_ok_same w); auto; apply stop_pulse_keeps.
  - destruct (decide _); [|exact H]. apply (surface_ok_same w); auto.
  - apply surface_ok_resize.
  - destruct (frame_request (host w)); [|exact H].
    apply (surface_ok_same w); auto using draw_canvas, draw_dpr.
  - destruct (unload_listener (host w)); [|exact H]. apply (surface_ok_same w); auto.
Qed.

(** ** The phase accumulator *)

Lemma time_step t :
  between 0 t 9007199254740992 = true ->
  between 0 (t + 0.006) 9007199254740992 = true /\ (t <=? t + 0.006)%float = true.
Proof.
  intros Ht. split; [bounds|].
  assert (Tt : tame t = true) by tamed.
  destruct (tame_FV t Tt) as (vt & Hvt & Bt).
  assert (Hc : exists v6, FV 0.006 = Some v6 /\ (0 <= v6 <= 2 ^ (333 + ebias))%Z).
  { eexists. split; [vm_compute; reflexivity|]. split; vm_compute; discriminate. }
  destruct Hc as (v6 & Hv6 & B6).
  rewrite (leb_FV t (t + 0.006) vt (rnd (vt + v6))); auto.
  - apply Z.leb_le.
    rewrite <- (rnd_representable (Prim2SF t) vt (Prim2SF_valid t) Hvt) at 1.
    apply rnd_mono. lia.
  - apply add_exact; auto. apply moderate_sum; [exact Bt|]. apply Z.abs_le. lia.
Qed.

Lemma time_in_range_run ev w : time_in_range w -> time_in_range (run ev w).
Proof.
  unfold time_in_range. intros H. destruct ev; cbn [run].
  - destruct active; exact H.
  - exact H.
  - destruct (start_pulse_keeps w) as (_ & _ & -> & _). exact H.
  - destruct (stop_pulse_keeps w) as (_ & _ & -> & _). exact H.
  - destruct (decide _); exact H.
  - exact H.
  - destruct (frame_request (host w)); [|exact H]. rewrite draw_time. now apply time_step.
  - destruct (unload_listener (host w)); exact H.
Qed.

Lemma time_in_range_reachable ok w : reachable_by ok w -> time_in_range w.
Proof.
  induction 1 as [c m d cw ch|ev w Hw IH Hev].
  - destruct (startup_draw c m d cw ch) as (Hv & _).
    unfold time_in_range. rewrite Hv, draw_time. reflexivity.
  - now apply time_in_range_run.
Qed.

Lemma time_never_decreases ev w :
  time_in_range w -> (time (vars w) <=? time (vars (run ev w)))%float = true.
Proof.
  unfold time_in_range. intros H.
  assert (Hrefl : (time (vars w) <=? time (vars w))%float = true).
  { apply leb_refl_float. apply between_left in H. now destruct (leb_not_nan _ _ H). }
  destruct ev; cbn [run].
  - destruct active; exact Hrefl.
  - exact Hrefl.
  - destruct (start_pulse_keeps w) as (_ & _ & -> & _). exact Hrefl.
  - destruct (stop_pulse_keeps w) as (_ & _ & -> & _). exact Hrefl.
  - destruct (decide _); exact Hrefl.
  - exact Hrefl.
  - destruct (frame_request (host w)); [|exact Hrefl]. rewrite draw_time. now apply time_step.
  - destruct (unload_listener (host w)); exact Hrefl.
Qed.

(** ** The stored energy *)

(** The clamp of the specification lands in [[0, 1]] on every input. *)
Lemma clamp_between x : between 0 (clamp x 0 1) 1 = true.
Proof.
  unfold clamp, between.
  destruct (0 <=? x)%float eqn:A; [destruct (x <=? 1)%float eqn:B|];
    rewrite ?A, ?B; reflexivity.
Qed.

Lemma stored_energy_idempotent x :
  let y := Math_min [1%float; Math_max [0%float; x]] in
  Math_min [1%float; Math_max [0%float; y]] = y.
Proof.
  cbv zeta. rewrite (stored_energy_cases x).
  destruct (is_nan x) eqn:Hnan; [reflexivity|].
  destruct (0 <? x)%float eqn:H0; [|reflexivity].
  destruct (x <? 1)%float eqn:H1; [|reflexivity].
  rewrite stored_energy_cases, Hnan, H0, H1. reflexivity.
Qed.

Lemma energy_in_range_reachable_by w :
  reachable_by numeric_energy w -> energy_in_range w.
Proof.
  induction 1 as [c m d cw ch|ev w Hw IH Hev].
  - apply energy_in_range_startup.
  - now apply energy_in_range_run.
Qed.


Local Open Scope Z_scope.

(** ** How fast the smoothing closes the gap *)

Lemma round_to_error u v : 0 < u -> 2 * Z.abs (round_to u v - v) <= u.
Proof.
  intros Hu. unfold round_to.
  pose proof (Z.div_mod v u ltac:(lia)) as Hv.
  pose proof (Z.mod_pos_bound v u Hu) as Hr.
  destruct (Z.ltb_spec (2 * (v mod u)) u), (Z.ltb_spec u (2 * (v mod u))),
           (Z.even (v / u)); nia.
Qed.

Lemma rnd_unit : rnd (2 ^ ebias) = 2 ^ ebias.
Proof.
  pose proof (rnd_integer 1) as H. rewrite Z.mul_1_l in H. apply H.
  split; [lia|]. vm_compute. reflexivity.
Qed.

(** Rounding a number of [[-1, 1]] moves it by at most [2^-54]. *)
Lemma rnd_error_unit v :
  Z.abs v <= 2 ^ ebias -> 2 * Z.abs (rnd v - v) <= 2 ^ (ebias - 53).
Proof.
  intros Hv.
  pose proof (pow2_pos (ebias - 53) ltac:(elia)) as HE.
  assert (Hpos : forall p, Zpos p <= 2 ^ ebias ->
            2 * Z.abs (round_to (ulp_at (Zpos p)) (Zpos p) - Zpos p) <= 2 ^ (ebias - 53)).
  { intros p Hp. destruct (Z.eq_dec (Zpos p) (2 ^ ebias)) as [Heq|Hne].
    - pose proof rnd_unit as H1.
      rewrite <- Heq in H1. cbn [rnd] in H1. rewrite H1.
      rewrite Z.sub_diag. cbn. lia.
    - etransitivity; [apply round_to_error, ulp_at_pos|].
      unfold ulp_at. apply pow2_le; [|unfold fexp64; elia].
      assert (Z.log2 (Zpos p) < ebias) by (apply Z.log2_lt_pow2; lia).
      unfold fexp64. lia. }
  destruct v as [|p|p].
  - cbn. lia.
  - cbn [rnd]. apply Hpos. lia.
  - cbn [rnd]. specialize (Hpos p ltac:(lia)).
    replace (- round_to (ulp_at (Zpos p)) (Zpos p) - Zneg p)
      with (- (round_to (ulp_at (Zpos p)) (Zpos p) - Zpos p)) by lia.
    now rewrite Z.abs_opp.
Qed.

(** The exact product of two floats is a multiple of the scale. *)
Lemma FV_product_exact x y vx vy :
  FV x = Some vx -> FV y = Some vy -> (vx * vy / 2 ^ ebias) * 2 ^ ebias = vx * vy.
Proof.
  intros Hx Hy.
  destruct (FV_multiple x vx Hx) as [k1 ->], (FV_multiple y vy Hy) as [k2 ->].
  replace (k1 * 2 ^ (ebias - 1074) * (k2 * 2 ^ (ebias - 1074)))
    with (k1 * k2 * 2 ^ ebias).
  - rewrite Z.div_mul; [reflexivity|]. apply Z.pow_nonzero; elia.
  - replace (2 ^ ebias) with (2 ^ (ebias - 1074) * 2 ^ (ebias - 1074)).
    + ring.
    + rewrite <- pow2_split by elia. reflexivity.
Qed.

Lemma rate_bounds :
  exists vc, FV 0.12%float = Some vc /\ 0 <= vc <= 2 ^ ebias /\ 2 ^ ebias <= 10 * vc.
Proof.
  eexists. split; [vm_compute; reflexivity|]. repeat split; vm_compute; discriminate.
Qed.

(** The arithmetic of one smoothing step: [a] is the gap before, [g] the
    gap after, [d1], [d2] and [d3] the three rounding errors. *)
Lemma gap_arith B E vc a g d1 d2 d3 :
  0 < B -> 0 <= vc <= B -> B <= 10 * vc ->
  2 * Z.abs d1 <= E -> 2 * Z.abs d2 <= E -> 2 * Z.abs d3 <= E ->
  B * g = a * (B - vc) - d1 * vc - B * (d2 + d3) ->
  10 * Z.abs g <= 9 * Z.abs a + 15 * E.
Proof.
  intros HB Hvc H10 E1 E2 E3 Hg.
  assert (Habs : B * Z.abs g
                 <= Z.abs a * (B - vc) + Z.abs d1 * vc + B * (Z.abs d2 + Z.abs d3)).
  { rewrite <- (Z.abs_eq B) at 1 by lia. rewrite <- Z.abs_mul, Hg.
    assert (Ha1 : Z.abs (a * (B - vc)) = Z.abs a * (B - vc))
      by (rewrite Z.abs_mul, (Z.abs_eq (B - vc)); lia).
    assert (Ha2 : Z.abs (d1 * vc) = Z.abs d1 * vc)
      by (rewrite Z.abs_mul, (Z.abs_eq vc); lia).
    assert (Ha3 : Z.abs (B * (d2 + d3)) <= B * (Z.abs d2 + Z.abs d3)).
    { rewrite Z.abs_mul, (Z.abs_eq B) by lia. apply Z.mul_le_mono_nonneg_l; lia. }
    pose proof (Z.abs_triangle (a * (B - vc) - d1 * vc) (- (B * (d2 + d3)))) as T1.
    pose proof (Z.abs_triangle (a * (B - vc)) (- (d1 * vc))) as T2.
    rewrite Z.abs_opp in T1, T2.
    replace (a * (B - vc) - d1 * vc + - (B * (d2 + d3)))
      with (a * (B - vc) - d1 * vc - B * (d2 + d3)) in T1 by ring.
    replace (a * (B - vc) + - (d1 * vc)) with (a * (B - vc) - d1 * vc) in T2 by ring.
    lia. }
  pose proof (Z.abs_nonneg a) as Na. pose proof (Z.abs_nonneg d1) as N1.
  pose proof (Z.abs_nonneg d2) as N2. pose proof (Z.abs_nonneg d3) as N3.
  set (A := Z.abs a) in *. set (D1 := Z.abs d1) in *.
  set (D2 := Z.abs d2) in *. set (D3 := Z.abs d3) in *. set (X := Z.abs g) in *.
  clearbody A D1 D2 D3 X.
  assert (P1 : (2 * D1) * vc <= E * B) by (apply Z.mul_le_mono_nonneg; lia).
  assert (P2 : A * (10 * (B - vc)) <= A * (9 * B)) by (apply Z.mul_le_mono_nonneg_l; lia).
  assert (P3 : B * (2 * (D2 + D3)) <= B * (2 * E)) by (apply Z.mul_le_mono_nonneg_l; lia).
  assert (Hfin : B * (10 * X) <= B * (9 * A + 15 * E)).
  { replace (B * (10 * X)) with (10 * (B * X)) by ring.
    replace (B * (9 * A + 15 * E)) with (A * (9 * B) + 5 * (E * B) + 5 * (B * (2 * E))) by ring.
    replace (A * (10 * (B - vc))) with (10 * (A * (B - vc))) in P2 by ring.
    replace (2 * D1 * vc) with (2 * (D1 * vc)) in P1 by ring.
    replace (B * (2 * (D2 + D3))) with (2 * (B * (D2 + D3))) in P3 by ring.
    lia. }
  apply Z.mul_le_mono_pos_l in Hfin; lia.
Qed.

(** One frame closes at least a tenth of the gap to the target, up to
    [15 * 2^-53]. *)
Lemma smooth_step_gap s t vs vt :
  FV s = Some vs -> FV t = Some vt ->
  0 <= vs <= 2 ^ ebias -> 0 <= vt <= 2 ^ ebias ->
  exists vr, FV (s + (t - s) * 0.12)%float = Some vr /\ 0 <= vr <= 2 ^ ebias /\
             10 * Z.abs (vt - vr) <= 9 * Z.abs (vt - vs) + 15 * 2 ^ (ebias - 53).
Proof.
  intros Hs Ht Bs Bt.
  pose proof (pow2_pos ebias ltac:(elia)) as HB.
  pose proof (pow2_pos (ebias - 53) ltac:(elia)) as HE.
  assert (HBig : 2 ^ ebias < 2 ^ (971 + ebias)) by (apply pow2_lt; elia).
  destruct rate_bounds as (vc & Hc & Bc & Hc10).
  destruct (scaled_difference s t vs vt Hs Ht Bs Bt) as (vm & Hm & Hup & Hdown).
  (* the difference *)
  assert (Hd : FV (t - s)%float = Some (rnd (vt - vs))).
  { apply sub_exact; auto. unfold moderate. lia. }
  pose proof (rnd_error_unit (vt - vs) ltac:(lia)) as E1.
  set (vd := rnd (vt - vs)) in *.
  assert (Bd : Z.abs vd <= 2 ^ ebias).
  { pose proof (rnd_mono (vt - vs) (2 ^ ebias) ltac:(lia)) as H1.
    pose proof (rnd_mono (- 2 ^ ebias) (vt - vs) ltac:(lia)) as H2.
    pose proof rnd_unit as H3.
    rewrite rnd_opp in H2. rewrite H3 in H1, H2.
    subst vd. lia. }
  (* the product *)
  pose proof (FV_product_exact _ _ vd vc Hd Hc) as Hq.
  set (q := vd * vc / 2 ^ ebias) in *.
  assert (Bq : Z.abs q <= 2 ^ ebias).
  { assert (Hqa : Z.abs q * 2 ^ ebias = Z.abs vd * vc).
    { rewrite <- (Z.abs_eq vc) by lia. rewrite <- Z.abs_mul, <- Hq, Z.abs_mul.
      rewrite (Z.abs_eq (2 ^ ebias)) by lia. reflexivity. }
    assert (Z.abs vd * vc <= 2 ^ ebias * 2 ^ ebias)
      by (apply Z.mul_le_mono_nonneg; lia).
    nia. }
  assert (Hm' : FV ((t - s) * 0.12)%float = Some (rnd q)).
  { apply mul_exact; auto. fold q. unfold moderate. lia. }
  assert (Hvm : vm = rnd q) by congruence.
  pose proof (rnd_error_unit q Bq) as E2.
  (* the sum *)
  assert (Bsum : 0 <= vs + vm <= 2 ^ ebias).
  { destruct (Z_le_gt_dec vs vt) as [Hc'|Hc'];
      [specialize (Hup Hc')|specialize (Hdown ltac:(lia))]; lia. }
  assert (Hr : FV (s + (t - s) * 0.12)%float = Some (rnd (vs + vm))).
  { apply add_exact; auto. unfold moderate. lia. }
  pose proof (rnd_error_unit (vs + vm) ltac:(lia)) as E3.
  exists (rnd (vs + vm)). split; [exact Hr|]. split.
  { pose proof (rnd_mono (vs + vm) (2 ^ ebias) ltac:(lia)) as H1.
    pose proof (rnd_nonneg (vs + vm) ltac:(lia)) as H2.
    pose proof rnd_unit as H3.
    rewrite H3 in H1. lia. }
  (* the gap *)
  apply (gap_arith (2 ^ ebias) (2 ^ (ebias - 53)) vc (vt - vs) _
                   (vd - (vt - vs)) (rnd q - q) (rnd (vs + vm) - (vs + vm)));
    try assumption; try lia.
Qed.

Lemma frames_gap n w vs vt :
  FV (ttsEnergySmooth (vars w)) = Some vs -> FV (targetEnergy (vars w)) = Some vt ->
  0 <= vs <= 2 ^ ebias -> 0 <= vt <= 2 ^ ebias ->
  exists vn, FV (ttsEnergySmooth (vars (frames n w))) = Some vn /\ 0 <= vn <= 2 ^ ebias /\
             10 ^ Z.of_nat n * Z.abs (vt - vn)
             <= 9 ^ Z.of_nat n * Z.abs (vt - vs) + 10 ^ Z.of_nat n * (15 * 2 ^ (ebias - 53)).
Proof.
  intros Hs Ht Bs Bt.
  pose proof (pow2_pos (ebias - 53) ltac:(elia)) as HE.
  induction n as [|n (vn & Hn & Bn & Gn)].
  - exists vs. split; [exact Hs|]. split; [exact Bs|]. cbn [Z.of_nat]. rewrite !Z.pow_0_r. lia.
  - rewrite frames_succ, draw_smooth, frames_keep_target.
    destruct (smooth_step_gap _ _ vn vt Hn Ht Bn Bt) as (vr & Hr & Br & Gr).
    exists vr. split; [exact Hr|]. split; [exact Br|].
    rewrite Nat2Z.inj_succ, !Z.pow_succ_r by lia.
    assert (0 < 10 ^ Z.of_nat n) by (apply Z.pow_pos_nonneg; lia).
    assert (0 < 9 ^ Z.of_nat n) by (apply Z.pow_pos_nonneg; lia).
    nia.
Qed.

Lemma settle_constants :
  exists v14, FV 1e-14%float = Some v14 /\ FV (-1e-14)%float = Some (- v14) /\
              9 ^ 400 * 2 ^ ebias + 10 ^ 400 * (15 * 2 ^ (ebias - 53)) <= 10 ^ 400 * v14 /\
              0 <= v14 <= 2 ^ ebias.
Proof.
  eexists. split; [vm_compute; reflexivity|]. split; [vm_compute; reflexivity|].
  repeat split; vm_compute; discriminate.
Qed.

Lemma noise_below_tolerance :
  exists v14, FV 1e-14%float = Some v14 /\ 15 * 2 ^ (ebias - 53) < v14 /\ v14 <= 2 ^ ebias.
Proof.
  eexists. split; [vm_compute; reflexivity|]. split; [vm_compute; reflexivity|].
  vm_compute. discriminate.
Qed.

(** A frame that starts further than [15 * 2^-53] from the target ends
    strictly nearer to it. *)
Lemma smooth_step_strict s t vs vt :
  FV s = Some vs -> FV t = Some vt ->
  0 <= vs <= 2 ^ ebias -> 0 <= vt <= 2 ^ ebias ->
  15 * 2 ^ (ebias - 53) < Z.abs (vt - vs) ->
  exists vr, FV (s + (t - s) * 0.12)%float = Some vr /\ 0 <= vr <= 2 ^ ebias /\
             Z.abs (vt - vr) < Z.abs (vt - vs).
Proof.
  intros Hs Ht Bs Bt Hfar.
  destruct (smooth_step_gap s t vs vt Hs Ht Bs Bt) as (vr & Hr & Br & Hgap).
  exists vr. split; [exact Hr|]. split; [exact Br|]. lia.
Qed.

(** After four hundred frames the gap is at most [1e-14]. *)
Lemma frames_settled n w vs vt :
  FV (ttsEnergySmooth (vars w)) = Some vs -> FV (targetEnergy (vars w)) = Some vt ->
  0 <= vs <= 2 ^ ebias -> 0 <= vt <= 2 ^ ebias -> (400 <= n)%nat ->
  exists vn v14,
    FV (ttsEnergySmooth (vars (frames n w))) = Some vn /\ 0 <= vn <= 2 ^ ebias /\
    FV 1e-14%float = Some v14 /\ Z.abs (vt - vn) <= v14.
Proof.
  intros Hvs Hvt Bs Bt Hn.
  destruct (frames_gap n w vs vt Hvs Hvt Bs Bt) as (vn & Hvn & Bn & Gn).
  destruct settle_constants as (v14 & H14 & H14n & Hconst & B14).
  pose proof (pow2_pos ebias ltac:(elia)) as HB.
  pose proof (pow2_pos (ebias - 53) ltac:(elia)) as HE.
  exists vn, v14. repeat (split; [assumption|]).
  replace (Z.of_nat n) with (400 + Z.of_nat (n - 400)) in Gn by lia.
  rewrite !Z.pow_add_r in Gn by lia.
  set (k := Z.of_nat (n - 400)) in *.
  assert (Hk : 0 <= k) by (subst k; lia).
  assert (H9 : 0 < 9 ^ k) by (apply Z.pow_pos_nonneg; lia).
  assert (H10 : 0 < 10 ^ k) by (apply Z.pow_pos_nonneg; lia).
  assert (H910 : 9 ^ k <= 10 ^ k) by (apply Z.pow_le_mono_l; lia).
  assert (H9400 : 0 < 9 ^ 400) by (apply Z.pow_pos_nonneg; lia).
  assert (H10400 : 0 < 10 ^ 400) by (apply Z.pow_pos_nonneg; lia).
  set (a := 9 ^ 400) in *. set (b := 10 ^ 400) in *.
  set (K := 15 * 2 ^ (ebias - 53)) in *. set (B := 2 ^ ebias) in *.
  set (G := Z.abs (vt - vn)) in *.
  assert (HG0 : Z.abs (vt - vs) <= B) by lia.
  assert (H1 : a * 9 ^ k * Z.abs (vt - vs) <= a * 10 ^ k * B).
  { rewrite <- !Z.mul_assoc. apply Z.mul_le_mono_nonneg_l; [lia|].
    apply Z.mul_le_mono_nonneg; lia. }
  assert (H2 : b * 10 ^ k * G <= 10 ^ k * (a * B + b * K)) by lia.
  assert (H3 : 10 ^ k * (a * B + b * K) <= 10 ^ k * (b * v14))
    by (apply Z.mul_le_mono_nonneg_l; lia).
  assert (H4 : (b * 10 ^ k) * G <= (b * 10 ^ k) * v14) by lia.
  apply Z.mul_le_mono_pos_l in H4; [exact H4|]. apply Z.mul_pos_pos; lia.
Qed.

Local Close Scope Z_scope.

(** ** The example sessions are sessions *)

Lemma reachable_by_weaken (ok ok' : Event -> Prop) w :
  (forall ev, ok ev -> ok' ev) -> reachable_by ok w -> reachable_by ok' w.
Proof.
  intros Himp. induction 1 as [c m d cw ch|ev w Hw IH Hev].
  - apply reachable_startup.
  - apply reachable_run; auto.
Qed.

Lemma numeric_energy_reachable w : reachable_by numeric_energy w -> reachable w.
Proof. apply reachable_by_weaken. now intros ev [H _]. Qed.

(** Frames in a row are a session as long as each of them leaves a frame
    pending. *)
Lemma reachable_by_frames ok n w :
  ok FrameFires -> reachable_by ok w ->
  (forall k, (k < n)%nat -> frame_request (host (frames k w)) <> None) ->
  reachable_by ok (frames n w).
Proof.
  intros Hok Hw. induction n as [|n IH]; intros Hpending; [exact Hw|].
  rewrite frames_succ.
  replace (draw (frames n w)) with (run FrameFires (frames n w)).
  - apply reachable_run; [|exact Hok]. apply IH. intros k Hk. apply Hpending. lia.
  - cbn [run]. specialize (Hpending n ltac:(lia)).
    destruct (frame_request (host (frames n w))); [reflexivity|contradiction].
Qed.

Lemma speaking_world_reachable : reachable_by numeric_energy speaking_world.
Proof.
  unfold speaking_world.
  apply reachable_run; [|split; [exact I|reflexivity]].
  apply reachable_run; [|split; exact I].
  apply reachable_startup.
Qed.

Lemma silenced_world_reachable : reachable_by numeric_energy silenced_world.
Proof.
  unfold silenced_world. apply reachable_run; [|split; exact I].
  apply reachable_by_frames; [split; exact I|exact speaking_world_reachable|].
  intros k Hk.
  destruct k as [|[|[|[|[|k]]]]]; [vm_compute; discriminate..|lia].
Qed.

Lemma pulsing_world_reachable : reachable_by numeric_energy pulsing_world.
Proof.
  unfold pulsing_world. apply reachable_run; [|split; exact I]. apply reachable_startup.
Qed.

Lemma nan_world_reachable : reachable nan_world.
Proof.
  unfold nan_world. do 2 (apply reachable_run; [|exact I]). apply reachable_startup.
Qed.

Local Open Scope Z_scope.

(* ================================================================== *)
(** * Part VIII: the claims                                           *)
(* ================================================================== *)

(** C1. On every frame the new smoothed energy is
    [prev + (target - prev) * 0.12] (in binary64 arithmetic), where the
    target is [ttsEnergy] when [ttsActive] holds and [0] otherwise; every
    event that is not a frame leaves [ttsEnergySmooth] as it was. *)
Theorem draw_smooths_energy (w : World) :
  let prev := ttsEnergySmooth (vars w) in
  let target := if ttsActive (vars w) then ttsEnergy (vars w) else 0%float in
  ttsEnergySmooth (vars (draw w)) = (prev + (target - prev) * 0.12)%float /\
  forall ev : Event,
    (ev = FrameFires /\ (run ev w = draw w \/ run ev w = w)) \/
    (ev <> FrameFires /\ ttsEnergySmooth (vars (run ev w)) = prev).
Proof.
  split; [apply draw_smooth|].
  intros ev. destruct ev; try (right; split; [discriminate|]); cbn [run].
  - destruct active; reflexivity.
  - reflexivity.
  - reflexivity.
  - destruct w as [v c h]. unfold sphereStopTTSPulse. cbn [vars canvas host].
    destruct (ttsSimInterval _); reflexivity.
  - destruct (decide _); reflexivity.
  - reflexivity.
  - left. split; [reflexivity|]. destruct (frame_request (host w)); auto.
  - destruct (unload_listener (host w)); reflexivity.
Qed.

(** C2. Under a constant target the smoothed energy converges monotonically
    without overshoot, in binary64 arithmetic.  From any start in [[0, 1]],
    with the target held at 1 the per-frame values never decrease and never
    exceed 1, every frame that starts further than [1e-14] from 1 ends
    strictly higher, and from the 400th frame on the value is within [1e-14]
    of 1.  With the target held at 0 they never increase and never go below
    0, every frame that starts above [1e-14] ends strictly lower, and from
    the 400th frame on the value is at most [1e-14]. *)
Theorem smoothing_monotone_no_overshoot (w : World) :
  between 0 (ttsEnergySmooth (vars w)) 1 = true ->
  (targetEnergy (vars w) = 1%float ->
   (forall n : nat,
      (ttsEnergySmooth (vars (frames n w))
         <=? ttsEnergySmooth (vars (frames (S n) w)))%float = true /\
      (ttsEnergySmooth (vars (frames (S n) w)) <=? 1)%float = true) /\
   (forall n : nat,
      (1e-14 <? 1 - ttsEnergySmooth (vars (frames n w)))%float = true ->
      (ttsEnergySmooth (vars (frames n w))
         <? ttsEnergySmooth (vars (frames (S n) w)))%float = true) /\
   (forall n : nat,
      (400 <= n)%nat ->
      (1 - ttsEnergySmooth (vars (frames n w)) <=? 1e-14)%float = true)) /\
  (targetEnergy (vars w) = 0%float ->
   (forall n : nat,
      (0 <=? ttsEnergySmooth (vars (frames (S n) w)))%float = true /\
      (ttsEnergySmooth (vars (frames (S n) w))
         <=? ttsEnergySmooth (vars (frames n w)))%float = true) /\
   (forall n : nat,
      (1e-14 <? ttsEnergySmooth (vars (frames n w)))%float = true ->
      (ttsEnergySmooth (vars (frames (S n) w))
         <? ttsEnergySmooth (vars (frames n w)))%float = true) /\
   (forall n : nat,
      (400 <= n)%nat ->
      (ttsEnergySmooth (vars (frames n w)) <=? 1e-14)%float = true)).
Proof.
  intros Hs.
  pose proof (pow2_pos ebias ltac:(elia)) as HB.
  assert (HBig : 2 ^ ebias < 2 ^ (971 + ebias)) by (apply pow2_lt; elia).
  destruct noise_below_tolerance as (v14 & H14 & Hnoise & B14).
  pose proof (rnd_representable _ _ (Prim2SF_valid 1e-14%float) H14) as R14.
  destruct (between_FV _ _ _ _ _ FV_zero FV_one Hs) as (vs & Hvs & Bs).
  split; intros Ht.
  - (* towards 1 *)
    assert (Hin : forall n, between 0 (ttsEnergySmooth (vars (frames n w))) 1 = true).
    { intros n. apply frames_in_range; [rewrite Ht; reflexivity|exact Hs]. }
    assert (Hvt : FV (targetEnergy (vars w)) = Some (2 ^ ebias)) by (rewrite Ht; exact FV_one).
    split; [|split]; intros n.
    + rewrite frames_succ, draw_smooth, frames_keep_target, Ht.
      destruct (smooth_step_between _ 1%float (Hin n) between_zero_one_one) as (_ & Hup & _).
      specialize (Hup (between_right _ _ _ (Hin n))).
      split; [exact (between_left _ _ _ Hup)|exact (between_right _ _ _ Hup)].
    + intros Hfar.
      destruct (between_FV _ _ _ _ _ FV_zero FV_one (Hin n)) as (vn & Hvn & Bn).
      assert (Hsub : FV (1 - ttsEnergySmooth (vars (frames n w)))%float
                     = Some (rnd (2 ^ ebias - vn))).
      { apply sub_exact; auto using FV_one. unfold moderate. lia. }
      rewrite (ltb_FV _ _ _ _ H14 Hsub) in Hfar. apply Z.ltb_lt in Hfar.
      assert (Hgap : v14 < 2 ^ ebias - vn).
      { destruct (Z_lt_le_dec v14 (2 ^ ebias - vn)) as [|Hle]; [assumption|].
        pose proof (rnd_mono _ _ Hle) as Hm. rewrite R14 in Hm. lia. }
      destruct (smooth_step_strict _ 1%float vn (2 ^ ebias) Hvn FV_one Bn ltac:(lia)
                  ltac:(lia)) as (vr & Hvr & Br & Hlt).
      rewrite frames_succ, draw_smooth, frames_keep_target, Ht.
      rewrite (ltb_FV _ _ _ _ Hvn Hvr). apply Z.ltb_lt. lia.
    + intros Hn.
      destruct (frames_settled n w vs (2 ^ ebias) Hvs Hvt Bs ltac:(lia) Hn)
        as (vn & v14' & Hvn & Bn & H14' & Hgap).
      assert (v14' = v14) by congruence. subst v14'.
      assert (Hsub : FV (1 - ttsEnergySmooth (vars (frames n w)))%float
                     = Some (rnd (2 ^ ebias - vn))).
      { apply sub_exact; auto using FV_one. unfold moderate. lia. }
      rewrite (leb_FV _ _ _ _ Hsub H14). apply Z.leb_le.
      pose proof (rnd_mono (2 ^ ebias - vn) v14 ltac:(lia)) as Hm. rewrite R14 in Hm. exact Hm.
  - (* towards 0 *)
    assert (Hin : forall n, between 0 (ttsEnergySmooth (vars (frames n w))) 1 = true).
    { intros n. apply frames_in_range; [rewrite Ht; reflexivity|exact Hs]. }
    assert (Hvt : FV (targetEnergy (vars w)) = Some 0) by (rewrite Ht; exact FV_zero).
    split; [|split]; intros n.
    + rewrite frames_succ, draw_smooth, frames_keep_target, Ht.
      destruct (smooth_step_between _ 0%float (Hin n) between_zero_one_zero) as (_ & _ & Hdown).
      specialize (Hdown (between_left _ _ _ (Hin n))).
      split; [exact (between_left _ _ _ Hdown)|exact (between_right _ _ _ Hdown)].
    + intros Hfar.
      destruct (between_FV _ _ _ _ _ FV_zero FV_one (Hin n)) as (vn & Hvn & Bn).
      rewrite (ltb_FV _ _ _ _ H14 Hvn) in Hfar. apply Z.ltb_lt in Hfar.
      destruct (smooth_step_strict _ 0%float vn 0 Hvn FV_zero Bn ltac:(lia)
                  ltac:(lia)) as (vr & Hvr & Br & Hlt).
      rewrite frames_succ, draw_smooth, frames_keep_target, Ht.
      rewrite (ltb_FV _ _ _ _ Hvr Hvn). apply Z.ltb_lt. lia.
    + intros Hn.
      destruct (frames_settled n w vs 0 Hvs Hvt Bs ltac:(lia) Hn)
        as (vn & v14' & Hvn & Bn & H14' & Hgap).
      assert (v14' = v14) by congruence. subst v14'.
      rewrite (leb_FV _ _ _ _ Hvn H14). apply Z.leb_le. lia.
Qed.

Lemma smoothing_monotone_no_overshoot_witness :
  ((ttsEnergySmooth (vars (frames 3 speaking_world))
      <=? ttsEnergySmooth (vars (frames 4 speaking_world)))%float = true /\
   (ttsEnergySmooth (vars (frames 4 speaking_world)) <=? 1)%float = true) /\
  (ttsEnergySmooth (vars (frames 3 speaking_world))
     <? ttsEnergySmooth (vars (frames 4 speaking_world)))%float = true /\
  (1 - ttsEnergySmooth (vars (frames 400 speaking_world)) <=? 1e-14)%float = true /\
  ((0 <=? ttsEnergySmooth (vars (frames 3 silenced_world)))%float = true /\
   (ttsEnergySmooth (vars (frames 3 silenced_world))
      <=? ttsEnergySmooth (vars (frames 2 silenced_world)))%float = true) /\
  (ttsEnergySmooth (vars (frames 3 silenced_world))
      <? ttsEnergySmooth (vars (frames 2 silenced_world)))%float = true /\
  (ttsEnergySmooth (vars (frames 400 silenced_world)) <=? 1e-14)%float = true.
Proof.
  pose proof (smoothing_monotone_no_overshoot speaking_world eq_refl) as [Hup _].
  pose proof (smoothing_monotone_no_overshoot silenced_world eq_refl) as [_ Hdown].
  destruct (Hup eq_refl) as (U1 & U2 & U3). destruct (Hdown eq_refl) as (D1 & D2 & D3).
  split; [exact (U1 3%nat)|]. split; [apply (U2 3%nat); vm_compute; reflexivity|].
  split; [apply (U3 400%nat); lia|].
  split; [exact (D1 2%nat)|]. split; [apply (D2 2%nat); vm_compute; reflexivity|].
  apply (D3 400%nat). lia.
Defined.

(** C3. [sphereSetTTSEnergy] clamps every number and misses NaN.  For every
    [x] that is not NaN the stored [ttsEnergy] is [clamp x 0 1], a number of
    [[0, 1]], and nothing is rejected: below 0 it stores 0, above 1 it
    stores 1, inside [[0, 1]] it stores [x] (the sign of a zero apart: [-0]
    is stored as [+0], which is equal to it as a number).  On NaN,
    [Math.min(1, Math.max(0, NaN))] is NaN: the stored value is not in
    [[0, 1]] and is not the clamp, which lies in [[0, 1]] for every input. *)
Theorem setTTSEnergy_clamps_numbers_only (w : World) :
  (forall x, between 0 (clamp x 0 1) 1 = true) /\
  (forall x, is_nan x = false ->
     let e := ttsEnergy (vars (sphereSetTTSEnergy x w)) in
     (e = clamp x 0 1 \/ (x = neg_zero /\ e = 0%float)) /\
     (e =? clamp x 0 1)%float = true /\
     between 0 e 1 = true /\
     ((x <? 0)%float = true -> e = 0%float) /\
     ((1 <? x)%float = true -> e = 1%float) /\
     (between 0 x 1 = true -> (e =? x)%float = true /\ (x <> neg_zero -> e = x))) /\
  is_nan (ttsEnergy (vars (sphereSetTTSEnergy nan w))) = true /\
  between 0 (ttsEnergy (vars (sphereSetTTSEnergy nan w))) 1 = false /\
  (ttsEnergy (vars (sphereSetTTSEnergy nan w)) =? clamp nan 0 1)%float = false.
Proof.
  split; [apply clamp_between|]. split; [|repeat split; reflexivity].
  intros x Hnan.
  cbn [sphereSetTTSEnergy vars ttsEnergy set_ttsEnergy]. cbv zeta.
  pose proof (stored_energy_in_range x Hnan) as Hrange.
  rewrite stored_energy_cases in *. rewrite Hnan in *. unfold clamp, between in *.
  by_cmp_zero_one x.
  all: try discriminate Hnan.
  all: try (specialize (Hone eq_refl); rewrite Hone in * ).
  all: try (specialize (Hzero eq_refl); destruct Hzero as [Hz|Hz]; rewrite Hz in * ).
  all: repeat split; intros; try discriminate; try reflexivity; try congruence; auto.
  all: rewrite ?eqb_cmp, ?leb_cmp, ?(float_cmp_antisym x 0%float), ?H0, ?H1; try reflexivity.
  all: try (rewrite float_cmp_refl by assumption; reflexivity).
Qed.

Lemma setTTSEnergy_clamps_numbers_only_witness :
  ttsEnergy (vars (sphereSetTTSEnergy (-2) speaking_world)) = 0%float /\
  ttsEnergy (vars (sphereSetTTSEnergy 1.5 speaking_world)) = 1%float /\
  (ttsEnergy (vars (sphereSetTTSEnergy 0.25 speaking_world)) =? 0.25)%float = true /\
  between 0 (ttsEnergy (vars (sphereSetTTSEnergy 7 speaking_world))) 1 = true.
Proof.
  pose proof (setTTSEnergy_clamps_numbers_only speaking_world) as (_ & H & _).
  split; [|split; [|split]].
  - exact (proj1 (proj2 (proj2 (proj2 (H (-2)%float eq_refl)))) eq_refl).
  - exact (proj1 (proj2 (proj2 (proj2 (proj2 (H 1.5%float eq_refl))))) eq_refl).
  - exact (proj1 (proj2 (proj2 (proj2 (proj2 (proj2 (H 0.25%float eq_refl))))) eq_refl)).
  - exact (proj1 (proj2 (proj2 (H 7%float eq_refl)))).
Defined.

(** C4. [sphereSetTTSActive false] sets [ttsActive] to false and the raw
    energy to 0, whatever it was. *)
Theorem setTTSActive_false_zeroes_energy (w : World) :
  ttsEnergy (vars (sphereSetTTSActive false w)) = 0%float /\
  ttsActive (vars (sphereSetTTSActive false w)) = false.
Proof. split; reflexivity. Qed.

(** C5. The energy range is not kept by [sphereSetTTSEnergy]: on NaN,
    [Math.min(1, Math.max(0, NaN))] is NaN.  In a reachable state the raw
    energy is then outside [[0, 1]], the next frame makes the smoothed energy
    NaN as well, and it stays NaN after [sphereStopTTSPulse] and
    [sphereSetTTSActive false], since [0 - NaN] is NaN. *)
Theorem energy_range_broken_by_nan :
  reachable nan_world /\
  is_nan (ttsEnergy (vars nan_world)) = true /\
  between 0 (ttsEnergy (vars nan_world)) 1 = false /\
  is_nan (ttsEnergySmooth (vars (run FrameFires nan_world))) = true /\
  between 0 (ttsEnergySmooth (vars (run FrameFires nan_world))) 1 = false /\
  is_nan (ttsEnergySmooth (vars (run FrameFires (run CallStopTTSPulse
            (run FrameFires nan_world))))) = true /\
  is_nan (ttsEnergySmooth (vars (frames 100 (run (CallSetTTSActive false)
            (run FrameFires nan_world))))) = true.
Proof.
  split; [exact nan_world_reachable|repeat split; vm_compute; reflexivity].
Qed.

(** C6. In every reachable state at most one generator timer is live; and
    [sphereStartTTSPulse] leaves exactly one, the fresh one its handle names:
    a timer that was live before the call is no longer live after it. *)
Theorem start_pulse_single_generator (w : World) :
  reachable w ->
  (size (intervals (host w)) <= 1)%nat /\
  intervals (host (sphereStartTTSPulse w)) = {[ next_interval (host w) ]} /\
  ttsSimInterval (vars (sphereStartTTSPulse w)) = Some (next_interval (host w)) /\
  size (intervals (host (sphereStartTTSPulse w))) = 1%nat /\
  (forall old : positive,
     old ∈ intervals (host w) -> old ∉ intervals (host (sphereStartTTSPulse w))).
Proof.
  intros Hreach. pose proof (reachable_generator_ok w Hreach) as Hok.
  split; [now apply generator_ok_size|].
  destruct Hok as (Ha & Hb & Hc).
  assert (Hlive : intervals (host (sphereStartTTSPulse w)) = {[ next_interval (host w) ]}).
  { destruct w as [v c h]. unfold sphereStartTTSPulse. cbn [vars canvas host] in *.
    destruct v as [a t d e s act [old|]]; fields; apply leibniz_equiv.
    - intros x. rewrite elem_of_union, elem_of_difference, !elem_of_singleton.
      split; [|auto]. intros [H|[H1 H2]]; [exact H|].
      specialize (Ha x H1). congruence.
    - intros x. rewrite elem_of_union, !elem_of_singleton.
      split; [|auto]. intros [H|H]; [exact H|].
      specialize (Ha x H). discriminate Ha. }
  split; [exact Hlive|]. split; [|split].
  - destruct w as [v c h]. unfold sphereStartTTSPulse. cbn [vars canvas host].
    destruct v as [a t d e s act [old|]]; reflexivity.
  - rewrite Hlive. apply size_singleton.
  - intros old Hold. rewrite Hlive, elem_of_singleton.
    specialize (Hb old Hold). lia.
Qed.

Lemma start_pulse_single_generator_witness :
  (size (intervals (host pulsing_world)) <= 1)%nat /\
  intervals (host (sphereStartTTSPulse pulsing_world))
    = {[ next_interval (host pulsing_world) ]} /\
  ttsSimInterval (vars (sphereStartTTSPulse pulsing_world))
    = Some (next_interval (host pulsing_world)) /\
  size (intervals (host (sphereStartTTSPulse pulsing_world))) = 1%nat /\
  (forall old : positive,
     old ∈ intervals (host pulsing_world) ->
     old ∉ intervals (host (sphereStartTTSPulse pulsing_world))).
Proof.
  apply (start_pulse_single_generator pulsing_world).
  unfold pulsing_world. apply reachable_run; [|exact I]. apply reachable_startup.
Defined.

(** C7. [sphereStopTTSPulse] is idempotent on every state: a second call
    changes nothing; after one call [ttsActive] is false, [ttsEnergy] is 0
    and the handle is cleared; without a handle the call touches the two
    flags only. *)
Theorem stop_pulse_idempotent (w : World) :
  sphereStopTTSPulse (sphereStopTTSPulse w) = sphereStopTTSPulse w /\
  ttsActive (vars (sphereStopTTSPulse w)) = false /\
  ttsEnergy (vars (sphereStopTTSPulse w)) = 0%float /\
  ttsSimInterval (vars (sphereStopTTSPulse w)) = None /\
  (ttsSimInterval (vars w) = None ->
   sphereStopTTSPulse w =
   mkWorld (set_ttsEnergy 0 (set_ttsActive false (vars w))) (canvas w) (host w)).
Proof.
  destruct w as [[a t d e s act [id|]] c h]; repeat split; try reflexivity.
  intros H; discriminate H.
Qed.

Lemma stop_pulse_idempotent_witness :
  sphereStopTTSPulse speaking_world =
  mkWorld (set_ttsEnergy 0 (set_ttsActive false (vars speaking_world)))
          (canvas speaking_world) (host speaking_world).
Proof.
  exact (proj2 (proj2 (proj2 (proj2 (stop_pulse_idempotent speaking_world)))) eq_refl).
Defined.

(** C8, as the specification states it, fails: the buffer edge is not
    always the size times the pixel density.  A container of 333 by 500 at
    density 1.5 gives the product 499.5, and the canvas holds 499. *)
Lemma resize_fractional_edge_truncated :
  (Math_min [333; 500; 420] * 1.5 = 499.5)%float /\
  canvas_width (canvas (resize 1.5 333 500 (initial example_canvas example_math 1.5)))
    = 499%float /\
  canvas_height (canvas (resize 1.5 333 500 (initial example_canvas example_math 1.5)))
    = 499%float /\
  (canvas_width (canvas (resize 1.5 333 500 (initial example_canvas example_math 1.5)))
     =? Math_min [333; 500; 420] * 1.5)%float = false.
Proof. repeat split; reflexivity. Qed.

(** C8, amended.  [resize] assigns
    [Math.min(clientWidth, clientHeight, 420)] times the pixel density
    [dpr = devicePixelRatio || 1] to both buffer edges, and the canvas keeps
    the whole pixels of it: for a product of [[0, 2^31 - 1]] both edges are
    the whole number [n] with [n <= product < n + 1].  The size is the least
    of the three numbers, so it never exceeds 420, and for a container with
    no negative side and a density up to a million no edge exceeds 420 times
    the density.  A container of 1000 by 1000 at density 2 gives 840 by 840,
    not 2000 by 2000. *)
Theorem resize_caps_surface (d cw ch : float) (w : World) :
  let w' := resize d cw ch w in
  let size := Math_min [cw; ch; 420%float] in
  dpr (vars w') = js_or d 1 /\
  canvas_width (canvas w') = canvas_dimension 300 (size * dpr (vars w')) /\
  canvas_height (canvas w') = canvas_dimension 150 (size * dpr (vars w')) /\
  style_width_px (canvas w') = size /\
  style_height_px (canvas w') = size /\
  (is_nan cw = false -> is_nan ch = false ->
   (size <=? 420)%float = true /\
   (size <=? cw)%float = true /\ (size <=? ch)%float = true /\
   (size = cw \/ size = ch \/ size = 420%float)) /\
  (truthy d = true -> dpr (vars w') = d) /\
  (between 0 (size * dpr (vars w')) 2147483647 = true ->
   exists n : Z,
     (0 <= n <= 2147483647)%Z /\
     canvas_width (canvas w') = Z2float n /\
     canvas_height (canvas w') = Z2float n /\
     (Z2float n <=? size * dpr (vars w'))%float = true /\
     (size * dpr (vars w') <? Z2float (n + 1))%float = true) /\
  ((0 <=? cw)%float = true -> (0 <=? ch)%float = true ->
   between 0 (dpr (vars w')) 1000000 = true ->
   (canvas_width (canvas w') <=? 420 * dpr (vars w'))%float = true /\
   (canvas_height (canvas w') <=? 420 * dpr (vars w'))%float = true) /\
  canvas_width (canvas (resize 2 1000 1000 w)) = 840%float /\
  canvas_height (canvas (resize 2 1000 1000 w)) = 840%float /\
  (canvas_width (canvas (resize 2 1000 1000 w)) =? 2000)%float = false.
Proof.
  cbv zeta.
  cbn [resize vars canvas dpr set_dpr canvas_width canvas_height style_width_px
       style_height_px].
  set (size := Math_min [cw; ch; 420%float]).
  set (dpr' := js_or d 1).
  split; [reflexivity|]. split; [reflexivity|]. split; [reflexivity|].
  split; [reflexivity|]. split; [reflexivity|].
  split; [intros Hcw Hch; destruct (Math_min_least cw ch Hcw Hch) as (A & B & C & D); tauto|].
  split; [intros H; subst dpr'; unfold js_or; rewrite H; reflexivity|].
  assert (Hwhole : between 0 (size * dpr') 2147483647 = true ->
            exists n : Z,
              (0 <= n <= 2147483647)%Z /\
              canvas_dimension 300 (size * dpr') = Z2float n /\
              canvas_dimension 150 (size * dpr') = Z2float n /\
              (Z2float n <=? size * dpr')%float = true /\
              (size * dpr' <? Z2float (n + 1))%float = true).
  { intros H.
    destruct (canvas_dimension_floor 300 _ H) as (n & Hn & E1 & Hle & Hlt).
    exists n. split; [exact Hn|]. split; [exact E1|]. split; [|split; assumption].
    unfold canvas_dimension in *. cbv zeta in *.
    destruct (to_unsigned_long (size * dpr') <=? 2147483647)%Z eqn:E; [exact E1|].
    destruct (to_unsigned_long_floor_between _ H) as [_ Hmax].
    apply Z.leb_gt in E. lia. }
  split; [exact Hwhole|]. split; [|repeat split; reflexivity].
  intros Hcw Hch Hd.
  destruct (leb_not_nan _ _ Hcw) as [_ Ncw], (leb_not_nan _ _ Hch) as [_ Nch].
  destruct (Math_min_least cw ch Ncw Nch) as (_ & _ & Hcap & Hone). fold size in Hcap, Hone.
  assert (Hsize : between 0 size 420 = true).
  { unfold between. rewrite Hcap, andb_true_r.
    destruct Hone as [-> | [-> | ->]]; [exact Hcw|exact Hch|reflexivity]. }
  assert (Hprod : between 0 (size * dpr') 2147483647 = true) by bounds.
  destruct (Hwhole Hprod) as (n & _ & -> & -> & Hle & _).
  assert (Htop : (size * dpr' <=? 420 * dpr')%float = true).
  { apply mul_le_r; [tamed|closed|tamed| |exact Hcap].
    eapply between_left, Hd. }
  split; eapply leb_trans; eassumption.
Qed.

Lemma resize_caps_surface_witness :
  (Math_min [1000%float; 1000%float; 420%float] <=? 420)%float = true /\
  dpr (vars (resize 2 1000 1000 speaking_world)) = 2%float /\
  (exists n : Z,
     (0 <= n <= 2147483647)%Z /\
     canvas_width (canvas (resize 1.5 333 500 speaking_world)) = Z2float n /\
     canvas_height (canvas (resize 1.5 333 500 speaking_world)) = Z2float n /\
     (Z2float n <=? Math_min [333; 500; 420] * 1.5)%float = true /\
     (Math_min [333; 500; 420] * 1.5 <? Z2float (n + 1))%float = true) /\
  (canvas_width (canvas (resize 2.625 1000 1000 speaking_world)) <=? 420 * 2.625)%float = true.
Proof.
  split; [|split; [|split]].
  - exact (proj1 (proj1 (proj2 (proj2 (proj2 (proj2 (proj2
             (resize_caps_surface 2 1000 1000 speaking_world)))))) eq_refl eq_refl)).
  - exact (proj1 (proj2 (proj2 (proj2 (proj2 (proj2 (proj2
             (resize_caps_surface 2 1000 1000 speaking_world))))))) eq_refl).
  - exact (proj1 (proj2 (proj2 (proj2 (proj2 (proj2 (proj2 (proj2
             (resize_caps_surface 1.5 333 500 speaking_world)))))))) eq_refl).
  - exact (proj1 (proj1 (proj2 (proj2 (proj2 (proj2 (proj2 (proj2 (proj2 (proj2
             (resize_caps_surface 2.625 1000 1000 speaking_world)))))))))
             eq_refl eq_refl eq_refl)).
Defined.

(** C9, as the specification states it, fails: a 0 by 0 container gives a
    size of 0 and a 0 by 0 buffer, not a size above zero. *)
Lemma resize_zero_container_no_minimum :
  style_width_px (canvas (resize 2 0 0 (initial example_canvas example_math 2))) = 0%float /\
  canvas_width (canvas (resize 2 0 0 (initial example_canvas example_math 2))) = 0%float /\
  canvas_height (canvas (resize 2 0 0 (initial example_canvas example_math 2))) = 0%float /\
  (0 <? style_width_px (canvas (resize 2 0 0 (initial example_canvas example_math 2))))%float = false /\
  (0 <? canvas_width (canvas (resize 2 0 0 (initial example_canvas example_math 2))))%float = false.
Proof. repeat split; reflexivity. Qed.

(** C9, amended. With a container that has a zero side (the other side not
    negative) and a finite pixel density, [resize] returns normally and the
    size and both buffer edges are zero: not NaN, not negative, and not
    raised to any positive minimum. *)
Theorem resize_zero_container_zero_size (d cw ch : float) (w : World) :
  (cw = 0%float /\ (0 <=? ch)%float = true) \/
  (ch = 0%float /\ (0 <=? cw)%float = true) ->
  is_infinity d = false ->
  let c := canvas (resize d cw ch w) in
  (is_zero (style_width_px c) = true /\ is_zero (style_height_px c) = true) /\
  (is_zero (canvas_width c) = true /\ is_zero (canvas_height c) = true) /\
  (is_nan (canvas_width c) = false /\ is_nan (canvas_height c) = false) /\
  ((canvas_width c <? 0)%float = false /\ (canvas_height c <? 0)%float = false) /\
  ((0 <? canvas_width c)%float = false /\ (0 <? canvas_height c)%float = false).
Proof.
  intros Hside Hd. cbv zeta.
  cbn [resize canvas canvas_width canvas_height style_width_px style_height_px].
  pose proof (Math_min_zero_side cw ch Hside) as Hsize.
  destruct (js_or_one_finite d Hd) as [Hnan Hinf].
  pose proof (zero_times_finite _ (js_or d 1) Hsize Hnan Hinf) as Hz.
  destruct (is_zero_facts _ Hz) as (Hn & Hneg & Hpos).
  assert (Hs : is_zero (Math_min [cw; ch; 420%float]) = true)
    by (destruct Hsize as [-> | ->]; reflexivity).
  rewrite !(canvas_dimension_zero _ _ Hz).
  repeat split; try assumption; reflexivity.
Qed.

Lemma resize_zero_container_zero_size_witness :
  is_zero (canvas_width (canvas (resize 2 0 768 speaking_world))) = true /\
  is_nan (canvas_height (canvas (resize 2 0 768 speaking_world))) = false.
Proof.
  pose proof (resize_zero_container_zero_size 2 0 768 speaking_world
                (or_introl (conj eq_refl eq_refl)) eq_refl) as H.
  exact (conj (proj1 (proj1 (proj2 H))) (proj2 (proj1 (proj2 (proj2 H))))).
Defined.

(** C10. [sphereSetTTSActive true] changes the flag and nothing else: raw
    energy, smoothed energy, generator handle, canvas and browser state stay. *)
Theorem setTTSActive_true_only_sets_flag (w : World) :
  sphereSetTTSActive true w = mkWorld (set_ttsActive true (vars w)) (canvas w) (host w) /\
  ttsActive (vars (sphereSetTTSActive true w)) = true /\
  ttsEnergy (vars (sphereSetTTSActive true w)) = ttsEnergy (vars w) /\
  ttsEnergySmooth (vars (sphereSetTTSActive true w)) = ttsEnergySmooth (vars w) /\
  ttsSimInterval (vars (sphereSetTTSActive true w)) = ttsSimInterval (vars w) /\
  host (sphereSetTTSActive true w) = host w.
Proof. repeat split; reflexivity. Qed.

(** X1. As long as [sphereSetTTSEnergy] is given numbers, both energies stay in
    [[0, 1]]: the interval callback and the smoothing cannot leave the range
    on their own. *)
Theorem energy_in_range_reachable (w : World) :
  reachable_by numeric_energy w -> energy_in_range w.
Proof.
  induction 1 as [c m d cw ch|ev w Hw IH Hev].
  - apply energy_in_range_startup.
  - now apply energy_in_range_run.
Qed.

Lemma energy_in_range_reachable_witness : energy_in_range silenced_world.
Proof.
  apply energy_in_range_reachable. exact silenced_world_reachable.
Defined.

(** X2. The interval callback needs no clamp: with [Math.random()] in
    [[0, 1)] and the sine in [[-1, 1]], the energy it writes is in [[0, 1]]
    in binary64 arithmetic, and it writes nothing else. *)
Theorem pulse_callback_in_range (random sine : float) (w : World) :
  (0 <=? random)%float = true -> (random <? 1)%float = true ->
  between (-1) sine 1 = true ->
  between 0 (ttsEnergy (vars (pulse_callback random sine w))) 1 = true /\
  pulse_callback random sine w =
  mkWorld (set_ttsEnergy (ttsEnergy (vars (pulse_callback random sine w))) (vars w))
          (canvas w) (host w).
Proof.
  intros H0 H1 Hs. split; [|reflexivity].
  now apply pulse_energy_in_range.
Qed.

Lemma pulse_callback_in_range_witness :
  between 0 (ttsEnergy (vars (pulse_callback 0.75 (-0.5) pulsing_world))) 1 = true.
Proof.
  exact (proj1 (pulse_callback_in_range 0.75 (-0.5) pulsing_world eq_refl eq_refl eq_refl)).
Defined.

(** X3. A frame moves the smoothed energy towards the target and never
    past it: with both energies in [[0, 1]], the new value lies between the
    old value and the target. *)
Theorem draw_moves_towards_target (w : World) :
  energy_in_range w ->
  let prev := ttsEnergySmooth (vars w) in
  let target := targetEnergy (vars w) in
  let next := ttsEnergySmooth (vars (draw w)) in
  ((prev <=? target)%float = true -> between prev next target = true) /\
  ((target <=? prev)%float = true -> between target next prev = true).
Proof.
  intros [He Hs]. cbv zeta. rewrite draw_smooth.
  destruct (smooth_step_between _ _ Hs (target_in_range w He)) as (_ & Hup & Hdown).
  split; assumption.
Qed.

Lemma draw_moves_towards_target_witness :
  between (ttsEnergySmooth (vars speaking_world))
          (ttsEnergySmooth (vars (draw speaking_world)))
          (targetEnergy (vars speaking_world)) = true.
Proof.
  exact (proj1 (draw_moves_towards_target speaking_world (conj eq_refl eq_refl)) eq_refl).
Defined.

(** X4. The [beforeunload] listener leaves nothing scheduled: in every
    reachable state, after it no interval timer is live and no animation
    frame is pending, so neither the pulse callback nor [draw] runs again. *)
Theorem unload_leaves_nothing_scheduled (w : World) :
  reachable w ->
  intervals (host (on_beforeunload w)) = ∅ /\
  frame_request (host (on_beforeunload w)) = None /\
  forall id random sine,
    run (IntervalFires id random sine) (on_beforeunload w) = on_beforeunload w /\
    run FrameFires (on_beforeunload w) = on_beforeunload w.
Proof.
  intros Hreach.
  pose proof (reachable_generator_ok w Hreach) as Hgen.
  pose proof (reachable_frame_ok w Hreach) as Hframe.
  assert (Hi : intervals (host (on_beforeunload w)) = ∅).
  { destruct w as [v c h]. unfold on_beforeunload. cbn [vars canvas host] in *.
    assert (Hc : intervals (cancelAnimationFrame (animId v) h) = intervals h).
    { unfold cancelAnimationFrame. destruct (animId v), (frame_request h); auto.
      destruct (Pos.eqb _ _); auto. }
    destruct (ttsSimInterval v) as [id|] eqn:E; cbn [host intervals clearInterval].
    - rewrite Hc. now apply (generator_ok_cleared (mkWorld v c h) id).
    - rewrite Hc. now apply (generator_ok_idle (mkWorld v c h)). }
  assert (Hf : frame_request (host (on_beforeunload w)) = None).
  { destruct w as [v c h]. unfold on_beforeunload, frame_ok in *.
    cbn [vars canvas host] in *.
    assert (Hc : frame_request (cancelAnimationFrame (animId v) h) = None).
    { unfold cancelAnimationFrame. destruct Hframe as [Hn|Hs].
      - rewrite Hn. destruct (animId v); exact Hn.
      - rewrite Hs. destruct (animId v) as [i|]; [|exact Hs].
        rewrite Pos.eqb_refl. reflexivity. }
    destruct (ttsSimInterval v); exact Hc. }
  split; [exact Hi|]. split; [exact Hf|].
  intros id random sine. cbn [run]. rewrite Hi, Hf. split; [|reflexivity].
  destruct (decide _) as [Hin|]; [|reflexivity]. set_solver.
Qed.

Lemma unload_leaves_nothing_scheduled_witness :
  intervals (host (on_beforeunload pulsing_world)) = ∅ /\
  frame_request (host (on_beforeunload pulsing_world)) = None.
Proof.
  assert (Hreach : reachable pulsing_world).
  { unfold pulsing_world. apply reachable_run; [|exact I]. apply reachable_startup. }
  exact (conj (proj1 (unload_leaves_nothing_scheduled pulsing_world Hreach))
              (proj1 (proj2 (unload_leaves_nothing_scheduled pulsing_world Hreach)))).
Defined.

(** X5. [sphereStopTTSPulse] cancels the generator: in every reachable state
    no interval timer is live after it, so the callback cannot write a new
    energy over the 0 it stored. *)
Theorem stop_pulse_cancels_generator (w : World) :
  reachable w ->
  intervals (host (sphereStopTTSPulse w)) = ∅ /\
  forall id random sine,
    run (IntervalFires id random sine) (sphereStopTTSPulse w) = sphereStopTTSPulse w.
Proof.
  intros Hreach. pose proof (reachable_generator_ok w Hreach) as Hgen.
  assert (Hi : intervals (host (sphereStopTTSPulse w)) = ∅).
  { destruct w as [v c h]. unfold sphereStopTTSPulse. cbn [vars canvas host] in *.
    destruct v as [a t d e s act [id|]];
      cbn [ttsSimInterval set_ttsEnergy set_ttsActive host intervals clearInterval].
    - now apply (generator_ok_cleared (mkWorld (mkVars a t d e s act (Some id)) c h) id).
    - now apply (generator_ok_idle (mkWorld (mkVars a t d e s act None) c h)). }
  split; [exact Hi|]. intros id random sine. cbn [run]. rewrite Hi.
  destruct (decide _) as [Hin|]; [|reflexivity]. set_solver.
Qed.

Lemma stop_pulse_cancels_generator_witness :
  intervals (host (sphereStopTTSPulse pulsing_world)) = ∅.
Proof.
  apply (stop_pulse_cancels_generator pulsing_world).
  unfold pulsing_world. apply reachable_run; [|exact I]. apply reachable_startup.
Defined.

Local Close Scope Z_scope.

(* ================================================================== *)
(** * Part IX: further properties                                     *)
(* ================================================================== *)


(** X6. In every state a session can reach, whatever the events, the canvas
    is as the last [resize] left it: both buffer dimensions are what the
    canvas keeps of the CSS size times [dpr], whole numbers below [2^31];
    the CSS box is square, [setTransform] was given [dpr], and [dpr] is
    truthy (neither 0 nor NaN), so [canvas.width / dpr] in [draw] never
    divides by zero. *)
Theorem surface_consistent_reachable (ok : Event -> Prop) (w : World) :
  reachable_by ok w ->
  surface_ok w /\
  exists n m : Z,
    (0 <= n <= 2147483647)%Z /\ (0 <= m <= 2147483647)%Z /\
    canvas_width (canvas w) = Z2float n /\ canvas_height (canvas w) = Z2float m.
Proof.
  intros Hreach.
  assert (Hok : surface_ok w).
  { induction Hreach as [c m d cw ch|ev w Hw IH Hev].
    - destruct (startup_draw c m d cw ch) as (Hv & Hc & _).
      apply (surface_ok_same (resize d cw ch (initial c m d))); [| |apply surface_ok_resize].
      + rewrite Hc. apply draw_canvas.
      + rewrite Hv. apply draw_dpr.
    - now apply surface_ok_run. }
  split; [exact Hok|]. destruct Hok as (Hw & Hh & _).
  destruct (canvas_dimension_whole 300
              (style_width_px (canvas w) * dpr (vars w)) ltac:(lia)) as (n & Hn & En).
  destruct (canvas_dimension_whole 150
              (style_height_px (canvas w) * dpr (vars w)) ltac:(lia)) as (m & Hm & Em).
  exists n, m. rewrite Hw, Hh. auto.
Qed.

Lemma surface_consistent_reachable_witness :
  surface_ok silenced_world /\
  exists n m : Z,
    (0 <= n <= 2147483647)%Z /\ (0 <= m <= 2147483647)%Z /\
    canvas_width (canvas silenced_world) = Z2float n /\
    canvas_height (canvas silenced_world) = Z2float m.
Proof.
  apply (surface_consistent_reachable numeric_energy). exact silenced_world_reachable.
Defined.

(** X7. While [ttsActive] is false no event raises the smoothed energy: a
    frame lets it decay towards 0 and every other event, energy reports and
    timer ticks included, leaves it as it was. *)
Theorem inactive_energy_never_rises (ev : Event) (w : World) :
  between 0 (ttsEnergySmooth (vars w)) 1 = true ->
  ttsActive (vars w) = false ->
  (ttsEnergySmooth (vars (run ev w)) <=? ttsEnergySmooth (vars w))%float = true.
Proof.
  intros Hs Hoff.
  assert (Hrefl : (ttsEnergySmooth (vars w) <=? ttsEnergySmooth (vars w))%float = true).
  { apply leb_refl_float. apply between_left in Hs. now destruct (leb_not_nan _ _ Hs). }
  destruct ev; cbn [run].
  - destruct active; exact Hrefl.
  - exact Hrefl.
  - destruct (start_pulse_keeps w) as (_ & _ & _ & ->). exact Hrefl.
  - destruct (stop_pulse_keeps w) as (_ & _ & _ & ->). exact Hrefl.
  - destruct (decide _); exact Hrefl.
  - exact Hrefl.
  - destruct (frame_request (host w)); [|exact Hrefl].
    rewrite draw_smooth. unfold targetEnergy. rewrite Hoff.
    destruct (smooth_step_between _ 0%float Hs eq_refl) as (_ & _ & Hdown).
    eapply between_right, Hdown. eapply between_left, Hs.
  - destruct (unload_listener (host w)); exact Hrefl.
Qed.

Lemma inactive_energy_never_rises_witness :
  (ttsEnergySmooth (vars (run FrameFires silenced_world))
   <=? ttsEnergySmooth (vars silenced_world))%float = true.
Proof.
  apply (inactive_energy_never_rises FrameFires silenced_world).
  - vm_compute. reflexivity.
  - reflexivity.
Defined.

(** X8. The clamp of [sphereSetTTSEnergy] is idempotent: reporting the
    stored energy again changes nothing, for every argument (NaN and the two
    zeros included). *)
Theorem setTTSEnergy_idempotent (energy : float) (w : World) :
  let w' := sphereSetTTSEnergy energy w in
  sphereSetTTSEnergy (ttsEnergy (vars w')) w' = w'.
Proof.
  cbv zeta. unfold sphereSetTTSEnergy.
  cbn [vars canvas host ttsEnergy set_ttsEnergy animId time dpr ttsEnergySmooth ttsActive
       ttsSimInterval].
  rewrite stored_energy_idempotent. reflexivity.
Qed.

(** X9. [time] is a number of [[0, 2^53]] in every reachable state, whatever
    the events, and no event makes it smaller: it never becomes NaN or
    infinite, so the arguments [draw] hands to [Math.sin] stay finite. *)
Theorem time_bounded_never_decreases (ok : Event -> Prop) (w : World) :
  reachable_by ok w ->
  between 0 (time (vars w)) 9007199254740992 = true /\
  forall ev, (time (vars w) <=? time (vars (run ev w)))%float = true.
Proof.
  intros Hreach. pose proof (time_in_range_reachable ok w Hreach) as Ht.
  split; [exact Ht|]. intros ev. now apply time_never_decreases.
Qed.

Lemma time_bounded_never_decreases_witness :
  (time (vars pulsing_world) <=? time (vars (run FrameFires pulsing_world)))%float = true.
Proof.
  apply (time_bounded_never_decreases (fun _ => True) pulsing_world).
  unfold pulsing_world. apply reachable_run; [|exact I]. apply reachable_startup.
Defined.


(** X10. Reactive geometry grows with the energy, in binary64 arithmetic:
    for [0 <= e1 <= e2 <= 1], at the same time and for the same particle, no
    radius, alpha, blur, distance, size or font size computed from [e2] is
    smaller than the one computed from [e1]. *)
Theorem reactive_geometry_monotone (Math_sin : float -> float) (t e1 e2 : float) :
  sine_contract Math_sin ->
  between 0 t 9007199254740992 = true ->
  between 0 e1 1 = true -> between 0 e2 1 = true -> (e1 <=? e2)%float = true ->
  (glowRadius e1 <=? glowRadius e2)%float = true /\
  (glowAlpha e1 <=? glowAlpha e2)%float = true /\
  (borderAlpha e1 <=? borderAlpha e2)%float = true /\
  (ringRadius e1 <=? ringRadius e2)%float = true /\
  (ringAlpha e1 <=? ringAlpha e2)%float = true /\
  (shadowBlur e1 <=? shadowBlur e2)%float = true /\
  (particleAlpha e1 <=? particleAlpha e2)%float = true /\
  (connectDist e1 <=? connectDist e2)%float = true /\
  (lineAlpha e1 <=? lineAlpha e2)%float = true /\
  (coreAlpha e1 <=? coreAlpha e2)%float = true /\
  (fontSize e1 <=? fontSize e2)%float = true /\
  (labelAlpha e1 <=? labelAlpha e2)%float = true /\
  (coreRadius Math_sin t e1 <=? coreRadius Math_sin t e2)%float = true /\
  (forall i, (i < NUM_PARTICLES)%nat ->
     (particleRadius Math_sin t e1 i <=? particleRadius Math_sin t e2 i)%float = true /\
     (particleSize Math_sin t e1 i <=? particleSize Math_sin t e2 i)%float = true) /\
  (forall i, (i < numInner)%nat ->
     (innerAlpha Math_sin t e1 i <=? innerAlpha Math_sin t e2 i)%float = true).
Proof.
  intros Hsin Ht He1 He2 Hle.
  unfold glowRadius, glowAlpha, borderAlpha, ringRadius, ringAlpha, shadowBlur,
    particleAlpha, connectDist, lineAlpha, coreAlpha, fontSize, labelAlpha, coreRadius.
  repeat (split; [monotone|]). split.
  - intros i Hi. destruct (particle_index i Hi) as [Hnum Hang].
    unfold particleRadius, particleSize, lerp, idleOffset, reactiveOffset, reactiveBase,
      particlePhase.
    split; monotone.
  - intros i Hi. destruct (inner_index i Hi) as [Hnum Horb].
    unfold innerAlpha. monotone.
Qed.

Lemma zero_sine_contract : sine_contract (fun _ => 0%float).
Proof. intros x _. reflexivity. Qed.

Lemma reactive_geometry_monotone_witness :
  (glowRadius 0.25 <=? glowRadius 0.75)%float = true.
Proof.
  exact (proj1 (reactive_geometry_monotone (fun _ => 0%float) 1 0.25 0.75
                  zero_sine_contract eq_refl eq_refl eq_refl eq_refl)).
Defined.

(** X11. The layers of a frame do not cross.  With the energy in [[0, 1]]
    the core radius is in [[1.5, 10.5]], the inner particles orbit at
    distances in [[20, 75]] (inside the static circle of radius 100), the
    second ring has a radius in [[108, 114]], the reactive particles keep a
    distance in [[115.8, 256.2]] from the centre (outside the circle and the
    ring), and the glow radius is in [[150, 230]]. *)
Theorem frame_layers (Math_sin : float -> float) (t e : float) :
  sine_contract Math_sin ->
  between 0 t 9007199254740992 = true -> between 0 e 1 = true ->
  between 1.5 (coreRadius Math_sin t e) 10.5 = true /\
  (forall i, (i < numInner)%nat ->
     between 20 (orbitRadius i + wobble Math_sin t i) 75 = true) /\
  CIRCLE_RADIUS = 100%float /\
  between 108 (ringRadius e) 114 = true /\
  (forall i, (i < NUM_PARTICLES)%nat ->
     between 115.8 (particleRadius Math_sin t e i) 256.2 = true) /\
  between 150 (glowRadius e) 230 = true.
Proof.
  intros Hsin Ht He. split; [now apply coreRadius_between|].
  split; [intros i Hi; now apply orbit_between|].
  split; [reflexivity|].
  split; [unfold ringRadius; bounds|].
  split; [intros i Hi; now apply particleRadius_between|].
  unfold glowRadius. bounds.
Qed.

Lemma frame_layers_witness :
  between 115.8 (particleRadius (fun _ => 0%float) 1 0.5 7) 256.2 = true.
Proof.
  destruct (frame_layers (fun _ => 0%float) 1 0.5 zero_sine_contract eq_refl eq_refl)
    as (_ & _ & _ & _ & H & _).
  apply H. unfold NUM_PARTICLES. lia.
Defined.

(** X12. The [Math.max] guards of lines 175, 226 and 227 never change a
    value: with the energy in [[0, 1]] the particle size is above 0.5, the
    inner size above 0.3 and the inner alpha above 0. *)
Theorem guards_never_fire (Math_sin : float -> float) (t e : float) :
  sine_contract Math_sin ->
  between 0 t 9007199254740992 = true -> between 0 e 1 = true ->
  (forall i, (i < NUM_PARTICLES)%nat ->
     Math_max [particleSize Math_sin t e i; 0.5%float] = particleSize Math_sin t e i) /\
  (forall i, (i < numInner)%nat ->
     Math_max [iSize Math_sin t i; 0.3%float] = iSize Math_sin t i /\
     Math_max [innerAlpha Math_sin t e i; 0%float] = innerAlpha Math_sin t e i).
Proof.
  intros Hsin Ht He. split.
  - intros i Hi. apply Math_max_inert.
    apply (ltb_leb_trans _ 0.7999999999999999); [closed|].
    eapply between_left, particleSize_between; eassumption.
  - intros i Hi. split; apply Math_max_inert.
    + apply (ltb_leb_trans _ 0.30000000000000004); [closed|].
      eapply between_left, iSize_between; eassumption.
    + apply (ltb_leb_trans _ 0.05); [closed|].
      eapply between_left, innerAlpha_between; eassumption.
Qed.

Lemma guards_never_fire_witness :
  Math_max [particleSize (fun _ => 0%float) 1 0.5 7; 0.5%float]
  = particleSize (fun _ => 0%float) 1 0.5 7.
Proof.
  destruct (guards_never_fire (fun _ => 0%float) 1 0.5 zero_sine_contract eq_refl eq_refl)
    as [H _].
  apply H. unfold NUM_PARTICLES. lia.
Defined.

(** X13. Whatever a session of numeric energy reports has done, the frame
    painted next hands the canvas only valid numbers: every radius of [arc]
    and [createRadialGradient] and the shadow blur are non-negative and
    finite, every line width and the font size are positive and finite,
    every colour channel is in [[0, 255]], every alpha and every gradient
    offset in [[0, 1]]. *)
Theorem paint_valid_reachable
    (Math_sin Math_cos : float -> float) (Math_hypot : float -> float -> float) (w : World) :
  sine_contract Math_sin ->
  reachable_by numeric_energy w ->
  forallb cmd_ok (paint Math_sin Math_cos Math_hypot (canvas w) (vars w)) = true.
Proof.
  intros Hsin Hreach.
  pose proof (time_in_range_reachable _ w Hreach) as Ht.
  pose proof (energy_in_range_reachable_by w Hreach) as [_ He].
  now apply (paint_ok Math_sin Math_cos Math_hypot Hsin _ _ Ht He).
Qed.

Lemma paint_valid_reachable_witness :
  forallb cmd_ok (paint (fun _ => 0%float) (fun _ => 1%float) (fun _ _ => 0%float)
                        (canvas speaking_world) (vars speaking_world)) = true.
Proof.
  apply paint_valid_reachable; [exact zero_sine_contract|exact speaking_world_reachable].
Defined.

(** X14. Once the smoothed energy is NaN the frame is not valid any more,
    on any canvas and at any time: the outer radius of the glow gradient is
    NaN. *)
Theorem paint_invalid_on_nan
    (Math_sin Math_cos : float -> float) (Math_hypot : float -> float -> float)
    (c : Canvas) (v : Vars) :
  is_nan (ttsEnergySmooth v) = true ->
  forallb cmd_ok (paint Math_sin Math_cos Math_hypot c v) = false.
Proof.
  intros Hnan. apply is_nan_nan in Hnan.
  unfold paint. rewrite Hnan. cbv zeta beta.
  rewrite !forallb_app. cbn [forallb cmd_ok style_ok andb].
  replace (radius_ok (glowRadius nan)) with false by (symmetry; closed).
  rewrite andb_false_r. reflexivity.
Qed.

Lemma paint_invalid_on_nan_witness :
  forallb cmd_ok (paint (fun _ => 0%float) (fun _ => 1%float) (fun _ _ => 0%float)
                        (canvas nan_world) (vars (draw nan_world))) = false.
Proof. apply paint_invalid_on_nan. vm_compute. reflexivity. Defined.

(** ** The loops of the connecting lines *)

Lemma for_from_flat_map {A} fuel i stop step (body : nat -> list A) :
  for_from fuel i stop step body
  = flat_map body (for_from fuel i stop step (fun k => [k])).
Proof.
  revert i. induction fuel as [|fuel IH]; intros i; [reflexivity|].
  cbn [for_from]. destruct (i <? stop)%nat; [|reflexivity].
  cbn [app flat_map]. now rewrite IH.
Qed.

Lemma for_loop_flat_map {A} start stop step (body : nat -> list A) :
  for_loop start stop step body
  = flat_map body (for_loop start stop step (fun k => [k])).
Proof. apply for_from_flat_map. Qed.

Lemma flat_map_nested {A B C} (f : A -> list B) (g : B -> list C) l :
  flat_map g (flat_map f l) = flat_map (fun x => flat_map g (f x)) l.
Proof.
  induction l as [|x l IH]; [reflexivity|].
  cbn [flat_map]. now rewrite flat_map_app, IH.
Qed.

Lemma nested_loops_pairs {A} (body : nat -> nat -> list A) :
  for_loop 0 NUM_PARTICLES 3 (fun i =>
    for_loop (i + 3) (Nat.min (i + 15) NUM_PARTICLES) 3 (fun j => body i j))
  = flat_map (fun p => body (fst p) (snd p)) connection_pairs.
Proof.
  unfold connection_pairs.
  rewrite (for_loop_flat_map 0 NUM_PARTICLES 3
             (fun i => for_loop (i + 3) (Nat.min (i + 15) NUM_PARTICLES) 3 (fun j => [(i, j)]))).
  rewrite flat_map_nested.
  rewrite (for_loop_flat_map 0 NUM_PARTICLES 3).
  apply flat_map_ext. intros i.
  rewrite (for_loop_flat_map (i + 3) _ 3 (fun j => [(i, j)])), flat_map_nested.
  rewrite (for_loop_flat_map (i + 3) _ 3).
  apply flat_map_ext. intros j. cbn. now rewrite app_nil_r.
Qed.

Lemma connection_pairs_sound :
  forallb (fun p => pair_visited (fst p) (snd p)) connection_pairs = true.
Proof. vm_compute. reflexivity. Qed.

Lemma connection_pairs_complete :
  forallb (fun i => forallb (fun j =>
      implb (pair_visited i j)
            (existsb (fun p => (fst p =? i)%nat && (snd p =? j)%nat) connection_pairs))
    (seq 0 NUM_PARTICLES)) (seq 0 NUM_PARTICLES) = true.
Proof. vm_compute. reflexivity. Qed.

Lemma connection_pairs_spec i j :
  In (i, j) connection_pairs <->
  (i mod 3 = 0 /\ i < j < NUM_PARTICLES /\ (j - i) mod 3 = 0 /\ j - i <= 12)%nat.
Proof.
  split.
  - intros Hin. pose proof connection_pairs_sound as H.
    rewrite forallb_forall in H. specialize (H _ Hin). cbn [fst snd] in H.
    unfold pair_visited in H.
    repeat (apply andb_prop in H as [H ?]).
    apply Nat.eqb_eq in H. apply Nat.ltb_lt in H3, H2. apply Nat.eqb_eq in H1.
    apply Nat.leb_le in H0. lia.
  - intros (H1 & [H2 H3] & H4 & H5).
    pose proof (forallb_below _ _ connection_pairs_complete i ltac:(lia)) as H.
    cbv beta in H. pose proof (forallb_below _ _ H j H3) as H'. cbv beta in H'.
    replace (pair_visited i j) with true in H'.
    2:{ symmetry. unfold pair_visited.
        repeat (apply andb_true_intro; split);
          first [now apply Nat.eqb_eq | now apply Nat.ltb_lt | now apply Nat.leb_le]. }
    cbn [implb] in H'. apply existsb_exists in H' as ([i' j'] & Hin & Heq).
    cbn [fst snd] in Heq. apply andb_prop in Heq as [Ei Ej].
    apply Nat.eqb_eq in Ei, Ej. now subst.
Qed.

(** X15. With the energy above 0.05 the connecting-line loops set the
    stroke style and width once and then test 178 pairs of particles, each
    once: the pairs [(i, j)] with [i] a multiple of 3, [j] one of [i + 3],
    [i + 6], [i + 9], [i + 12], and [j < NUM_PARTICLES].  No pair wraps
    around from the last particles to the first. *)
Theorem connecting_lines_candidates
    (Math_sin Math_cos : float -> float) (Math_hypot : float -> float -> float)
    (t e cx cy : float) :
  (0.05 <? e)%float = true ->
  connections Math_sin Math_cos Math_hypot t e cx cy
  = [ set_strokeStyle (css (rgba 147 197 253 (lineAlpha e))); set_lineWidth 0.4 ] ++
    flat_map (fun p => connection Math_sin Math_cos Math_hypot t e cx cy (fst p) (snd p))
             connection_pairs /\
  length connection_pairs = 178%nat /\
  base.NoDup connection_pairs /\
  forall i j,
    In (i, j) connection_pairs <->
    (i mod 3 = 0 /\ i < j < NUM_PARTICLES /\ (j - i) mod 3 = 0 /\ j - i <= 12)%nat.
Proof.
  intros He. split; [|split; [|split]].
  - unfold connections. rewrite He. f_equal. apply nested_loops_pairs.
  - vm_compute. reflexivity.
  - apply (bool_decide_unpack _). vm_compute. exact I.
  - apply connection_pairs_spec.
Qed.

Lemma connecting_lines_candidates_witness :
  In (126, 138)%nat connection_pairs /\ ~ In (138, 0)%nat connection_pairs.
Proof.
  destruct (connecting_lines_candidates (fun _ => 0%float) (fun _ => 1%float)
              (fun _ _ => 0%float) 1 0.5 210 210 eq_refl) as (_ & _ & _ & H).
  split.
  - apply H. vm_compute. repeat split; lia.
  - intros Hin. apply H in Hin. lia.
Defined.


(** X16. No connecting line is drawn unless the smoothed energy is above
    0.05: otherwise (NaN included) the frame has no [moveTo] and no
    [lineTo]. *)
Theorem no_lines_when_quiet
    (Math_sin Math_cos : float -> float) (Math_hypot : float -> float -> float)
    (c : Canvas) (v : Vars) :
  (0.05 <? ttsEnergySmooth v)%float = false ->
  forallb (fun cmd => negb (is_line cmd)) (paint Math_sin Math_cos Math_hypot c v) = true.
Proof.
  intros Hquiet. unfold paint. cbv zeta beta. rewrite !forallb_app.
  unfold connections. rewrite Hquiet.
  rewrite !for_loop_forallb by (intros k _; reflexivity).
  reflexivity.
Qed.

Lemma no_lines_when_quiet_witness :
  forallb (fun cmd => negb (is_line cmd))
          (paint (fun _ => 0%float) (fun _ => 1%float) (fun _ _ => 0%float)
                 (canvas pulsing_world) (vars pulsing_world)) = true.
Proof. apply no_lines_when_quiet. reflexivity. Defined.

(** X17. [lerpColor(COLOR_ACCENT, COLOR_WHITE, t)] with [t] in [[0, 1]] is a
    colour of three integers, each between the channel of [COLOR_ACCENT]
    and 255. *)
Theorem lerpColor_accent_to_white (t : float) :
  between 0 t 1 = true ->
  exists zr zg zb : Z,
    (147 <= zr <= 255 /\ 197 <= zg <= 255 /\ 253 <= zb <= 255)%Z /\
    lerpColor COLOR_ACCENT COLOR_WHITE t = mkColor (Z2float zr) (Z2float zg) (Z2float zb).
Proof.
  intros Ht. destruct (accent_white_between t Ht) as (Hr & Hg & Hb).
  destruct (Math_round_channel _ 147 255 Hr) as (zr & Hzr & Er & _); try lia.
  destruct (Math_round_channel _ 197 255 Hg) as (zg & Hzg & Eg & _); try lia.
  destruct (Math_round_channel _ 253 255 Hb) as (zb & Hzb & Eb & _); try lia.
  exists zr, zg, zb. split; [lia|].
  unfold lerpColor. cbn [col_r col_g col_b COLOR_ACCENT COLOR_WHITE].
  now rewrite Er, Eg, Eb.
Qed.

Lemma lerpColor_accent_to_white_witness :
  exists zr zg zb : Z,
    (147 <= zr <= 255 /\ 197 <= zg <= 255 /\ 253 <= zb <= 255)%Z /\
    lerpColor COLOR_ACCENT COLOR_WHITE 0.5 = mkColor (Z2float zr) (Z2float zg) (Z2float zb).
Proof. apply lerpColor_accent_to_white. reflexivity. Defined.

(** ** Louder reports *)

Lemma stored_energy_mono x y :
  (x <=? y)%float = true ->
  (Math_min [1%float; Math_max [0%float; x]]
   <=? Math_min [1%float; Math_max [0%float; y]])%float = true.
Proof.
  intros Hxy. destruct (leb_not_nan _ _ Hxy) as [Hx Hy].
  pose proof (stored_energy_in_range y Hy) as Hry.
  rewrite (stored_energy_cases x), (stored_energy_cases y) in *. rewrite Hx, Hy in *.
  destruct (0 <? x)%float eqn:H0x.
  - rewrite (ltb_leb_trans _ _ _ H0x Hxy) in *.
    destruct (x <? 1)%float eqn:H1x, (y <? 1)%float eqn:H1y.
    + exact Hxy.
    + now apply ltb_leb.
    + rewrite (leb_ltb_trans _ _ _ Hxy H1y) in H1x. discriminate H1x.
    + reflexivity.
  - eapply between_left, Hry.
Qed.

(** X18. A louder report never gives a smaller sphere: if [x <= y], the
    frame after [sphereSetTTSEnergy(x)] leaves a smoothed energy that is at
    most the one the frame after [sphereSetTTSEnergy(y)] leaves in the same
    state (the arguments need not be in [[0, 1]]). *)
Theorem louder_report_never_smaller (x y : float) (w : World) :
  between 0 (ttsEnergySmooth (vars w)) 1 = true ->
  (x <=? y)%float = true ->
  (ttsEnergySmooth (vars (draw (sphereSetTTSEnergy x w)))
   <=? ttsEnergySmooth (vars (draw (sphereSetTTSEnergy y w))))%float = true.
Proof.
  intros Hs Hxy. rewrite !draw_smooth.
  destruct (leb_not_nan _ _ Hxy) as [Hx Hy].
  pose proof (stored_energy_in_range x Hx) as Hrx.
  pose proof (stored_energy_in_range y Hy) as Hry.
  pose proof (stored_energy_mono x y Hxy) as Hmono.
  unfold targetEnergy, sphereSetTTSEnergy.
  cbn [vars ttsActive ttsEnergy ttsEnergySmooth set_ttsEnergy].
  set (s := ttsEnergySmooth (vars w)) in *.
  set (tx := Math_min [1%float; Math_max [0%float; x]]) in *.
  set (ty := Math_min [1%float; Math_max [0%float; y]]) in *.
  destruct (ttsActive (vars w)).
  - monotone.
  - apply leb_refl_float.
    eapply proj1, leb_not_nan, between_right. interval.
Qed.

Lemma louder_report_never_smaller_witness :
  (ttsEnergySmooth (vars (draw (sphereSetTTSEnergy 0.2 speaking_world)))
   <=? ttsEnergySmooth (vars (draw (sphereSetTTSEnergy 0.9 speaking_world))))%float = true.
Proof. apply louder_report_never_smaller; reflexivity. Defined.

(** ** The size of a frame *)

Lemma for_from_unit fuel i stop :
  (stop - i <= fuel)%nat -> for_from fuel i stop 1 (fun k => [k]) = seq i (stop - i).
Proof.
  revert i. induction fuel as [|fuel IH]; intros i Hfuel.
  - replace (stop - i)%nat with 0%nat by lia. reflexivity.
  - cbn [for_from]. destruct (Nat.ltb_spec i stop) as [Hlt|Hge].
    + replace (stop - i)%nat with (S (stop - (i + 1)))%nat by lia.
      cbn [seq app]. f_equal. replace (S i) with (i + 1)%nat by lia.
      apply IH. lia.
    + replace (stop - i)%nat with 0%nat by lia. reflexivity.
Qed.

(** A loop from 0 in steps of 1 runs its body on [0, 1, ..., n - 1]. *)
Lemma for_loop_unit {A} n (body : nat -> list A) :
  for_loop 0 n 1 body = flat_map body (seq 0 n).
Proof.
  rewrite for_loop_flat_map. unfold for_loop.
  rewrite for_from_unit by lia. now rewrite Nat.sub_0_r.
Qed.

Lemma length_flat_map_const {A B} (f : A -> list B) k l :
  (forall x, length (f x) = k) -> length (flat_map f l) = (k * length l)%nat.
Proof.
  intros H. induction l as [|x l IH]; cbn [flat_map length]; [lia|].
  rewrite length_app, H, IH. lia.
Qed.

Lemma length_flat_map_le {A B} (f : A -> list B) k l :
  (forall x, (length (f x) <= k)%nat) -> (length (flat_map f l) <= k * length l)%nat.
Proof.
  intros H. induction l as [|x l IH]; cbn [flat_map length]; [lia|].
  rewrite length_app. specialize (H x). lia.
Qed.

(** A frame issues no more than it lists, and all of it when nothing throws. *)
Lemma issued_length cmds : (length (issued cmds) <= length cmds)%nat.
Proof.
  induction cmds as [|c cmds IH]; cbn [issued length]; [lia|].
  destruct (throws c); cbn [length]; lia.
Qed.

Lemma issued_all cmds : existsb throws cmds = false -> issued cmds = cmds.
Proof.
  induction cmds as [|c cmds IH]; cbn [issued existsb]; [reflexivity|].
  destruct (throws c); cbn [orb]; [discriminate|]. intros H. now rewrite IH.
Qed.

(** With a NaN energy the first [createRadialGradient] throws: its outer
    radius is NaN. *)
Lemma glow_gradient_throws_on_nan x0 y0 r0 x1 y1 :
  throws (createRadialGradient glowGrad x0 y0 r0 x1 y1 (glowRadius nan)) = true.
Proof.
  cbn [throws forallb].
  replace (is_finite (glowRadius nan)) with false by (symmetry; closed).
  cbn [andb]. rewrite !andb_false_r. reflexivity.
Qed.

Lemma issued_on_nan Math_sin Math_cos Math_hypot c v :
  is_nan (ttsEnergySmooth v) = true ->
  issued (paint Math_sin Math_cos Math_hypot c v)
  = [clearRect 0 0 (canvas_width c / dpr v) (canvas_height c / dpr v)].
Proof.
  intros Hnan. apply is_nan_nan in Hnan.
  unfold paint. rewrite Hnan. cbv zeta beta. cbn [app issued].
  rewrite glow_gradient_throws_on_nan. reflexivity.
Qed.

(** The connecting lines take at most 714 commands, and none when the
    energy is not above 0.05. *)
Lemma connections_length Math_sin Math_cos Math_hypot t e cx cy :
  (length (connections Math_sin Math_cos Math_hypot t e cx cy) <= 714)%nat /\
  ((0.05 <? e)%float = false ->
   length (connections Math_sin Math_cos Math_hypot t e cx cy) = 0%nat).
Proof.
  unfold connections. destruct (0.05 <? e)%float.
  - split; [|discriminate]. rewrite length_app, nested_loops_pairs. cbn [length].
    pose proof (length_flat_map_le
      (fun p => connection Math_sin Math_cos Math_hypot t e cx cy (fst p) (snd p))
      4 connection_pairs) as H.
    replace (length connection_pairs) with 178%nat in H by (vm_compute; reflexivity).
    assert (Hbody : forall x : nat * nat,
      (length (connection Math_sin Math_cos Math_hypot t e cx cy (fst x) (snd x)) <= 4)%nat).
    { intros p. unfold connection.
      destruct (lineEnd _ _ _ _ _ _ (fst p)), (lineEnd _ _ _ _ _ _ (snd p)).
      destruct (_ <? _)%float; cbn [length]; lia. }
    specialize (H Hbody). lia.
  - split; [cbn; lia|reflexivity].
Qed.

Lemma paint_length Math_sin Math_cos Math_hypot c v :
  length (paint Math_sin Math_cos Math_hypot c v)
  = (723 + length (connections Math_sin Math_cos Math_hypot (time v) (ttsEnergySmooth v)
                     (canvas_width c / dpr v / 2) (canvas_height c / dpr v / 2)))%nat.
Proof.
  unfold paint. cbv zeta beta. rewrite !length_app, !for_loop_unit.
  rewrite (length_flat_map_const _ 4) by reflexivity.
  rewrite (length_flat_map_const _ 4) by reflexivity.
  rewrite !length_seq. cbn [length]. unfold NUM_PARTICLES, numInner. lia.
Qed.

(** X19. The work of a frame is bounded.  [draw] lists between 723 and 1437
    calls and assignments on the canvas (the 3 [createRadialGradient] and
    the 8 [addColorStop] calls included), exactly 723 when the smoothed
    energy is not above 0.05.  A frame in which no call throws issues them
    all; a frame in which one throws issues those before it only, and with a
    NaN energy that is the [clearRect] alone, since the first
    [createRadialGradient] throws. *)
Theorem frame_cost_bounded
    (Math_sin Math_cos : float -> float) (Math_hypot : float -> float -> float)
    (c : Canvas) (v : Vars) :
  let cmds := paint Math_sin Math_cos Math_hypot c v in
  (723 <= length cmds <= 1437)%nat /\
  ((0.05 <? ttsEnergySmooth v)%float = false -> length cmds = 723%nat) /\
  (length (issued cmds) <= length cmds)%nat /\
  (existsb throws cmds = false -> issued cmds = cmds) /\
  (is_nan (ttsEnergySmooth v) = true ->
   issued cmds = [clearRect 0 0 (canvas_width c / dpr v) (canvas_height c / dpr v)]).
Proof.
  cbv zeta. rewrite paint_length.
  destruct (connections_length Math_sin Math_cos Math_hypot (time v) (ttsEnergySmooth v)
              (canvas_width c / dpr v / 2) (canvas_height c / dpr v / 2)) as [Hle Hzero].
  split; [lia|]. split; [intros Hq; rewrite (Hzero Hq); lia|].
  rewrite <- paint_length.
  split; [apply issued_length|]. split; [apply issued_all|apply issued_on_nan].
Qed.

Lemma frame_cost_bounded_witness :
  length (paint (sin example_math) (cos example_math) (hypot example_math)
                (canvas pulsing_world) (vars pulsing_world)) = 723%nat /\
  issued (frame speaking_world) = frame speaking_world /\
  length (issued (frame nan_world)) = 1%nat.
Proof.
  split; [|split].
  - exact (proj1 (proj2 (frame_cost_bounded (sin example_math) (cos example_math)
             (hypot example_math) (canvas pulsing_world) (vars pulsing_world))) eq_refl).
  - apply (frame_cost_bounded (sin (Math (host speaking_world)))
             (cos (Math (host speaking_world))) (hypot (Math (host speaking_world)))
             (canvas speaking_world) (smooth (vars speaking_world))).
    vm_compute. reflexivity.
  - unfold frame.
    rewrite (proj2 (proj2 (proj2 (proj2 (frame_cost_bounded
               (sin (Math (host nan_world))) (cos (Math (host nan_world)))
               (hypot (Math (host nan_world))) (canvas nan_world)
               (smooth (vars nan_world))))))); [reflexivity|vm_compute; reflexivity].
Defined.

Local Open Scope Z_scope.

(** X20. The smoothing settles: four hundred frames with no other event
    (under seven seconds at 60 frames a second) bring the smoothed energy
    within [1e-14] of its target, in binary64 arithmetic.  Each frame closes
    at least a tenth of the gap, up to a rounding error of [15 * 2^-53]. *)
Theorem smoothing_settles (n : nat) (w : World) :
  energy_in_range w -> (400 <= n)%nat ->
  between (-1e-14)
          (targetEnergy (vars w) - ttsEnergySmooth (vars (frames n w)))
          1e-14 = true.
Proof.
  intros [He Hs] Hn.
  pose proof (target_in_range w He) as Ht.
  destruct (between_FV _ _ _ _ _ FV_zero FV_one Hs) as (vs & Hvs & Bs).
  destruct (between_FV _ _ _ _ _ FV_zero FV_one Ht) as (vt & Hvt & Bt).
  destruct (frames_settled n w vs vt Hvs Hvt Bs Bt Hn) as (vn & v14 & Hvn & Bn & H14 & Hgap).
  destruct settle_constants as (v14' & H14' & H14n & _ & B14).
  assert (v14' = v14) by congruence. subst v14'.
  pose proof (pow2_pos ebias ltac:(elia)) as HB.
  assert (HBig : 2 ^ ebias < 2 ^ (971 + ebias)) by (apply pow2_lt; elia).
  assert (Hsub : FV (targetEnergy (vars w) - ttsEnergySmooth (vars (frames n w)))%float
                 = Some (rnd (vt - vn))).
  { apply sub_exact; auto. unfold moderate. lia. }
  apply (FV_between _ _ _ (- v14) (rnd (vt - vn)) v14); auto.
  pose proof (rnd_representable _ _ (Prim2SF_valid 1e-14%float) H14) as R14.
  pose proof (rnd_mono (vt - vn) v14 ltac:(lia)) as Hhi.
  pose proof (rnd_mono (- v14) (vt - vn) ltac:(lia)) as Hlo.
  rewrite rnd_opp in Hlo. rewrite R14 in Hhi, Hlo. lia.
Qed.

Lemma smoothing_settles_witness :
  between (-1e-14)
          (targetEnergy (vars speaking_world) - ttsEnergySmooth (vars (frames 400 speaking_world)))
          1e-14 = true.
Proof.
  apply smoothing_settles; [split; reflexivity|lia].
Defined.

Local Close Scope Z_scope.


(** ** NaN is absorbing *)

Lemma add_nan_l x y : is_nan x = true -> is_nan (x + y) = true.
Proof.
  rewrite !is_nan_spec, add_spec. intros ->. reflexivity.
Qed.

Lemma add_nan_r x y : is_nan y = true -> is_nan (x + y) = true.
Proof.
  rewrite !is_nan_spec, add_spec. intros ->.
  destruct (Prim2SF x) as [?|?| |? ? ?]; reflexivity.
Qed.

Lemma sub_nan_r x y : is_nan y = true -> is_nan (x - y) = true.
Proof.
  rewrite !is_nan_spec, sub_spec. intros ->.
  destruct (Prim2SF x) as [?|?| |? ? ?]; reflexivity.
Qed.

Lemma sub_nan_l x y : is_nan x = true -> is_nan (x - y) = true.
Proof.
  rewrite !is_nan_spec, sub_spec. intros ->. reflexivity.
Qed.

Lemma mul_nan_l x y : is_nan x = true -> is_nan (x * y) = true.
Proof.
  rewrite !is_nan_spec, mul_spec. intros ->. reflexivity.
Qed.

(** X21. A NaN smoothed energy is permanent: no API call, timer tick,
    resize, frame or unload makes [ttsEnergySmooth] a number again. *)
Theorem nan_energy_is_permanent (ev : Event) (w : World) :
  is_nan (ttsEnergySmooth (vars w)) = true ->
  is_nan (ttsEnergySmooth (vars (run ev w))) = true.
Proof.
  intros Hnan. destruct ev; cbn [run].
  - destruct active; exact Hnan.
  - exact Hnan.
  - destruct (start_pulse_keeps w) as (_ & _ & _ & ->). exact Hnan.
  - destruct (stop_pulse_keeps w) as (_ & _ & _ & ->). exact Hnan.
  - destruct (decide _); exact Hnan.
  - exact Hnan.
  - destruct (frame_request (host w)); [|exact Hnan].
    rewrite draw_smooth. now apply add_nan_l.
  - destruct (unload_listener (host w)); exact Hnan.
Qed.

Lemma nan_energy_is_permanent_witness :
  is_nan (ttsEnergySmooth (vars (run (CallSetTTSEnergy 0.5)
            (run FrameFires nan_world)))) = true.
Proof. apply nan_energy_is_permanent. vm_compute. reflexivity. Defined.

(** ** Loops have fuel enough *)

(** With a positive step, [stop - i] rounds of fuel are enough: more fuel
    changes nothing. *)
Lemma for_from_fuel {A} fuel fuel' i stop step (body : nat -> list A) :
  (0 < step)%nat -> (stop - i <= fuel)%nat -> (stop - i <= fuel')%nat ->
  for_from fuel i stop step body = for_from fuel' i stop step body.
Proof.
  intros Hstep. revert fuel' i.
  induction fuel as [|fuel IH]; intros fuel' i Hf Hf'.
  - destruct fuel' as [|fuel']; [reflexivity|]. cbn [for_from].
    destruct (Nat.ltb_spec i stop); [lia|reflexivity].
  - cbn [for_from]. destruct (Nat.ltb_spec i stop) as [Hlt|Hge].
    + destruct fuel' as [|fuel']; [lia|]. cbn [for_from].
      destruct (Nat.ltb_spec i stop); [|lia]. f_equal. apply IH; lia.
    + destruct fuel' as [|fuel']; [reflexivity|]. cbn [for_from].
      destruct (Nat.ltb_spec i stop); [lia|reflexivity].
Qed.

(** ** The render loop after a NaN *)

Lemma paint_throws_on_nan Math_sin Math_cos Math_hypot c v :
  is_nan (ttsEnergySmooth v) = true ->
  existsb throws (paint Math_sin Math_cos Math_hypot c v) = true.
Proof.
  intros Hnan. apply is_nan_nan in Hnan.
  unfold paint. rewrite Hnan. cbv zeta beta. cbn [app existsb].
  rewrite glow_gradient_throws_on_nan. reflexivity.
Qed.

(** The energy a frame paints with is NaN when the smoothed energy is, and
    when the target is. *)
Lemma frame_energy_nan v :
  is_nan (ttsEnergySmooth v) = true \/
  (ttsActive v = true /\ is_nan (ttsEnergy v) = true) ->
  is_nan (ttsEnergySmooth (smooth v)) = true.
Proof.
  rewrite smooth_energy. intros [H|[Ha H]].
  - now apply add_nan_l.
  - apply add_nan_r, mul_nan_l, sub_nan_l. unfold targetEnergy. now rewrite Ha.
Qed.

(** With no frame pending no event requests one, and neither the phase nor
    the smoothed energy changes. *)
Lemma no_frame_run ev w :
  frame_request (host w) = None ->
  frame_request (host (run ev w)) = None /\
  time (vars (run ev w)) = time (vars w) /\
  ttsEnergySmooth (vars (run ev w)) = ttsEnergySmooth (vars w).
Proof.
  intros Hnone. destruct ev; cbn [run].
  - destruct active; auto.
  - auto.
  - destruct (start_pulse_keeps w) as (_ & _ & Ht & Hs). split; [|auto].
    destruct w as [v c h]. unfold sphereStartTTSPulse. cbn [vars canvas host] in *.
    destruct (ttsSimInterval _); exact Hnone.
  - destruct (stop_pulse_keeps w) as (_ & _ & Ht & Hs). split; [|auto].
    destruct w as [v c h]. unfold sphereStopTTSPulse. cbn [vars canvas host] in *.
    destruct (ttsSimInterval _); exact Hnone.
  - destruct (decide _); auto.
  - auto.
  - rewrite Hnone. auto.
  - destruct (unload_listener (host w)); [|auto]. split; [|auto].
    destruct w as [v c h]. unfold on_beforeunload. cbn [vars canvas host] in *.
    assert (Hc : cancelAnimationFrame (animId v) h = h).
    { unfold cancelAnimationFrame. rewrite Hnone. now destruct (animId v). }
    rewrite Hc. destruct (ttsSimInterval v); exact Hnone.
Qed.

Lemma no_frame_session evs w :
  frame_request (host w) = None ->
  let w' := fold_left (fun w ev => run ev w) evs w in
  frame_request (host w') = None /\
  time (vars w') = time (vars w) /\
  ttsEnergySmooth (vars w') = ttsEnergySmooth (vars w).
Proof.
  revert w. induction evs as [|ev evs IH]; intros w Hnone; cbn [fold_left]; [auto|].
  destruct (no_frame_run ev w Hnone) as (Hn & Ht & Hs).
  destruct (IH _ Hn) as (Hn' & Ht' & Hs'). cbv zeta in *.
  split; [exact Hn'|]. split; congruence.
Qed.

(** X22. A NaN energy stops the render loop.  When the smoothed energy is
    NaN, or the raw energy is NaN while [ttsActive] holds, the next frame
    throws at the first [createRadialGradient], after [clearRect] alone:
    [animId] keeps its value and no frame is requested.  From then on no
    event requests one: whatever the calls, ticks and resizes that follow,
    no frame is pending, [time] stands still and the smoothed energy stays
    NaN. *)
Theorem nan_energy_stops_render_loop (w : World) (evs : list Event) :
  is_nan (ttsEnergySmooth (vars w)) = true \/
  (ttsActive (vars w) = true /\ is_nan (ttsEnergy (vars w)) = true) ->
  draw_throws w = true /\
  length (issued (frame w)) = 1%nat /\
  animId (vars (draw w)) = animId (vars w) /\
  frame_request (host (draw w)) = None /\
  let w' := fold_left (fun w ev => run ev w) evs (draw w) in
  frame_request (host w') = None /\
  time (vars w') = time (vars (draw w)) /\
  is_nan (ttsEnergySmooth (vars w')) = true.
Proof.
  intros H. pose proof (frame_energy_nan _ H) as Hnan.
  assert (Hthrows : draw_throws w = true) by now apply paint_throws_on_nan.
  assert (Hdraw : draw w = mkWorld (smooth (vars w)) (canvas w) (frame_delivered (host w)))
    by (unfold draw; now rewrite Hthrows).
  split; [exact Hthrows|]. split; [unfold frame; now rewrite issued_on_nan|].
  split; [now rewrite Hdraw|]. split; [now rewrite Hdraw|].
  destruct (no_frame_session evs (draw w)) as (Hn & Ht & Hs); [now rewrite Hdraw|].
  cbv zeta in *. split; [exact Hn|]. split; [exact Ht|].
  rewrite Hs, Hdraw. exact Hnan.
Qed.

Lemma nan_energy_stops_render_loop_witness :
  frame_request (host (run (CallSetTTSEnergy 0.5) (run FrameFires nan_world))) = None /\
  is_nan (ttsEnergySmooth (vars (run (CallSetTTSEnergy 0.5) (run FrameFires nan_world))))
  = true.
Proof.
  pose proof (nan_energy_stops_render_loop nan_world [CallSetTTSEnergy 0.5]
                (or_intror (conj eq_refl eq_refl))) as (_ & _ & _ & _ & Hn & _ & Hs).
  split; [exact Hn|exact Hs].
Defined.

(** ** Frames that run to their end *)

Lemma radius_ok_finite r :
  radius_ok r = true -> is_finite r = true /\ (r <? 0)%float = false.
Proof.
  unfold radius_ok. intros H. apply andb_prop in H as [H0 Hinf].
  split.
  - unfold is_finite, is_nan, is_infinity. rewrite !eqb_spec, abs_spec.
    rewrite leb_spec in H0. rewrite ltb_spec in Hinf.
    change (Prim2SF 0) with (S754_zero false) in H0.
    change (Prim2SF infinity) with (S754_infinity false) in *.
    destruct (Prim2SF r) as [s|s| |s m e]; try discriminate H0; try reflexivity.
    + destruct s; discriminate.
    + cbn [SFabs]. unfold SFeqb. rewrite SFcompare_refl by discriminate.
      destruct s; reflexivity.
  - rewrite ltb_cmp. rewrite leb_cmp, float_cmp_antisym in H0.
    destruct (float_cmp r 0) as [[| |]|]; try reflexivity; discriminate H0.
Qed.

Lemma unit_finite x : between 0 x 1 = true ->
  is_finite x = true /\ (x <? 0)%float = false /\ (1 <? x)%float = false.
Proof.
  intros H. split; [eapply between_finite; [exact H|closed|closed]|].
  unfold between in H. apply andb_prop in H as [H0 H1].
  rewrite !ltb_cmp. rewrite leb_cmp in H0, H1. rewrite float_cmp_antisym in H0.
  rewrite (float_cmp_antisym x 1).
  destruct (float_cmp x 0) as [[| |]|], (float_cmp x 1) as [[| |]|];
    try discriminate; auto.
Qed.

Lemma rgba_ok_parses c : rgba_ok c = true -> rgba_parses c = true.
Proof.
  unfold rgba_ok, rgba_parses. intros H.
  apply andb_prop in H as [H Ha]. apply andb_prop in H as [H Hb].
  apply andb_prop in H as [Hr Hg].
  cbn [forallb].
  rewrite (between_finite 0 (rgba_r c) 255) by (assumption || closed).
  rewrite (between_finite 0 (rgba_g c) 255) by (assumption || closed).
  rewrite (between_finite 0 (rgba_b c) 255) by (assumption || closed).
  rewrite (between_finite 0 (rgba_a c) 1) by (assumption || closed).
  reflexivity.
Qed.

(** A command with numbers in range and finite coordinates does not throw. *)
Lemma cmd_ok_no_throw c : cmd_ok c = true -> cmd_finite c = true -> throws c = false.
Proof.
  destruct c; try reflexivity; cbn [cmd_ok cmd_finite throws forallb]; intros Hok Hfin.
  - apply andb_prop in Hok as [H0 H1].
    destruct (radius_ok_finite _ H0) as [F0 N0], (radius_ok_finite _ H1) as [F1 N1].
    repeat (apply andb_prop in Hfin as [? Hfin]).
    repeat match goal with H : is_finite _ = true |- _ => rewrite H; clear H end.
    rewrite N0, N1. reflexivity.
  - apply andb_prop in Hok as [Ho Hc].
    destruct (unit_finite _ Ho) as (F & N0 & N1).
    rewrite F, N0, N1, (rgba_ok_parses _ Hc). reflexivity.
  - destruct (radius_ok_finite _ Hok) as [_ N]. rewrite N. now rewrite !andb_false_r.
Qed.

Lemma no_throw_all cmds :
  forallb cmd_ok cmds = true -> forallb cmd_finite cmds = true ->
  existsb throws cmds = false.
Proof.
  induction cmds as [|c cmds IH]; cbn [forallb existsb]; [reflexivity|].
  intros Hok Hfin. apply andb_prop in Hok as [Hc Hok], Hfin as [Fc Hfin].
  now rewrite (cmd_ok_no_throw c Hc Fc), IH.
Qed.

(** Only the three gradients of a frame have coordinates that must be
    finite: those of the centre, and of the centre moved by 30. *)
Lemma paint_finite Math_sin Math_cos Math_hypot c v :
  tame (canvas_width c / dpr v / 2) = true ->
  tame (canvas_height c / dpr v / 2) = true ->
  forallb cmd_finite (paint Math_sin Math_cos Math_hypot c v) = true.
Proof.
  intros Tx Ty. unfold paint. cbv zeta beta.
  set (cx := (canvas_width c / dpr v / 2)%float) in *.
  set (cy := (canvas_height c / dpr v / 2)%float) in *.
  assert (Fx : is_finite cx = true) by (eapply between_finite; [exact Tx|closed|closed]).
  assert (Fy : is_finite cy = true) by (eapply between_finite; [exact Ty|closed|closed]).
  pose proof Tx as Bx. pose proof Ty as By. unfold tame in Bx, By.
  assert (Fx' : is_finite (cx - CIRCLE_RADIUS * 0.3) = true)
    by (eapply between_finite; [interval|closed|closed]).
  assert (Fy' : is_finite (cy - CIRCLE_RADIUS * 0.3) = true)
    by (eapply between_finite; [interval|closed|closed]).
  rewrite !forallb_app.
  rewrite !for_loop_forallb by (intros k _; reflexivity).
  assert (Hlines : forallb cmd_finite
            (connections Math_sin Math_cos Math_hypot (time v) (ttsEnergySmooth v) cx cy)
          = true).
  { unfold connections. destruct (_ <? _)%float; [|reflexivity].
    rewrite forallb_app. cbn [forallb cmd_finite andb].
    apply for_loop_forallb. intros i _. apply for_loop_forallb. intros j _.
    unfold connection. destruct (lineEnd _ _ _ _ _ _ i), (lineEnd _ _ _ _ _ _ j).
    destruct (_ <? _)%float; reflexivity. }
  rewrite Hlines. cbn [forallb cmd_finite andb]. rewrite Fx, Fy, Fx', Fy'. reflexivity.
Qed.

(** X23. A valid frame runs to its end and keeps the loop going.  With both
    energies in [[0, 1]], [time] in [[0, 2^53]], a [Math.sin] within its
    range and the centre of the canvas a number of magnitude at most
    [1e100], no call of the frame throws: all its commands are issued, and
    [draw] requests the next frame and stores its handle in [animId]. *)
Theorem valid_frame_requests_next (w : World) :
  sine_contract (sin (Math (host w))) ->
  energy_in_range w -> time_in_range w ->
  between (-1e100) (canvas_width (canvas w) / dpr (vars w) / 2) 1e100 = true ->
  between (-1e100) (canvas_height (canvas w) / dpr (vars w) / 2) 1e100 = true ->
  draw_throws w = false /\
  issued (frame w) = frame w /\
  frame_request (host (draw w)) = Some (next_frame (host w)) /\
  animId (vars (draw w)) = Some (next_frame (host w)).
Proof.
  intros Hsin [He Hs] Ht Tx Ty.
  assert (Hno : draw_throws w = false).
  { unfold draw_throws, frame. apply no_throw_all.
    - apply (paint_ok _ _ _ Hsin (time (smooth (vars w))) (ttsEnergySmooth (smooth (vars w))));
        try reflexivity.
      + rewrite smooth_time. now apply time_step.
      + rewrite smooth_energy. apply smooth_step_between; [exact Hs|now apply target_in_range].
    - apply paint_finite; assumption. }
  split; [exact Hno|]. split; [now apply issued_all|].
  unfold draw. rewrite Hno. split; reflexivity.
Qed.

Lemma valid_frame_requests_next_witness :
  draw_throws speaking_world = false /\
  frame_request (host (draw speaking_world)) = Some (next_frame (host speaking_world)).
Proof.
  assert (Hr : energy_in_range speaking_world /\ time_in_range speaking_world).
  { split; [split; reflexivity|reflexivity]. }
  destruct (valid_frame_requests_next speaking_world zero_sine_contract (proj1 Hr) (proj2 Hr)
              eq_refl eq_refl) as (H1 & _ & H2 & _).
  split; assumption.
Defined.
